(** * Hybrid-retrieval merge engine: textbook_search and sci_search

    A shallow embedding of the two Supabase edge functions of the
    repository and the proofs of the properties stated for them.

    - [JS] fixes the fragment of the JavaScript semantics the handlers use
      (regular expression [/_(\d+)$/], [parseInt], template strings,
      [Set], truthiness, [Array.prototype.join]).
    - [TextbookSearch] embeds [supabase/functions/textbook_search/index.ts].
    - [SciSearch] embeds the second handler (sci_search).

    Numbers: a JavaScript number is an IEEE double.  A double holds every
    integer of absolute value up to 2^53 exactly, and on these values the
    arithmetic of the handlers is that of the integers ([Z]) as long as the
    result stays in the range.  The index arithmetic of the chunk ids
    ([parseInt], the bounds and the counter of [getIdRange], [sort_id]) is
    modelled with that limit written out: a value beyond it is [None] in
    [JS.number], the counter stops advancing at 2^53, and a run that meets
    such a value is [Hangs] or [Inexact] in [JS.outcome].  The numbers that
    the handlers only copy (page numbers, dates, filter bounds, [topK]) are
    integers.

    Strings: a string is a sequence of code units, written with Rocq's
    [string]; comparison is the lexicographic order on code units, as
    [<] on JavaScript strings. *)

From Equations Require Import Equations.
From Stdlib Require Import List ZArith Lia Bool Ascii String DecimalString
  Permutation Sorted.
From Stdlib Require DecimalPos DecimalZ OrderedTypeEx.
Import ListNotations.

Open Scope string_scope.
Open Scope Z_scope.

(* ===================================================================== *)
(** ** The JavaScript fragment *)
(* ===================================================================== *)

Module JS.

(** [\d] : an ASCII decimal digit. *)
Definition isDigit (c : ascii) : bool :=
  ((48 <=? nat_of_ascii c)%nat && (nat_of_ascii c <=? 57)%nat)%bool.

(** [\d*$] from the current position. *)
Fixpoint allDigits (s : string) : bool :=
  match s with
  | EmptyString => true
  | String c r => isDigit c && allDigits r
  end.

(** [s.match(/_(\d+)$/)] : the search tries every start position from the
    left; at a position the pattern matches when the character is [_] and
    the rest of the string is a non-empty run of digits.  The result is
    capture group 1 ([None] when [match] returns [null]). *)
Fixpoint matchIndexSuffix (s : string) : option string :=
  match s with
  | EmptyString => None
  | String c rest =>
      if (Ascii.eqb c "_" && negb (String.eqb rest "") && allDigits rest)%bool
      then Some rest
      else matchIndexSuffix rest
  end.

Definition digitValue (c : ascii) : Z := Z.of_nat (nat_of_ascii c) - 48.

Fixpoint parseDigits (acc : Z) (s : string) : Z :=
  match s with
  | EmptyString => acc
  | String c r =>
      if isDigit c then parseDigits (10 * acc + digitValue c) r else acc
  end.

(** *** Numbers

    The doubles that hold an integer [z] with [|z| <= 2^53] hold it exactly;
    [+], [-], [Math.max], [<=] and the decimal printing [`${i}`] of such
    values are those of the integers when the result is in that range
    again.  Any other double (a rounded sum, the rounded value of a long
    digit string, [Infinity]) is left undetermined: [number] is [Some z]
    for the double that holds the integer [z] and [None] for another
    double. *)
Definition maxExact : Z := 9007199254740992.

Definition number := option Z.

(** The double of the integer [z], when [z] is held exactly. *)
Definition exact (z : Z) : number :=
  if Z.abs z <=? maxExact then Some z else None.

(** [parseInt(s, 10)] on a string that starts with a digit (the only
    strings the handlers pass: a [\d+] capture or the literal ['0']): the
    double of the integer that the digits denote. *)
Definition parseInt (s : string) : number := exact (parseDigits 0 s).

(** [i++] on a counter that holds an integer of the exact range: below
    2^53 the sum [i + 1] is exact; 2^53 + 1 is no double and rounds (to
    even) back to 2^53, so at 2^53 the counter keeps its value. *)
Definition increment (i : Z) : Z := if i <? maxExact then i + 1 else i.

(** The run of a function of the handlers: it returns a value, it never
    returns, or it meets a number outside the exact range. *)
Inductive outcome (A : Type) :=
| Returns (a : A)
| Hangs
| Inexact.
Arguments Returns {A}.
Arguments Hangs {A}.
Arguments Inexact {A}.

Definition bind {A B} (o : outcome A) (f : A -> outcome B) : outcome B :=
  match o with
  | Returns a => f a
  | Hangs => Hangs
  | Inexact => Inexact
  end.

(** A [for .. of] loop whose body is such a run. *)
Fixpoint foldOutcome {A B} (f : A -> B -> outcome A) (l : list B) (a : A)
  : outcome A :=
  match l with
  | [] => Returns a
  | x :: l' => bind (f a x) (foldOutcome f l')
  end.

(** [`${i}`] for an integer [i]. *)
Definition toString (i : Z) : string := NilZero.string_of_int (Z.to_int i).

(** [s.lastIndexOf(c)], [-1] when [c] does not occur. *)
Fixpoint lastIndexOf (c : ascii) (s : string) : Z :=
  match s with
  | EmptyString => -1
  | String a r =>
      let k := lastIndexOf c r in
      if 0 <=? k then k + 1 else if Ascii.eqb a c then 0 else -1
  end.

(** [s.substring(0, n)]. *)
Definition substring0 (n : Z) (s : string) : string :=
  String.substring 0 (Z.to_nat n) s.

(** [Set<string>] : insertion-ordered, no repetition; the list is the
    iteration order. *)
Definition StrSet := list string.

Definition has (x : string) (s : StrSet) : bool := existsb (String.eqb x) s.

Definition add (x : string) (s : StrSet) : StrSet :=
  if has x s then s else (s ++ [x])%list.

Definition delete (x : string) (s : StrSet) : StrSet :=
  filter (fun y => negb (String.eqb x y)) s.

(** The string ['\n']. *)
Definition newline : string := String (ascii_of_nat 10) "".

(** [xs.join(sep)] on an array of strings. *)
Definition join (sep : string) (xs : list string) : string :=
  String.concat sep xs.

(** Truthiness.  An object (so: any array, even an empty one) is truthy;
    [undefined] is falsy; a number is falsy exactly when it is zero. *)
Definition truthyArray {A} (_ : list A) : bool := true.

Definition truthyOpt {A} (o : option A) : bool :=
  match o with Some _ => true | None => false end.

Definition truthyNum (n : Z) : bool := negb (n =? 0).

Definition truthyStr (s : string) : bool := negb (String.eqb s "").

(** [s.slice(-n)] : the last [n] code units of [s], all of [s] when it is
    shorter. *)
Definition sliceLast (n : nat) (s : string) : string :=
  String.substring (String.length s - n) n s.

(** [x ?? d]. *)
Definition orElse {A} (x : option A) (d : A) : A :=
  match x with Some v => v | None => d end.

End JS.

(* ===================================================================== *)
(** ** textbook_search *)
(* ===================================================================== *)

Module TextbookSearch.
Import JS.

(** The [for] loop of [getIdRange], iteration by iteration:
    [for (let i = lo; i <= hi; i++) idRange.add(`${prefix}${i}`)], on
    bounds of the exact range; [fuel] bounds the number of times the test
    [i <= hi] is evaluated, [None] is a run still inside the loop. *)
Fixpoint idRangeSteps (fuel : nat) (prefix : string) (i hi : Z)
         (idRange : StrSet) : option StrSet :=
  match fuel with
  | O => None
  | S fuel' =>
      if i <=? hi
      then idRangeSteps fuel' prefix (increment i) hi
                        (add (prefix ++ toString i) idRange)
      else Some idRange
  end.

(** The outcome of that loop.  Below 2^53 the counter advances by one; a
    counter at 2^53 that still passes the test passes it forever
    ([idRangeLoop_steps] relates the two definitions). *)
Equations? idRangeLoop (prefix : string) (i hi : Z) (idRange : StrSet)
  : outcome StrSet by wf (Z.to_nat (hi + 1 - i)) lt :=
  idRangeLoop prefix i hi idRange with Z_le_gt_dec i hi := {
    | left _ with Z_lt_ge_dec i maxExact := {
        | left _ :=
            idRangeLoop prefix (i + 1) hi (add (prefix ++ toString i) idRange);
        | right _ := Hangs };
    | right _ := Returns idRange }.
Proof. lia. Qed.

(** [extK] is a double that holds an integer.  [baseId - extK] and
    [baseId + extK] are the integer difference and sum when these are in
    the exact range (the sum, evaluated at every test of the loop, has the
    same value each time); otherwise they are rounded doubles and the run
    is [Inexact]. *)
Definition getIdRange (id : string) (extK : Z) : outcome StrSet :=
  match matchIndexSuffix id with
  | Some m1 =>
      match parseInt m1 with
      | Some baseId =>
          match exact (baseId - extK), exact (baseId + extK) with
          | Some lo, Some hi =>
              idRangeLoop (substring0 (lastIndexOf "_" id + 1) id)
                          (Z.max 0 lo) hi []
          | _, _ => Inexact
          end
      | None => Inexact
      end
  | None => Returns []
  end.

(** The window in closed form, to state what [getIdRange] returns: the
    ids of the indices [max(0, N-k) .. N+k] behind the prefix [p_], in
    ascending order. *)
Definition windowIds (p : string) (N k : Z) : list string :=
  map (fun m => p ++ "_" ++ toString (Z.max 0 (N - k) + Z.of_nat m))
      (seq 0 (Z.to_nat (N + k + 1 - Z.max 0 (N - k)))).

(** *** Filters *)

(** [FilterType = { [field: string]: string[] }]; an object is the list
    of its own enumerable properties in [for .. in] order. *)
Definition FilterType := list (string * list string).

Record RangeBound := { gte : option Z; lte : option Z }.

(** [DateFilterType = { [field: string]: { gte?: number; lte?: number } }]. *)
Definition DateFilterType := list (string * RangeBound).

Record FiltersItem := {
  terms : option FilterType;
  range : option DateFilterType }.

Definition FiltersType := list FiltersItem.

(** [{ $in?: string[]; $gte?: number; $lte?: number }]. *)
Record PCCondition := {
  pc_in : option (list string);
  pc_gte : option Z;
  pc_lte : option Z }.

(** [PCFilter = { $and: Array<{ [field]: PCCondition }> }]; every element
    of [$and] is an object with exactly one property. *)
Record PCFilter := { pc_and : list (string * PCCondition) }.

(** [if (item.range[field].gte) rangeConditions.$gte = ...] : the bound is
    copied when its value is truthy. *)
Definition truthyBound (b : option Z) : option Z :=
  match b with
  | Some v => if truthyNum v then Some v else None
  | None => None
  end.

Definition termsConditions (t : FilterType) : list (string * PCCondition) :=
  map (fun '(field, values) =>
         (field, {| pc_in := Some values; pc_gte := None; pc_lte := None |})) t.

Definition rangeConditions (r : DateFilterType) : list (string * PCCondition) :=
  map (fun '(field, b) =>
         (field, {| pc_in := None;
                    pc_gte := truthyBound (gte b);
                    pc_lte := truthyBound (lte b) |})) r.

Definition itemConditions (item : FiltersItem) : list (string * PCCondition) :=
  ((match terms item with Some t => termsConditions t | None => [] end) ++
   (match range item with Some r => rangeConditions r | None => [] end))%list.

Definition filterToPCQuery (filters : FiltersType) : PCFilter :=
  {| pc_and := flat_map itemConditions filters |}.

(** *** Backend data *)

Record PCMetadata := {
  md_rec_id : string;
  md_page_number : Z;
  md_isbn_number : string;
  md_text : string;
  md_title : string;
  md_company_name : string;
  md_publication_date : Z }.

(** An element of [pineconeResponse.matches]. *)
Record PCMatch := { pc_id : string; pc_metadata : option PCMetadata }.

Record OSSource := {
  src_rec_id : string;
  src_page_number : Z;
  src_isbn_number : string;
  src_text : string;
  src_title : string;
  src_author : string;
  src_publication_date : Z }.

(** An element of [fulltextResponse.body.hits.hits]. *)
Record OSHit := { os_id : string; os_source : OSSource }.

(** An element of [extFulltextResponse.body.docs]; [_source] is read only
    when [found] holds. *)
Record MgetDoc := { mg_id : string; mg_found : bool; mg_source : OSSource }.

(** An element of [unique_docs]; [doc_id] is its field [id], the record id
    of the parent document.  [N] is the type of [sort_id]: [number] in the
    objects that the loops push, whose [sort_id] is whatever [parseInt]
    gives, and [Z] from the sort on, which orders the documents by these
    values. *)
Record DocumentOf (N : Type) := {
  sort_id : N;
  doc_id : string;
  page_number : Z;
  text : string;
  title : string;
  author : string;
  isbn_number : string;
  publication_date : Z }.
Arguments sort_id {N}.
Arguments doc_id {N}.
Arguments page_number {N}.
Arguments text {N}.
Arguments title {N}.
Arguments author {N}.
Arguments isbn_number {N}.
Arguments publication_date {N}.

Abbreviation Document := (DocumentOf Z).

(** [parseInt(id.match(/_(\d+)$/)?.[1] ?? '0', 10)]. *)
Definition sortIdOf (id : string) : number :=
  parseInt (match matchIndexSuffix id with Some m1 => m1 | None => "0" end).

Definition docOfMatch (id : string) (md : PCMetadata) : DocumentOf number :=
  {| sort_id := sortIdOf id;
     doc_id := md_rec_id md;
     page_number := md_page_number md;
     isbn_number := md_isbn_number md;
     text := md_text md;
     title := md_title md;
     author := md_company_name md;
     publication_date := md_publication_date md |}.

Definition docOfSource (id : string) (src : OSSource) : DocumentOf number :=
  {| sort_id := sortIdOf id;
     doc_id := src_rec_id src;
     page_number := src_page_number src;
     isbn_number := src_isbn_number src;
     text := src_text src;
     title := src_title src;
     author := src_author src;
     publication_date := src_publication_date src |}.

(** *** The two queries *)

(** [body.query.bool]; [os_filter = None] is a [bool] object without a
    [filter] property. *)
Record OSBool := {
  should : list string;
  minimum_should_match : Z;
  os_filter : option FiltersType }.

Record OSBody := { query : OSBool; size : Z }.

Section Queries.
Variable Embedding : Type.

(** [qo_filter = None] is a [queryOptions] object without a [filter]
    property. *)
Record QueryOptions := {
  vector : Embedding;
  topK : Z;
  includeMetadata : bool;
  includeValues : bool;
  qo_filter : option PCFilter }.

(** Lines 156-167: [filters] starts as [[]] and receives at most the
    terms item and the range item. *)
Definition buildFilters (filter : option FilterType)
           (datefilter : option DateFilterType) : FiltersType :=
  if (truthyOpt filter || truthyOpt datefilter)%bool then
    let filtersArray :=
      ((if truthyOpt filter
        then [{| terms := filter; range := None |}] else []) ++
       (if truthyOpt datefilter
        then [{| terms := None; range := datefilter |}] else []))%list in
    ([] ++ filtersArray)%list
  else [].

(** Lines 170-190: [query: filters ? { bool: {.., filter: filters} }
    : { bool: {..} }]. *)
Definition buildBody (full_text_query : list string) (k : Z)
           (filters : FiltersType) : OSBody :=
  {| query :=
       if truthyArray filters
       then {| should := full_text_query;
               minimum_should_match := 1;
               os_filter := Some filters |}
       else {| should := full_text_query;
               minimum_should_match := 1;
               os_filter := None |};
     size := k |}.

(** Lines 203-212. *)
Definition buildQueryOptions (searchVector : Embedding) (k : Z)
           (filters : FiltersType) : QueryOptions :=
  let queryOptions :=
    {| vector := searchVector; topK := k;
       includeMetadata := true; includeValues := false;
       qo_filter := None |} in
  if truthyArray filters
  then {| vector := vector queryOptions; topK := topK queryOptions;
          includeMetadata := includeMetadata queryOptions;
          includeValues := includeValues queryOptions;
          qo_filter := Some (filterToPCQuery filters) |}
  else queryOptions.
End Queries.

Arguments vector {Embedding}.
Arguments topK {Embedding}.
Arguments includeMetadata {Embedding}.
Arguments includeValues {Embedding}.
Arguments qo_filter {Embedding}.
Arguments buildQueryOptions {Embedding}.

(** *** Union and deduplication (lines 231-269) *)

(** The state of the two loops: [id_set] and [unique_docs]. *)
Definition pineconeStep (st : StrSet * list (DocumentOf number))
           (doc : PCMatch) : StrSet * list (DocumentOf number) :=
  let '(id_set, unique_docs) := st in
  let id := pc_id doc in
  (add id id_set,
   match pc_metadata doc with
   | Some md => (unique_docs ++ [docOfMatch (pc_id doc) md])%list
   | None => unique_docs
   end).

Definition fulltextStep (st : StrSet * list (DocumentOf number))
           (doc : OSHit) : StrSet * list (DocumentOf number) :=
  let '(id_set, unique_docs) := st in
  let id := os_id doc in
  if negb (has id id_set)
  then (add id id_set,
        (unique_docs ++ [docOfSource (os_id doc) (os_source doc)])%list)
  else st.

Definition unionDedup (matches : list PCMatch) (hits : list OSHit)
  : StrSet * list (DocumentOf number) :=
  fold_left fulltextStep hits (fold_left pineconeStep matches ([], [])).

(** The same two loops, recording for every pushed document the backend
    hit it was built from.  [unique_docs] keeps neither the chunk id nor
    the backend, so statements about "the hit for chunk id X" are made on
    this trace; [unionDedup_trace] below shows that forgetting the trace
    gives back [unionDedup]. *)
Inductive Hit :=
| SimilarityHit (id : string) (md : PCMetadata)
| KeywordHit (id : string) (src : OSSource).

Definition chunkId (h : Hit) : string :=
  match h with SimilarityHit id _ => id | KeywordHit id _ => id end.

Definition documentOf (h : Hit) : DocumentOf number :=
  match h with
  | SimilarityHit id md => docOfMatch id md
  | KeywordHit id src => docOfSource id src
  end.

Definition pineconeStepT (st : StrSet * list Hit) (doc : PCMatch)
  : StrSet * list Hit :=
  let '(id_set, hits) := st in
  (add (pc_id doc) id_set,
   match pc_metadata doc with
   | Some md => (hits ++ [SimilarityHit (pc_id doc) md])%list
   | None => hits
   end).

Definition fulltextStepT (st : StrSet * list Hit) (doc : OSHit)
  : StrSet * list Hit :=
  let '(id_set, hits) := st in
  if negb (has (os_id doc) id_set)
  then (add (os_id doc) id_set,
        (hits ++ [KeywordHit (os_id doc) (os_source doc)])%list)
  else st.

Definition unionDedupT (matches : list PCMatch) (hits : list OSHit)
  : StrSet * list Hit :=
  fold_left fulltextStepT hits (fold_left pineconeStepT matches ([], [])).

(** The hits the first loop pushes for one match. *)
Definition similarityHits (m : PCMatch) : list Hit :=
  match pc_metadata m with
  | Some md => [SimilarityHit (pc_id m) md]
  | None => []
  end.

(** *** Context expansion (lines 271-309) *)

(** [extend_ids] after the two loops over [id_set]: every window is added,
    then every seen id is deleted. *)
Definition extendIds (id_set : StrSet) (extK : Z) : outcome StrSet :=
  bind
    (foldOutcome
       (fun ext id =>
          bind (getIdRange id extK)
               (fun idRange =>
                  Returns (fold_left (fun ext' id' => add id' ext') idRange ext)))
       id_set [])
    (fun extend_ids =>
       Returns (fold_left (fun ext id => delete id ext) id_set extend_ids)).

(** The [ids] of the [mget] request; [None] when [extK > 0] fails and no
    request is made. *)
Definition expansionRequest (id_set : StrSet) (extK : Z)
  : outcome (option (list string)) :=
  if extK >? 0
  then bind (extendIds id_set extK) (fun extend_ids => Returns (Some extend_ids))
  else Returns None.

Definition docOfMget (doc : MgetDoc) : DocumentOf number :=
  docOfSource (mg_id doc) (mg_source doc).

(** [docs.filter(doc => doc.found)]. *)
Definition filter_found (docs : list MgetDoc) : list MgetDoc :=
  filter mg_found docs.

(** *** Sorting and grouping (lines 319-354) *)

(** The array that [unique_docs.sort] orders: the comparator subtracts
    [sort_id] values, so the order is determined when every [sort_id] is
    an integer held exactly. *)
Definition exactDocument (d : DocumentOf number) : option Document :=
  match sort_id d with
  | Some n =>
      Some {| sort_id := n; doc_id := doc_id d; page_number := page_number d;
              text := text d; title := title d; author := author d;
              isbn_number := isbn_number d;
              publication_date := publication_date d |}
  | None => None
  end.

Fixpoint exactDocuments (docs : list (DocumentOf number))
  : option (list Document) :=
  match docs with
  | [] => Some []
  | d :: rest =>
      match exactDocument d, exactDocuments rest with
      | Some d', Some rest' => Some (d' :: rest')
      | _, _ => None
      end
  end.

(** The comparator passed to [unique_docs.sort]. *)
Definition compareDocs (a b : Document) : Z :=
  if String.ltb (doc_id a) (doc_id b) then -1
  else if String.ltb (doc_id b) (doc_id a) then 1
  else sort_id a - sort_id b.

(** [Array.prototype.sort] is a stable sort; with a comparator that is a
    total preorder its result is the stable sorted arrangement, computed
    here by insertion from the right. *)
Section Sort.
Context {A : Type} (cmp : A -> A -> Z).

Fixpoint insertSorted (a : A) (l : list A) : list A :=
  match l with
  | [] => [a]
  | b :: l' => if cmp a b <=? 0 then a :: b :: l' else b :: insertSorted a l'
  end.

Definition sortWith (l : list A) : list A := fold_right insertSorted [] l.
End Sort.

Record GroupState := {
  combinedDocs : list Document;
  currentGroup : list Document;
  currentId : option string }.

Definition withText (d : Document) (t : string) : Document :=
  {| sort_id := sort_id d; doc_id := doc_id d; page_number := page_number d;
     text := t; title := title d; author := author d;
     isbn_number := isbn_number d; publication_date := publication_date d |}.

(** [if (currentGroup.length > 0) combinedDocs.push({...currentGroup[0],
    text: currentGroup.map(doc => doc.text).join('\n')})] : the documents
    pushed. *)
Definition flushGroup (g : list Document) : list Document :=
  match g with
  | [] => []
  | first :: _ => [withText first (join newline (map text g))]
  end.

(** [doc.id !== currentId] with [currentId : string | null]. *)
Definition differsFrom (id : string) (cur : option string) : bool :=
  match cur with
  | Some c => negb (String.eqb id c)
  | None => true
  end.

Definition groupStep (st : GroupState) (doc : Document) : GroupState :=
  if differsFrom (doc_id doc) (currentId st)
  then {| combinedDocs := (combinedDocs st ++ flushGroup (currentGroup st))%list;
          currentGroup := [doc];
          currentId := Some (doc_id doc) |}
  else {| combinedDocs := combinedDocs st;
          currentGroup := (currentGroup st ++ [doc])%list;
          currentId := currentId st |}.

(** "Handle the last group": the array [combinedDocs] once the loop is
    over. *)
Definition closeGroups (st : GroupState) : list Document :=
  (combinedDocs st ++ flushGroup (currentGroup st))%list.

Definition combineDocs (unique_docs : list Document) : list Document :=
  closeGroups
    (fold_left groupStep unique_docs
               {| combinedDocs := []; currentGroup := []; currentId := None |}).

(** Lines 319-354 as one function: sort, then the single pass. *)
Definition groupMerge (unique_docs : list Document) : list Document :=
  combineDocs (sortWith compareDocs unique_docs).

(** *** The whole of [search] *)

Record DocListEntry := { content : string; source : string }.

Section Search.
Variable Embedding : Type.
(** The collaborators: the embedding model, the two stores, and the
    calendar conversion of [formatTimestampToDate] (local time zone). *)
Variable embedQuery : string -> Embedding.
Variable pineconeQuery : QueryOptions Embedding -> list PCMatch.
Variable opensearchSearch : OSBody -> list OSHit.
Variable opensearchMget : list string -> list MgetDoc.
Variable formatTimestampToDate : Z -> string.

Definition sourceEntry (doc : Document) : string :=
  title doc ++ "(ISBN: " ++ isbn_number doc ++ "), " ++ author doc ++ ". "
    ++ formatTimestampToDate (publication_date doc)
    ++ "(P" ++ toString (page_number doc) ++ "). ".

(** Lines 271-309: [unique_docs] after the expansion. *)
Definition expandDocs (id_set : StrSet)
           (unique_docs : list (DocumentOf number)) (extK : Z)
  : outcome (list (DocumentOf number)) :=
  bind (expansionRequest id_set extK)
       (fun request =>
          match request with
          | Some ids =>
              let filteredResponse := filter_found (opensearchMget ids) in
              Returns (unique_docs ++ map docOfMget filteredResponse)%list
          | None => Returns unique_docs
          end).

(** Lines 319-366. *)
Definition docListOf (unique_docs : list (DocumentOf number))
  : outcome (list DocListEntry) :=
  match exactDocuments unique_docs with
  | Some docs =>
      Returns (map (fun doc => {| content := text doc;
                                  source := sourceEntry doc |})
                   (groupMerge docs))
  | None => Inexact
  end.

Definition search (semantic_query : string) (full_text_query : list string)
           (k extK : Z) (filter : option FilterType)
           (datefilter : option DateFilterType)
  : outcome (list DocListEntry) :=
  let searchVector := embedQuery semantic_query in
  let filters := buildFilters filter datefilter in
  let body := buildBody full_text_query k filters in
  let queryOptions := buildQueryOptions searchVector k filters in
  let pineconeResponse := pineconeQuery queryOptions in
  let fulltextResponse := opensearchSearch body in
  let '(id_set, unique_docs) := unionDedup pineconeResponse fulltextResponse in
  bind (expandDocs id_set unique_docs extK) docListOf.
End Search.

(** *** [formatTimestampToDate] (lines 62-68) *)

Section Dates.
(** The getters of [Date], in the local time zone, on a time value in
    milliseconds. *)
Variables getFullYear getMonth getDate : Z -> Z.

Definition formatTimestampToDate (timestamp : Z) : string :=
  let date := timestamp * 1000 in
  let year := getFullYear date in
  let month := sliceLast 2 ("0" ++ toString (getMonth date + 1)) in
  let day := sliceLast 2 ("0" ++ toString (getDate date)) in
  toString year ++ "-" ++ month ++ "-" ++ day.
End Dates.

(** *** The request handler (lines 371-413) *)

(** The result of [generateQuery]. *)
Record QueryResult := {
  semantic_query : string;
  fulltext_query_chi_tra : list string;
  fulltext_query_chi_sim : list string;
  fulltext_query_eng : list string }.

(** The parsed body of the request; a property that is absent is [None]. *)
Record RequestBody := {
  rb_query : string;
  rb_filter : option FilterType;
  rb_datefilter : option DateFilterType;
  rb_topK : option Z;
  rb_extK : option Z }.

Record Request := {
  method : string;
  h_email : option string;
  h_password : option string;
  json : RequestBody }.

(** A key of the session cache, as [setex] stores it.  The passing of time,
    hence the expiry of a key, is outside this model: a key is present from
    its [setex] on. *)
Record RedisEntry := { re_key : string; re_seconds : Z; re_value : string }.

Definition Redis := list RedisEntry.

(** [redis.exists(key)], as a truth value. *)
Definition redisExists (key : string) (redis : Redis) : bool :=
  existsb (fun e => String.eqb (re_key e) key) redis.

(** [redis.setex(key, seconds, value)]. *)
Definition redisSetex (key : string) (seconds : Z) (value : string)
           (redis : Redis) : Redis :=
  {| re_key := key; re_seconds := seconds; re_value := value |}
    :: filter (fun e => negb (String.eqb (re_key e) key)) redis.

(** A call of [logInsert]. *)
Record LogEntry := {
  log_email : string;
  log_time : Z;
  log_function : string;
  log_topK : Z }.

Section Handler.
Variable Embedding : Type.
Variable embedQuery : string -> Embedding.
Variable pineconeQuery : QueryOptions Embedding -> list PCMatch.
Variable opensearchSearch : OSBody -> list OSHit.
Variable opensearchMget : list string -> list MgetDoc.
Variables getFullYear getMonth getDate : Z -> Z.
(** The shared modules [supabase_auth.ts] and [generate_query.ts], and the
    clock read by [Date.now()]. *)
Variable AuthResponse : Type.
Variable status : AuthResponse -> Z.
Variable supabaseAuth : string -> string -> AuthResponse.
Variable generateQuery : string -> QueryResult.
Variable now : Z.

(** [JsonResponse result] is the response built from what [search]
    does: its JSON when [search] returns, and no response when it does
    not. *)
Inductive Response :=
| OkResponse
| AuthFailure (authResponse : AuthResponse)
| JsonResponse (result : outcome (list DocListEntry)).

(** The handler on a cache state: the response, the cache afterwards and the
    calls of [logInsert]. *)
Definition handler (redis : Redis) (req : Request)
  : Response * Redis * list LogEntry :=
  if String.eqb (method req) "OPTIONS" then (OkResponse, redis, [])
  else
    let email := orElse (h_email req) "" in
    let password := orElse (h_password req) "" in
    let gate : option AuthResponse * Redis :=
      if negb (redisExists email redis) then
        let authResponse := supabaseAuth email password in
        if negb (status authResponse =? 200)
        then (Some authResponse, redis)
        else (None, redisSetex email 3600 "" redis)
      else (None, redis) in
    match gate with
    | (Some authResponse, redis') => (AuthFailure authResponse, redis', [])
    | (None, redis') =>
        let body := json req in
        let k := orElse (rb_topK body) 5 in
        let extK := orElse (rb_extK body) 0 in
        let logged :=
          [{| log_email := orElse (h_email req) "";
              log_time := now;
              log_function := "textbook_search";
              log_topK := k |}] in
        let res := generateQuery (rb_query body) in
        let result :=
          search Embedding embedQuery pineconeQuery opensearchSearch
                 opensearchMget
                 (formatTimestampToDate getFullYear getMonth getDate)
                 (semantic_query res)
                 (fulltext_query_chi_tra res ++ fulltext_query_chi_sim res
                    ++ fulltext_query_eng res)%list
                 k extK (rb_filter body) (rb_datefilter body) in
        (JsonResponse result, redis', logged)
    end.
End Handler.

End TextbookSearch.

(* ===================================================================== *)
(** ** sci_search *)
(* ===================================================================== *)

Module SciSearch.
Import JS.

Record JournalData := {
  doi : string;
  title : string;
  authors : list string }.

(** The result of a throwing computation. *)
Inductive result (A : Type) :=
| Ok (a : A)
| Throw (message : string).
Arguments Ok {A}.
Arguments Throw {A}.

(** [FilterType = { journal?: string[]; date?: string }]; the number of
    keys is the number of properties present. *)
Record FilterType := {
  journal : option (list string);
  date : option string }.

Definition keysLength (f : FilterType) : Z :=
  (if truthyOpt (journal f) then 1 else 0) + (if truthyOpt (date f) then 1 else 0).

Inductive Condition :=
| JournalCondition (or : list string)
| DateCondition (date : string).

(** [PCFilter = { $and?: Condition[] }]. *)
Record PCFilter := { pc_and : list Condition }.

Definition filterToPCQuery (filter : option FilterType) : option PCFilter :=
  match filter with
  | None => None
  | Some f =>
      if keysLength f =? 0 then None
      else
        let conditions :=
          ((match journal f with
            | Some js => [JournalCondition js]
            | None => []
            end) ++
           (match date f with
            | Some d => if truthyStr d then [DateCondition d] else []
            | None => []
            end))%list in
        if Z.of_nat (List.length conditions) >? 0
        then Some {| pc_and := conditions |} else None
  end.

Record Metadata := {
  md_doi : option string;
  md_date : Z;
  md_text : string;
  md_journal : string }.

Record PCMatch := { pc_metadata : option Metadata }.

(** An element of [unique_docs]. *)
Record Doc := {
  doc_id : string;
  doc_text : string;
  doc_journal : string;
  doc_date : string }.

Record DocListEntry := { content : string; source : string }.

Section Search.
Variable Embedding : Type.

Record QueryOptions := {
  vector : Embedding;
  topK : Z;
  includeMetadata : bool;
  includeValues : bool;
  qo_filter : option PCFilter }.

Variable embedQuery : string -> Embedding.
Variable pineconeQuery : QueryOptions -> list PCMatch.
(** [supabase.from('journals').select('doi, title, authors').in('doi',
    batch)] : [Some data] when [error] is falsy, [None] otherwise. *)
Variable journalsIn : list string -> option (list JournalData).
Variable formatTimestampToYearMonth : Z -> string.

(** [doi.slice(i, j)]. *)
Definition slice (i j : nat) (doi : list string) : list string :=
  firstn (j - i) (skipn i doi).

Definition batchSize : nat := 400.

(** The loop of [getMeta]: [for (let i = 0; i < doi.length; i +=
    batchSize)]; an erroring batch returns [null]. *)
Equations? getMetaLoop (doi : list string) (i : nat)
  (allData : list JournalData) : option (list JournalData)
  by wf (List.length doi - i)%nat lt :=
  getMetaLoop doi i allData with lt_dec i (List.length doi) := {
    | left _ with journalsIn (slice i (i + batchSize) doi) := {
        | None := None;
        | Some data := getMetaLoop doi (i + batchSize) (allData ++ data)%list };
    | right _ := Some allData }.
Proof. unfold batchSize. lia. Qed.

Definition getMeta (doi : list string) : option (list JournalData) :=
  getMetaLoop doi 0 [].

Definition buildQueryOptions (searchVector : Embedding) (k : Z)
           (filter : option FilterType) : QueryOptions :=
  let queryOptions :=
    {| vector := searchVector; topK := k;
       includeMetadata := true; includeValues := false;
       qo_filter := None |} in
  match filter with
  | Some f =>
      if keysLength f >? 0
      then {| vector := vector queryOptions; topK := topK queryOptions;
              includeMetadata := includeMetadata queryOptions;
              includeValues := includeValues queryOptions;
              qo_filter := filterToPCQuery filter |}
      else queryOptions
  | None => queryOptions
  end.

(** Lines 125-141: the documents kept from [pineconeResponse.matches]. *)
Definition uniqueDocs (matches : list PCMatch) : list Doc :=
  flat_map
    (fun doc =>
       match pc_metadata doc with
       | Some md =>
           match md_doi md with
           | Some id =>
               if truthyStr id
               then [{| doc_id := id;
                        doc_text := md_text md;
                        doc_journal := md_journal md;
                        doc_date := formatTimestampToYearMonth (md_date md) |}]
               else []
           | None => []
           end
       | None => []
       end) matches.

(** [Array.from(new Set(unique_docs.map(doc => doc.id)))]. *)
Definition uniqueIds (unique_docs : list Doc) : list string :=
  fold_left (fun s id => add id s) (map doc_id unique_docs) [].

(** [pgResponse?.find(r => r.doi === doc.id)]. *)
Definition findRecord (pgResponse : option (list JournalData)) (id : string)
  : option JournalData :=
  match pgResponse with
  | Some rs => find (fun r => String.eqb (doi r) id) rs
  | None => None
  end.

Definition entryOf (doc : Doc) (record : JournalData) : DocListEntry :=
  {| content := doc_text doc;
     source := "[" ++ title record ++ ", " ++ doc_journal doc ++ ". "
                 ++ join ", " (authors record) ++ ". " ++ doc_date doc
                 ++ ".](https://doi.org/" ++ doi record ++ ")" |}.

(** [unique_docs.map(doc => { ... throw new Error('Record not found') })]:
    the first document without a record aborts the whole [map]. *)
Fixpoint docList (pgResponse : option (list JournalData))
         (unique_docs : list Doc) : result (list DocListEntry) :=
  match unique_docs with
  | [] => Ok []
  | doc :: rest =>
      match findRecord pgResponse (doc_id doc) with
      | Some record =>
          match docList pgResponse rest with
          | Ok entries => Ok (entryOf doc record :: entries)
          | Throw e => Throw e
          end
      | None => Throw "Record not found"
      end
  end.

Definition search (semantic_query : string) (k : Z)
           (filter : option FilterType) : result (list DocListEntry) :=
  let searchVector := embedQuery semantic_query in
  let queryOptions := buildQueryOptions searchVector k filter in
  let pineconeResponse := pineconeQuery queryOptions in
  let unique_docs := uniqueDocs pineconeResponse in
  let pgResponse := getMeta (uniqueIds unique_docs) in
  docList pgResponse unique_docs.
End Search.

Arguments qo_filter {Embedding}.

(** *** [formatTimestampToYearMonth] (lines 57-62) *)

Section Dates.
Variables getFullYear getMonth : Z -> Z.

Definition formatTimestampToYearMonth (timestamp : Z) : string :=
  let date := timestamp * 1000 in
  let year := getFullYear date in
  let month := sliceLast 2 ("0" ++ toString (getMonth date + 1)) in
  toString year ++ "-" ++ month.
End Dates.

(** *** The request handler (lines 167-192) *)

Record RequestBody := {
  rb_query : string;
  rb_filter : option FilterType;
  rb_topK : option Z }.

(** [json] is what [await req.json()] gives: the parsed body, or the error
    that the parse throws. *)
Record Request := {
  method : string;
  h_email : option string;
  h_password : option string;
  json : result RequestBody }.

Section Handler.
(** Every awaited call of the handler returns or throws: the shared modules
    [supabase_auth.ts] and [generate_query.ts] (of whose result the handler
    reads [semantic_query] only), and the call of [search], which runs
    against an embedding model and stores that may throw as well.  The
    handler is modelled for every behaviour of these callees. *)
Variable AuthResponse : Type.
Variable status : AuthResponse -> Z.
Variable supabaseAuth : string -> string -> result AuthResponse.
Variable generateQuery : string -> result string.
Variable runSearch :
  string -> Z -> option FilterType -> result (list DocListEntry).

Inductive Response :=
| OkResponse
| AuthFailure (authResponse : AuthResponse)
| JsonResponse (result : list DocListEntry).

(** The handler: a response, or the error thrown on the way. *)
Definition handler (req : Request) : result Response :=
  if String.eqb (method req) "OPTIONS" then Ok OkResponse
  else
    match supabaseAuth (orElse (h_email req) "")
                       (orElse (h_password req) "") with
    | Throw e => Throw e
    | Ok authResponse =>
        if negb (status authResponse =? 200) then Ok (AuthFailure authResponse)
        else
          match json req with
          | Throw e => Throw e
          | Ok body =>
              let k := orElse (rb_topK body) 5 in
              match generateQuery (rb_query body) with
              | Throw e => Throw e
              | Ok semantic_query =>
                  match runSearch semantic_query k (rb_filter body) with
                  | Ok entries => Ok (JsonResponse entries)
                  | Throw e => Throw e
                  end
              end
          end
    end.
End Handler.

End SciSearch.

(* ===================================================================== *)
(** ** Facts about the JavaScript fragment *)
(* ===================================================================== *)

Module JSFacts.
Import JS.

Lemma append_assoc (a b c : string) : (a ++ b) ++ c = a ++ (b ++ c).
Proof. induction a as [|x a IH]; simpl; [reflexivity | now rewrite IH]. Qed.

Lemma append_empty_r (a : string) : a ++ "" = a.
Proof. induction a as [|x a IH]; simpl; [reflexivity | now rewrite IH]. Qed.

Lemma append_inv_head (p a b : string) : p ++ a = p ++ b -> a = b.
Proof.
  induction p as [|x p IH]; simpl; intros H; [assumption|].
  injection H as H. now apply IH.
Qed.

Lemma length_append (a b : string) :
  String.length (a ++ b) = (String.length a + String.length b)%nat.
Proof. induction a as [|x a IH]; simpl; [reflexivity | now rewrite IH]. Qed.

Lemma isDigit_underscore : isDigit "_" = false.
Proof. reflexivity. Qed.

(** A string with an underscore in it is not a run of digits. *)
Lemma allDigits_underscore (p r : string) :
  allDigits (p ++ String "_" r) = false.
Proof.
  induction p as [|c p IH]; simpl.
  - reflexivity.
  - rewrite IH. apply andb_false_r.
Qed.

(** The regular expression [/_(\d+)$/] matches [p_ds] at its last
    underscore and captures [ds]. *)
Lemma matchIndexSuffix_app (p ds : string) :
  ds <> "" -> allDigits ds = true ->
  matchIndexSuffix (p ++ String "_" ds) = Some ds.
Proof.
  intros Hne Hd. induction p as [|c p IH]; simpl.
  - destruct (String.eqb_spec ds ""); [contradiction|].
    rewrite Hd. reflexivity.
  - rewrite allDigits_underscore, andb_false_r. exact IH.
Qed.

(** Conversely a match exhibits that shape. *)
Lemma matchIndexSuffix_Some (id ds : string) :
  matchIndexSuffix id = Some ds ->
  exists p, id = p ++ String "_" ds /\ ds <> "" /\ allDigits ds = true.
Proof.
  induction id as [|c id IH]; simpl; [discriminate|].
  destruct (Ascii.eqb_spec c "_") as [->|Hc]; simpl.
  - destruct (String.eqb_spec id "") as [->|Hne]; simpl.
    + discriminate.
    + destruct (allDigits id) eqn:Hd.
      * intros [= <-]. exists "". auto.
      * intros H. destruct (IH H) as (p & -> & ? & ?).
        exists (String "_" p). auto.
  - intros H. destruct (IH H) as (p & -> & ? & ?).
    exists (String c p). auto.
Qed.

Lemma matchIndexSuffix_None (id : string) :
  matchIndexSuffix id = None <->
  (forall p ds, ds <> "" -> allDigits ds = true -> id <> p ++ String "_" ds).
Proof.
  split.
  - intros H p ds Hne Hd ->. rewrite matchIndexSuffix_app in H by assumption.
    discriminate.
  - intros H. destruct (matchIndexSuffix id) as [ds|] eqn:E; [|reflexivity].
    apply matchIndexSuffix_Some in E. destruct E as (p & -> & Hne & Hd).
    exfalso. exact (H p ds Hne Hd eq_refl).
Qed.

Lemma lastIndexOf_digits (ds : string) :
  allDigits ds = true -> lastIndexOf "_" ds = -1.
Proof.
  induction ds as [|c ds IH]; simpl; [reflexivity|].
  intros H. apply andb_prop in H. destruct H as [Hc Hd].
  rewrite (IH Hd). simpl.
  destruct (Ascii.eqb_spec c "_") as [->|]; [discriminate | reflexivity].
Qed.

Lemma lastIndexOf_app (p ds : string) :
  allDigits ds = true ->
  lastIndexOf "_" (p ++ String "_" ds) = Z.of_nat (String.length p).
Proof.
  intros Hd. induction p as [|c p IH].
  - simpl. rewrite (lastIndexOf_digits _ Hd). reflexivity.
  - cbn [append lastIndexOf String.length]. rewrite IH.
    destruct (Z.leb_spec 0 (Z.of_nat (String.length p))); lia.
Qed.

Lemma substring_prefix (s t : string) :
  String.substring 0 (String.length s) (s ++ t) = s.
Proof.
  induction s as [|c s IH]; simpl.
  - destruct t; reflexivity.
  - now rewrite IH.
Qed.

(** [id.substring(0, id.lastIndexOf('_') + 1)] of [p_ds] is [p_]. *)
Lemma prefix_app (p ds : string) :
  allDigits ds = true ->
  substring0 (lastIndexOf "_" (p ++ String "_" ds) + 1) (p ++ String "_" ds)
  = p ++ "_".
Proof.
  intros Hd. unfold substring0. rewrite (lastIndexOf_app _ _ Hd).
  replace (Z.to_nat (Z.of_nat (String.length p) + 1))
    with (String.length (p ++ "_")).
  - replace (p ++ String "_" ds) with ((p ++ "_") ++ ds).
    + apply substring_prefix.
    + rewrite append_assoc. reflexivity.
  - rewrite length_append. simpl. lia.
Qed.

Lemma digitValue_nonneg (c : ascii) : isDigit c = true -> 0 <= digitValue c <= 9.
Proof.
  unfold isDigit, digitValue. intros H. apply andb_prop in H.
  destruct H as [H1 H2].
  apply Nat.leb_le in H1. apply Nat.leb_le in H2. lia.
Qed.

Lemma parseDigits_nonneg (s : string) (acc : Z) :
  0 <= acc -> 0 <= parseDigits acc s.
Proof.
  revert acc. induction s as [|c s IH]; cbn [parseDigits]; intros acc Hacc;
    [assumption|].
  destruct (isDigit c) eqn:Hc; [|assumption].
  apply IH. pose proof (digitValue_nonneg c Hc). lia.
Qed.

(** *** Exact numbers *)

Lemma maxExact_pow : maxExact = 2 ^ 53.
Proof. reflexivity. Qed.

Lemma exact_Some (z n : Z) :
  exact z = Some n <-> n = z /\ Z.abs z <= maxExact.
Proof.
  unfold exact. destruct (Z.leb_spec (Z.abs z) maxExact); split.
  - intros [= <-]. auto.
  - intros [-> _]. reflexivity.
  - discriminate.
  - intros [_ H']. lia.
Qed.

Lemma exact_None (z : Z) : exact z = None <-> maxExact < Z.abs z.
Proof.
  unfold exact. destruct (Z.leb_spec (Z.abs z) maxExact); split;
    (discriminate || lia || reflexivity).
Qed.

Lemma exact_in_range (z : Z) : Z.abs z <= maxExact -> exact z = Some z.
Proof. intros H. apply exact_Some. auto. Qed.

(** [parseInt] gives the integer that the digits denote when it is at most
    2^53, and an undetermined double otherwise. *)
Lemma parseInt_Some (s : string) (n : Z) :
  parseInt s = Some n <-> n = parseDigits 0 s /\ parseDigits 0 s <= maxExact.
Proof.
  unfold parseInt. rewrite exact_Some.
  pose proof (parseDigits_nonneg s 0 ltac:(lia)). split; intros [-> ?]; split; lia.
Qed.

Lemma parseInt_nonneg (s : string) (n : Z) : parseInt s = Some n -> 0 <= n.
Proof.
  intros H. apply parseInt_Some in H. destruct H as [-> _].
  apply parseDigits_nonneg. lia.
Qed.

(** Distinct integers print differently. *)
Lemma toString_inj (a b : Z) : toString a = toString b -> a = b.
Proof.
  unfold toString. intros H.
  assert (Hnn : forall z, Z.to_int z <> Decimal.Pos Decimal.Nil /\
                          Z.to_int z <> Decimal.Neg Decimal.Nil).
  { intros [|p|p]; simpl; split; try discriminate;
      intros [= E]; exact (DecimalPos.Unsigned.to_uint_nonnil p E). }
  assert (E : Some (Z.to_int a) = Some (Z.to_int b)).
  { rewrite <- (NilZero.isi (Z.to_int a)) by apply Hnn.
    rewrite <- (NilZero.isi (Z.to_int b)) by apply Hnn.
    now rewrite H. }
  injection E as E. now apply DecimalZ.to_int_inj.
Qed.

(** *** Printing and parsing an index *)

Lemma parseDigits_digit (c : ascii) (s : string) (acc : Z) :
  isDigit c = true ->
  parseDigits acc (String c s) = parseDigits (10 * acc + digitValue c) s.
Proof. intros H. cbn [parseDigits]. now rewrite H. Qed.

Ltac digit_step IH :=
  rewrite parseDigits_digit by reflexivity;
  rewrite <- IH; f_equal;
  match goal with
  | |- context [digitValue ?c] =>
      let v := eval vm_compute in (digitValue c) in
      change (digitValue c) with v
  end; lia.

Lemma parseDigits_uint_acc (d : Decimal.uint) :
  forall acc : positive,
    parseDigits (Z.pos acc) (NilEmpty.string_of_uint d)
    = Z.pos (Pos.of_uint_acc d acc).
Proof.
  induction d as [|d IH|d IH|d IH|d IH|d IH|d IH|d IH|d IH|d IH|d IH];
    intros acc; cbn [NilEmpty.string_of_uint Pos.of_uint_acc];
    [reflexivity | digit_step IH ..].
Qed.

Lemma parseDigits_uint (d : Decimal.uint) :
  parseDigits 0 (NilEmpty.string_of_uint d) = Z.of_N (Pos.of_uint d).
Proof.
  induction d as [|d IH|d IH|d IH|d IH|d IH|d IH|d IH|d IH|d IH|d IH];
    cbn [NilEmpty.string_of_uint Pos.of_uint];
    [reflexivity | | ..];
    rewrite parseDigits_digit by reflexivity;
    [exact IH | apply parseDigits_uint_acc ..].
Qed.

Lemma allDigits_uint (d : Decimal.uint) :
  allDigits (NilEmpty.string_of_uint d) = true.
Proof. induction d; simpl; auto. Qed.

(** A non-negative integer prints as a non-empty run of digits that denote
    it. *)
Lemma toString_digits (n : Z) :
  0 <= n ->
  toString n <> "" /\ allDigits (toString n) = true /\
  parseDigits 0 (toString n) = n.
Proof.
  intros Hn. destruct n as [|q|q]; [repeat split; discriminate | | lia].
  unfold toString. simpl Z.to_int. cbn [NilZero.string_of_int].
  pose proof (DecimalPos.Unsigned.to_uint_nonnil q) as Hnn.
  assert (E : NilZero.string_of_uint (Pos.to_uint q)
              = NilEmpty.string_of_uint (Pos.to_uint q)).
  { unfold NilZero.string_of_uint. destruct (Pos.to_uint q); congruence. }
  rewrite E. split; [|split].
  - destruct (Pos.to_uint q); simpl; congruence.
  - apply allDigits_uint.
  - rewrite parseDigits_uint, DecimalPos.Unsigned.of_to. reflexivity.
Qed.

(** [parseInt] reads back the printed form of an integer of the exact
    range. *)
Lemma parseInt_toString (n : Z) :
  0 <= n <= maxExact -> parseInt (toString n) = Some n.
Proof.
  intros Hn. apply parseInt_Some.
  destruct (toString_digits n) as (_ & _ & E); [lia|]. rewrite E. lia.
Qed.

(** *** Sets *)

Lemma has_In (x : string) (s : StrSet) : has x s = true <-> In x s.
Proof.
  unfold has. rewrite existsb_exists. split.
  - intros (y & Hy & E). apply String.eqb_eq in E. now subst.
  - intros H. exists x. split; [assumption | apply String.eqb_refl].
Qed.

Lemma has_false (x : string) (s : StrSet) : has x s = false <-> ~ In x s.
Proof.
  rewrite <- has_In. destruct (has x s); split; intros; congruence.
Qed.

Lemma In_add (x y : string) (s : StrSet) : In y (add x s) <-> y = x \/ In y s.
Proof.
  unfold add. destruct (has x s) eqn:E.
  - apply has_In in E. split; [auto | intros [->|]; auto].
  - rewrite in_app_iff. simpl. split; intros H; intuition congruence.
Qed.

Lemma In_delete (x y : string) (s : StrSet) :
  In y (delete x s) <-> In y s /\ y <> x.
Proof.
  unfold delete. rewrite filter_In.
  destruct (String.eqb_spec x y); simpl; split; intros [? ?]; split;
    congruence || auto.
Qed.

Lemma NoDup_add (x : string) (s : StrSet) : NoDup s -> NoDup (add x s).
Proof.
  intros H. unfold add. destruct (has x s) eqn:E; [assumption|].
  apply has_false in E.
  apply NoDup_rev in H. rewrite <- (rev_involutive (s ++ [x])).
  apply NoDup_rev. rewrite rev_app_distr. simpl. constructor.
  - now rewrite <- in_rev.
  - assumption.
Qed.

(** Adding pairwise distinct fresh elements appends them in order. *)
Lemma fold_add_fresh (l : list string) (acc : StrSet) :
  NoDup l -> (forall x, In x l -> ~ In x acc) ->
  fold_left (fun s x => add x s) l acc = (acc ++ l)%list.
Proof.
  revert acc. induction l as [|x l IH]; intros acc Hnd Hfresh; simpl.
  - now rewrite app_nil_r.
  - inversion Hnd as [|? ? Hx Hl]; subst.
    assert (E : add x acc = (acc ++ [x])%list).
    { unfold add. destruct (has x acc) eqn:Hh; [|reflexivity].
      apply has_In in Hh. exfalso. apply (Hfresh x); simpl; auto. }
    rewrite E, IH.
    + rewrite <- app_assoc. reflexivity.
    + assumption.
    + intros y Hy Hin. apply in_app_iff in Hin. destruct Hin as [Hin|[->|[]]].
      * apply (Hfresh y); simpl; auto.
      * contradiction.
Qed.

End JSFacts.

(* ===================================================================== *)
(** ** Properties of textbook_search *)
(* ===================================================================== *)

Module TextbookFacts.
Import JS JSFacts TextbookSearch.

(** *** [getIdRange] *)

Lemma idRangeLoop_step (p : string) (i hi : Z) (acc : StrSet) :
  i <= hi -> i < maxExact ->
  idRangeLoop p i hi acc = idRangeLoop p (i + 1) hi (add (p ++ toString i) acc).
Proof.
  intros H H'. rewrite idRangeLoop_equation_1.
  destruct (Z_le_gt_dec i hi); [|lia]. simpl.
  destruct (Z_lt_ge_dec i maxExact); [reflexivity | lia].
Qed.

Lemma idRangeLoop_stuck (p : string) (i hi : Z) (acc : StrSet) :
  i <= hi -> maxExact <= i -> idRangeLoop p i hi acc = Hangs.
Proof.
  intros H H'. rewrite idRangeLoop_equation_1.
  destruct (Z_le_gt_dec i hi); [|lia]. simpl.
  destruct (Z_lt_ge_dec i maxExact); [lia | reflexivity].
Qed.

Lemma idRangeLoop_exit (p : string) (i hi : Z) (acc : StrSet) :
  hi < i -> idRangeLoop p i hi acc = Returns acc.
Proof.
  intros H. rewrite idRangeLoop_equation_1.
  destruct (Z_le_gt_dec i hi); [lia | reflexivity].
Qed.

(** With an upper bound below 2^53 the loop returns: it has added the ids
    of the indices [i, i+1, .., hi] in that order. *)
Lemma idRangeLoop_fold (p : string) (n : nat) :
  forall (i hi : Z) (acc : StrSet),
    hi < maxExact \/ hi < i ->
    Z.to_nat (hi + 1 - i) = n ->
    idRangeLoop p i hi acc =
    Returns (fold_left (fun s x => add x s)
               (map (fun m => p ++ toString (i + Z.of_nat m)) (seq 0 n)) acc).
Proof.
  induction n as [|n IH]; intros i hi acc Hhi Hn.
  - simpl. apply idRangeLoop_exit. lia.
  - rewrite idRangeLoop_step by lia.
    rewrite (IH (i + 1) hi) by lia.
    cbn [seq map fold_left]. rewrite Z.add_0_r.
    rewrite <- seq_shift, map_map. do 2 f_equal.
    apply map_ext. intros m. do 2 f_equal. lia.
Qed.

(** With an upper bound of 2^53 or more, a loop that is entered is never
    left. *)
Lemma idRangeLoop_hangs (p : string) (hi : Z) (n : nat) :
  forall (i : Z) (acc : StrSet),
    Z.to_nat (maxExact - i) = n -> i <= hi -> maxExact <= hi ->
    idRangeLoop p i hi acc = Hangs.
Proof.
  induction n as [|n IH]; intros i acc Hn Hi Hhi.
  - apply idRangeLoop_stuck; lia.
  - rewrite idRangeLoop_step by lia. apply IH; lia.
Qed.

(** The iterations themselves: once the counter passes the test with an
    upper bound of 2^53 or more, no number of iterations ends the loop. *)
Lemma idRangeSteps_never (p : string) (hi : Z) (fuel : nat) :
  forall (i : Z) (acc : StrSet),
    i <= hi -> maxExact <= hi -> idRangeSteps fuel p i hi acc = None.
Proof.
  induction fuel as [|fuel IH]; intros i acc Hi Hhi; cbn [idRangeSteps].
  - reflexivity.
  - destruct (Z.leb_spec i hi); [|lia].
    apply IH; [|assumption]. unfold increment.
    destruct (Z.ltb_spec i maxExact); lia.
Qed.

Lemma idRangeSteps_enough (p : string) (n : nat) :
  forall (i hi : Z) (acc : StrSet),
    hi < maxExact \/ hi < i ->
    Z.to_nat (hi + 1 - i) = n ->
    idRangeSteps (S n) p i hi acc =
    Some (fold_left (fun s x => add x s)
            (map (fun m => p ++ toString (i + Z.of_nat m)) (seq 0 n)) acc).
Proof.
  induction n as [|n IH]; intros i hi acc Hhi Hn.
  - cbn [idRangeSteps]. destruct (Z.leb_spec i hi); [lia | reflexivity].
  - cbn [idRangeSteps] in *. destruct (Z.leb_spec i hi); [|lia].
    assert (E : increment i = i + 1).
    { unfold increment. destruct (Z.ltb_spec i maxExact); lia. }
    rewrite E. specialize (IH (i + 1) hi (add (p ++ toString i) acc)).
    cbn [idRangeSteps] in IH. rewrite IH by lia.
    cbn [seq map fold_left]. rewrite Z.add_0_r.
    rewrite <- seq_shift, map_map. do 2 f_equal.
    apply map_ext. intros m. do 2 f_equal. lia.
Qed.

Lemma idRangeSteps_deterministic (p : string) (hi : Z) (fuel : nat) :
  forall (fuel' : nat) (i : Z) (acc r r' : StrSet),
    idRangeSteps fuel p i hi acc = Some r ->
    idRangeSteps fuel' p i hi acc = Some r' -> r = r'.
Proof.
  induction fuel as [|fuel IH]; intros fuel' i acc r r'; cbn [idRangeSteps];
    [discriminate|].
  destruct fuel' as [|fuel']; cbn [idRangeSteps]; [discriminate|].
  destruct (i <=? hi).
  - apply IH.
  - congruence.
Qed.

(** [idRangeLoop] is the outcome of the iterations: it returns what they
    return when some number of them ends the loop, and it is [Hangs] when
    none does. *)
Lemma idRangeLoop_steps (p : string) (i hi : Z) (acc : StrSet) :
  match idRangeLoop p i hi acc with
  | Returns r =>
      (exists fuel, idRangeSteps fuel p i hi acc = Some r) /\
      (forall fuel r', idRangeSteps fuel p i hi acc = Some r' -> r' = r)
  | Hangs => forall fuel, idRangeSteps fuel p i hi acc = None
  | Inexact => False
  end.
Proof.
  destruct (Z_lt_ge_dec hi maxExact) as [Hlt|Hge];
    [|destruct (Z_le_gt_dec i hi) as [Hle|Hgt]].
  - rewrite (idRangeLoop_fold p _ i hi acc (or_introl Hlt) eq_refl).
    pose proof (idRangeSteps_enough p _ i hi acc (or_introl Hlt) eq_refl) as E.
    split; [eexists; exact E|].
    intros fuel r' E'. exact (idRangeSteps_deterministic _ _ _ _ _ _ _ _ E' E).
  - rewrite (idRangeLoop_hangs p hi _ i acc eq_refl) by lia.
    intros fuel. apply idRangeSteps_never; lia.
  - assert (Hor : hi < maxExact \/ hi < i) by lia.
    rewrite (idRangeLoop_fold p _ i hi acc Hor eq_refl).
    pose proof (idRangeSteps_enough p _ i hi acc Hor eq_refl) as E.
    split; [eexists; exact E|].
    intros fuel r' E'. exact (idRangeSteps_deterministic _ _ _ _ _ _ _ _ E' E).
Qed.

Lemma NoDup_map_inj {A B} (f : A -> B) (l : list A) :
  (forall x y, f x = f y -> x = y) -> NoDup l -> NoDup (map f l).
Proof.
  intros Hf. induction 1 as [|x l Hx Hl IH]; simpl; constructor.
  - rewrite in_map_iff. intros (y & E & Hy). apply Hf in E. now subst.
  - assumption.
Qed.

Lemma In_windowIds (p : string) (N k : Z) (c : string) :
  In c (windowIds p N k) <->
  exists j : Z, Z.max 0 (N - k) <= j <= N + k /\ c = p ++ "_" ++ toString j.
Proof.
  unfold windowIds. rewrite in_map_iff. split.
  - intros (m & <- & Hm). apply in_seq in Hm.
    exists (Z.max 0 (N - k) + Z.of_nat m). split; [lia | reflexivity].
  - intros (j & Hj & ->).
    exists (Z.to_nat (j - Z.max 0 (N - k))). split.
    + do 3 f_equal. lia.
    + apply in_seq. lia.
Qed.

Lemma NoDup_windowIds (p : string) (N k : Z) : NoDup (windowIds p N k).
Proof.
  apply NoDup_map_inj; [|apply seq_NoDup].
  intros x y E. apply append_inv_head in E.
  injection E as E. apply toString_inj in E. lia.
Qed.

(** What [getIdRange] does on an id [p_ds], by the integer [N] that the
    digits denote: the window when [N + k] is below 2^53 (or the loop is
    not entered), no return when the loop is entered with [N + k = 2^53],
    and a rounded number in every other case. *)
Lemma getIdRange_cases (p ds : string) (k : Z) :
  ds <> "" -> allDigits ds = true ->
  getIdRange (p ++ "_" ++ ds) k =
  match parseInt ds with
  | Some N =>
      if ((Z.abs (N - k) <=? maxExact) && (Z.abs (N + k) <=? maxExact))%bool
      then if ((N + k <? maxExact) || (N + k <? Z.max 0 (N - k)))%bool
           then Returns (windowIds p N k)
           else Hangs
      else Inexact
  | None => Inexact
  end.
Proof.
  intros Hne Hd. unfold getIdRange.
  change (p ++ "_" ++ ds) with (p ++ String "_" ds).
  rewrite (matchIndexSuffix_app _ _ Hne Hd), (prefix_app _ _ Hd).
  destruct (parseInt ds) as [N|]; [|reflexivity].
  unfold exact.
  destruct (Z.leb_spec (Z.abs (N - k)) maxExact) as [Hlo|Hlo];
    [|reflexivity].
  destruct (Z.leb_spec (Z.abs (N + k)) maxExact) as [Hhi|Hhi];
    [|reflexivity].
  cbn [andb].
  destruct (Z.ltb_spec (N + k) maxExact) as [H1|H1]; cbn [orb].
  - rewrite (idRangeLoop_fold _ _ _ _ _ (or_introl H1) eq_refl).
    rewrite fold_add_fresh.
    + f_equal. simpl. unfold windowIds. apply map_ext. intros m.
      now rewrite append_assoc.
    + apply NoDup_map_inj; [|apply seq_NoDup].
      intros x y E. apply append_inv_head in E. apply toString_inj in E. lia.
    + intros x _ [].
  - destruct (Z.ltb_spec (N + k) (Z.max 0 (N - k))) as [H2|H2].
    + rewrite (idRangeLoop_fold _ _ _ _ _ (or_intror H2) eq_refl).
      replace (Z.to_nat (N + k + 1 - Z.max 0 (N - k))) with 0%nat by lia.
      unfold windowIds.
      replace (Z.to_nat (N + k + 1 - Z.max 0 (N - k))) with 0%nat by lia.
      reflexivity.
    + apply (idRangeLoop_hangs _ _ _ _ _ eq_refl); lia.
Qed.

(** On an id [p_ds] whose digits denote [N], with [N + k] below 2^53, the
    window, as the [Set] iterates it. *)
Lemma getIdRange_app (p ds : string) (N k : Z) :
  ds <> "" -> allDigits ds = true -> parseInt ds = Some N ->
  0 <= k -> N + k < maxExact ->
  getIdRange (p ++ "_" ++ ds) k = Returns (windowIds p N k).
Proof.
  intros Hne Hd HN Hk Hb. rewrite (getIdRange_cases _ _ _ Hne Hd), HN.
  pose proof (parseInt_nonneg _ _ HN) as H0.
  destruct (Z.leb_spec (Z.abs (N - k)) maxExact); [|unfold maxExact in *; lia].
  destruct (Z.leb_spec (Z.abs (N + k)) maxExact); [|lia].
  destruct (Z.ltb_spec (N + k) maxExact); [reflexivity | lia].
Qed.

(** Every window that [getIdRange] returns on an id with an index suffix
    is of that form. *)
Lemma getIdRange_Returns (id : string) (k : Z) (w : StrSet) :
  getIdRange id k = Returns w ->
  (matchIndexSuffix id = None /\ w = []) \/
  exists (p ds : string) (N : Z),
    id = p ++ "_" ++ ds /\ ds <> "" /\ allDigits ds = true /\
    parseInt ds = Some N /\ Z.abs (N + k) <= maxExact /\
    (N + k < maxExact \/ N + k < Z.max 0 (N - k)) /\
    w = windowIds p N k.
Proof.
  intros H. destruct (matchIndexSuffix id) as [ds|] eqn:E.
  - right. apply matchIndexSuffix_Some in E. destruct E as (p & -> & Hne & Hd).
    change (p ++ String "_" ds) with (p ++ "_" ++ ds) in *.
    rewrite (getIdRange_cases _ _ _ Hne Hd) in H.
    destruct (parseInt ds) as [N|] eqn:HN; [|discriminate].
    destruct (Z.leb_spec (Z.abs (N - k)) maxExact); [|discriminate].
    destruct (Z.leb_spec (Z.abs (N + k)) maxExact); [|discriminate].
    cbn [andb] in H.
    destruct (Z.ltb_spec (N + k) maxExact);
      destruct (Z.ltb_spec (N + k) (Z.max 0 (N - k)));
      cbn [orb] in H; try discriminate;
      injection H as <-; exists p, ds, N; repeat split; auto; lia.
  - left. unfold getIdRange in H. rewrite E in H. injection H as <-. auto.
Qed.

Lemma getIdRange_no_suffix (id : string) (k : Z) :
  matchIndexSuffix id = None -> getIdRange id k = Returns [].
Proof. intros H. unfold getIdRange. now rewrite H. Qed.

(** C4, as stated, fails: with [extK = 0] the loop of [getIdRange] runs
    once, for [i = baseId], and the call returns the chunk id itself. *)
Lemma getIdRange_zero_nonempty :
  ~ (forall id : string, getIdRange id 0 = Returns []).
Proof.
  intros H. specialize (H "doc123_5"). vm_compute in H. discriminate H.
Qed.

(** Nor does every call return: on the index 2^53 the loop is entered with
    a counter that [i++] leaves unchanged. *)
Lemma getIdRange_zero_hangs :
  getIdRange "doc123_9007199254740992" 0 = Hangs /\
  forall fuel : nat,
    idRangeSteps fuel "doc123_" 9007199254740992 9007199254740992 [] = None.
Proof.
  split.
  - change "doc123_9007199254740992"
      with ("doc123" ++ "_" ++ "9007199254740992").
    rewrite getIdRange_cases; [reflexivity | discriminate | reflexivity].
  - intros fuel. apply idRangeSteps_never; unfold maxExact; lia.
Qed.

(** C4 (amended): at [k = 0], on a chunk id [p_ds] whose digits [ds]
    denote an index [N] below 2^53, [getIdRange] returns the one id [p_N]
    (so the chunk id itself on [p_N], [0 <= N < 2^53]), and on an id
    without an index suffix it returns the empty set.  An expansion with
    [extK = 0] is ruled out by the test [extK > 0] of [search], which then
    makes no request. *)
Theorem getIdRange_zero :
  (forall (p ds : string) (N : Z),
      ds <> "" -> allDigits ds = true ->
      parseInt ds = Some N -> N < maxExact ->
      getIdRange (p ++ "_" ++ ds) 0 = Returns [p ++ "_" ++ toString N]) /\
  (forall (p : string) (N : Z),
      0 <= N < maxExact ->
      getIdRange (p ++ "_" ++ toString N) 0
      = Returns [p ++ "_" ++ toString N]) /\
  (forall id : string,
      (forall p ds, ds <> "" -> allDigits ds = true -> id <> p ++ "_" ++ ds) ->
      getIdRange id 0 = Returns []) /\
  (forall id_set : StrSet, expansionRequest id_set 0 = Returns None).
Proof.
  assert (Hone : forall (p ds : string) (N : Z),
             ds <> "" -> allDigits ds = true ->
             parseInt ds = Some N -> N < maxExact ->
             getIdRange (p ++ "_" ++ ds) 0
             = Returns [p ++ "_" ++ toString N]).
  { intros p ds N Hne Hd HN Hb.
    rewrite (getIdRange_app _ _ N 0 Hne Hd HN) by lia.
    pose proof (parseInt_nonneg _ _ HN) as Hn. unfold windowIds.
    replace (Z.to_nat (N + 0 + 1 - Z.max 0 (N - 0))) with 1%nat by lia.
    cbn [seq map].
    replace (Z.max 0 (N - 0) + Z.of_nat 0) with N by lia.
    reflexivity. }
  split; [exact Hone | split; [|split]].
  - intros p N HN. destruct (toString_digits N) as (Hne & Hd & _); [lia|].
    apply (Hone p (toString N) N Hne Hd); [|lia].
    apply parseInt_toString. lia.
  - intros id H. apply getIdRange_no_suffix.
    apply matchIndexSuffix_None. exact H.
  - reflexivity.
Qed.

Lemma getIdRange_zero_witness :
  getIdRange "doc123_5" 0 = Returns ["doc123_5"] /\
  getIdRange "doc123" 0 = Returns [].
Proof.
  split.
  - apply (proj1 getIdRange_zero "doc123" "5" 5);
      [discriminate | reflexivity | reflexivity | reflexivity].
  - apply (proj1 (proj2 (proj2 getIdRange_zero)) "doc123").
    intros p ds Hne Hd E.
    assert (H : matchIndexSuffix "doc123" = Some ds).
    { rewrite E. apply matchIndexSuffix_app; assumption. }
    vm_compute in H. discriminate H.
Defined.

(** C5, as stated for every [N] and [k], fails: on the index [2^53 - 1]
    with [k = 1] the upper bound of the loop is 2^53, the counter reaches
    it and [i++] leaves it there, so the call returns no window at all. *)
Lemma getIdRange_window_hangs :
  getIdRange "doc123_9007199254740991" 1 = Hangs /\
  getIdRange "doc123_9007199254740991" 1
  <> Returns ["doc123_9007199254740990"; "doc123_9007199254740991";
              "doc123_9007199254740992"] /\
  forall fuel : nat,
    idRangeSteps fuel "doc123_" 9007199254740990 9007199254740992 [] = None.
Proof.
  assert (E : getIdRange "doc123_9007199254740991" 1 = Hangs).
  { change "doc123_9007199254740991"
      with ("doc123" ++ "_" ++ "9007199254740991").
    rewrite getIdRange_cases; [reflexivity | discriminate | reflexivity]. }
  split; [exact E | split].
  - rewrite E. discriminate.
  - intros fuel. apply idRangeSteps_never; unfold maxExact; lia.
Qed.

(** C5 (amended): for a chunk id [p_ds] whose digits denote [N], and
    [k > 0] with [N + k] below 2^53, [getIdRange] returns exactly the ids
    [p_j] for [max(0, N-k) <= j <= N+k], each once; so it does for the
    chunk id [p_N] of every integer [N >= 0] with [N + k < 2^53]; the two
    windows of the spec. *)
Theorem getIdRange_window :
  (forall (p ds : string) (N k : Z),
      ds <> "" -> allDigits ds = true -> parseInt ds = Some N ->
      k > 0 -> N + k < maxExact ->
      exists w : StrSet,
        getIdRange (p ++ "_" ++ ds) k = Returns w /\
        NoDup w /\
        forall c : string,
          In c w <->
          exists j : Z,
            Z.max 0 (N - k) <= j <= N + k /\ c = p ++ "_" ++ toString j) /\
  (forall (p : string) (N k : Z),
      0 <= N -> k > 0 -> N + k < maxExact ->
      exists w : StrSet,
        getIdRange (p ++ "_" ++ toString N) k = Returns w /\
        NoDup w /\
        forall c : string,
          In c w <->
          exists j : Z,
            Z.max 0 (N - k) <= j <= N + k /\ c = p ++ "_" ++ toString j) /\
  getIdRange "doc123_5" 1 = Returns ["doc123_4"; "doc123_5"; "doc123_6"] /\
  getIdRange "doc123_0" 2 = Returns ["doc123_0"; "doc123_1"; "doc123_2"].
Proof.
  assert (Hgen : forall (p ds : string) (N k : Z),
             ds <> "" -> allDigits ds = true -> parseInt ds = Some N ->
             k > 0 -> N + k < maxExact ->
             exists w : StrSet,
               getIdRange (p ++ "_" ++ ds) k = Returns w /\
               NoDup w /\
               forall c : string,
                 In c w <->
                 exists j : Z,
                   Z.max 0 (N - k) <= j <= N + k /\
                   c = p ++ "_" ++ toString j).
  { intros p ds N k Hne Hd HN Hk Hb. exists (windowIds p N k).
    split; [apply getIdRange_app; (assumption || lia) | split].
    - apply NoDup_windowIds.
    - intros c. apply In_windowIds. }
  split; [exact Hgen | split; [|split; reflexivity]].
  intros p N k HN Hk Hb.
  destruct (toString_digits N HN) as (Hne & Hd & _).
  apply Hgen; try assumption. apply parseInt_toString. lia.
Qed.

Lemma getIdRange_window_witness :
  exists w : StrSet,
    getIdRange "doc123_5" 1 = Returns w /\
    NoDup w /\
    (In "doc123_6" w <->
     exists j : Z,
       Z.max 0 (5 - 1) <= j <= 5 + 1 /\ "doc123_6" = "doc123" ++ "_" ++ toString j).
Proof.
  destruct (proj1 getIdRange_window "doc123" "5" 5 1) as (w & E & Hnd & Hin);
    [discriminate | reflexivity | reflexivity | lia | reflexivity |].
  exists w. split; [exact E | split; [exact Hnd | exact (Hin "doc123_6")]].
Defined.

(** *** The two queries *)

(** C1 on the code: called without [filter] and without [datefilter],
    [search] sends the keyword store a [bool] query whose [filter] is the
    empty array, and sends the vector store [filter: { $and: [] }].  The
    tests [filters ? .. : ..] and [if (filters)] are on an array, which is
    truthy also when empty. *)
Theorem search_without_filters_sends_empty_filter :
  forall (Embedding : Type) (searchVector : Embedding)
         (full_text_query : list string) (k : Z),
    os_filter (query (buildBody full_text_query k (buildFilters None None)))
    = Some [] /\
    qo_filter (buildQueryOptions searchVector k (buildFilters None None))
    = Some {| pc_and := [] |}.
Proof. intros. split; reflexivity. Qed.

(** Whatever the caller passes, both queries carry a filter. *)
Lemma search_always_sends_filter :
  forall (Embedding : Type) (searchVector : Embedding)
         (full_text_query : list string) (k : Z)
         (filter : option FilterType) (datefilter : option DateFilterType),
    os_filter (query (buildBody full_text_query k (buildFilters filter datefilter)))
    <> None /\
    qo_filter (buildQueryOptions searchVector k (buildFilters filter datefilter))
    <> None.
Proof. intros. split; discriminate. Qed.

(** *** Filter translation *)

Lemma truthyBound_Some (b : option Z) (v : Z) :
  truthyBound b = Some v <-> b = Some v /\ v <> 0.
Proof.
  unfold truthyBound, truthyNum. destruct b as [w|].
  - destruct (Z.eqb_spec w 0); simpl; split.
    + discriminate.
    + intros [[= ->] H]. contradiction.
    + intros [= ->]. auto.
    + intros [[= ->] _]. reflexivity.
  - split; [discriminate | intros [[=] _]].
Qed.

Lemma In_itemConditions_range (item : FiltersItem) (r : DateFilterType)
      (field : string) (b : RangeBound) :
  range item = Some r -> In (field, b) r ->
  In (field, {| pc_in := None;
                pc_gte := truthyBound (gte b);
                pc_lte := truthyBound (lte b) |}) (itemConditions item).
Proof.
  intros Hr Hin. unfold itemConditions. rewrite Hr.
  apply in_or_app. right. unfold rangeConditions.
  apply in_map_iff. exists (field, b). auto.
Qed.

(** C9: every field of a range filter is translated to one vector-store
    condition that has [$gte] (resp. [$lte]) exactly when the canonical
    bound is present and is not zero; a bound of [0] is dropped. *)
Theorem filterToPCQuery_drops_zero_bound :
  forall (filters : FiltersType) (item : FiltersItem) (r : DateFilterType)
         (field : string) (b : RangeBound),
    In item filters -> range item = Some r -> In (field, b) r ->
    exists c : PCCondition,
      In (field, c) (pc_and (filterToPCQuery filters)) /\
      pc_in c = None /\
      (forall v, pc_gte c = Some v <-> gte b = Some v /\ v <> 0) /\
      (forall v, pc_lte c = Some v <-> lte b = Some v /\ v <> 0) /\
      (gte b = Some 0 -> pc_gte c = None) /\
      (lte b = Some 0 -> pc_lte c = None).
Proof.
  intros filters item r field b Hitem Hr Hin.
  exists {| pc_in := None;
            pc_gte := truthyBound (gte b);
            pc_lte := truthyBound (lte b) |}.
  split; [|split; [reflexivity|]].
  - unfold filterToPCQuery. simpl. apply in_flat_map.
    exists item. split; [assumption|].
    now apply In_itemConditions_range with (r := r).
  - simpl.
    split; [intros v; apply truthyBound_Some|].
    split; [intros v; apply truthyBound_Some|].
    split; intros ->; reflexivity.
Qed.

Lemma filterToPCQuery_drops_zero_bound_witness :
  exists c : PCCondition,
    In ("publication_date", c)
       (pc_and (filterToPCQuery
                  (buildFilters None
                     (Some [("publication_date",
                             {| gte := Some 0; lte := Some 1700000000 |})])))) /\
    pc_gte c = None /\ pc_lte c = Some 1700000000.
Proof.
  destruct (filterToPCQuery_drops_zero_bound
              (buildFilters None
                 (Some [("publication_date",
                         {| gte := Some 0; lte := Some 1700000000 |})]))
              {| terms := None;
                 range := Some [("publication_date",
                                 {| gte := Some 0; lte := Some 1700000000 |})] |}
              [("publication_date", {| gte := Some 0; lte := Some 1700000000 |})]
              "publication_date"
              {| gte := Some 0; lte := Some 1700000000 |}
              (or_introl eq_refl) eq_refl (or_introl eq_refl))
    as (c & Hin & _ & _ & Hlte & Hgte & _).
  exists c. split; [exact Hin | split].
  - apply Hgte. reflexivity.
  - apply Hlte. split; [reflexivity | discriminate].
Defined.

(** *** Context expansion *)

Lemma In_fold_add (l : list string) (ext : StrSet) (c : string) :
  In c (fold_left (fun ext' id' => add id' ext') l ext) <-> In c l \/ In c ext.
Proof.
  revert ext. induction l as [|x l IH]; intros ext; simpl.
  - tauto.
  - rewrite IH, In_add. intuition congruence.
Qed.

Lemma In_fold_delete (ids : list string) (ext : StrSet) (c : string) :
  In c (fold_left (fun ext id => delete id ext) ids ext)
  <-> In c ext /\ ~ In c ids.
Proof.
  revert ext. induction ids as [|x ids IH]; intros ext; simpl.
  - tauto.
  - rewrite IH, In_delete. intuition congruence.
Qed.

(** The body of the first loop of the expansion: the window of one seen id
    is added to [extend_ids]. *)
Local Abbreviation addWindow k :=
  (fun (ext : StrSet) (id : string) =>
     bind (getIdRange id k)
          (fun idRange =>
             Returns (fold_left (fun ext' id' => add id' ext') idRange ext))).

(** When the first loop returns, every window has been returned and added. *)
Lemma foldOutcome_windows (k : Z) (ids : list string) :
  forall ext r : StrSet,
    foldOutcome (addWindow k) ids ext = Returns r ->
    (forall id, In id ids -> exists w, getIdRange id k = Returns w) /\
    (forall c, In c r <->
               (exists id w, In id ids /\ getIdRange id k = Returns w /\ In c w)
               \/ In c ext).
Proof.
  induction ids as [|x ids IH]; intros ext r H; cbn [foldOutcome] in H.
  - injection H as <-. split; [intros id []|].
    intros c. split; [auto | intros [(id & w & [] & _)|Hc]; exact Hc].
  - destruct (getIdRange x k) as [w| |] eqn:Ew; cbn [bind] in H;
      try discriminate.
    destruct (IH _ _ H) as (Hret & Hin). split.
    + intros id [<-|Hid]; [eauto | auto].
    + intros c. rewrite Hin, In_fold_add. split.
      * intros [(id & w' & Hid & E & Hc)|[Hc|Hc]]; [left | left | right].
        -- exists id, w'. simpl. auto.
        -- exists x, w. simpl. auto.
        -- exact Hc.
      * intros [(id & w' & [<-|Hid] & E & Hc)|Hc].
        -- right. left. congruence.
        -- left. eauto.
        -- right. right. exact Hc.
Qed.

(** The first loop returns when every window does. *)
Lemma foldOutcome_windows_return (k : Z) (ids : list string) :
  forall ext : StrSet,
    (forall id, In id ids -> exists w, getIdRange id k = Returns w) ->
    exists r, foldOutcome (addWindow k) ids ext = Returns r.
Proof.
  induction ids as [|x ids IH]; intros ext H; cbn [foldOutcome].
  - eauto.
  - destruct (H x (or_introl eq_refl)) as (w & Ew). rewrite Ew. cbn [bind].
    apply IH. intros id Hid. apply H. now right.
Qed.

Lemma extendIds_Returns (id_set ids : StrSet) (k : Z) :
  extendIds id_set k = Returns ids ->
  exists r,
    foldOutcome (addWindow k) id_set [] = Returns r /\
    ids = fold_left (fun ext id => delete id ext) id_set r.
Proof.
  unfold extendIds. intros H.
  destruct (foldOutcome (addWindow k) id_set []) as [r| |]; cbn [bind] in H;
    try discriminate.
  injection H as <-. eauto.
Qed.

(** The ids that the expansion requests, when the loops return. *)
Lemma In_extendIds (id_set ids : StrSet) (k : Z) :
  extendIds id_set k = Returns ids ->
  forall c,
    In c ids <->
    (exists id w, In id id_set /\ getIdRange id k = Returns w /\ In c w) /\
    ~ In c id_set.
Proof.
  intros H c. apply extendIds_Returns in H. destruct H as (r & Hr & ->).
  apply foldOutcome_windows in Hr. destruct Hr as (_ & Hin).
  rewrite In_fold_delete, Hin. simpl. tauto.
Qed.

(** The loops return exactly when every window does. *)
Lemma extendIds_returns (id_set : StrSet) (k : Z) :
  (exists ids, extendIds id_set k = Returns ids) <->
  (forall id, In id id_set -> exists w, getIdRange id k = Returns w).
Proof.
  split.
  - intros (ids & H). apply extendIds_Returns in H. destruct H as (r & Hr & _).
    apply foldOutcome_windows in Hr. tauto.
  - intros H. unfold extendIds.
    destruct (foldOutcome_windows_return k id_set [] H) as (r & Hr).
    rewrite Hr. cbn [bind]. eauto.
Qed.

Lemma expansionRequest_Some (id_set ids : StrSet) (k : Z) :
  expansionRequest id_set k = Returns (Some ids) <->
  k > 0 /\ extendIds id_set k = Returns ids.
Proof.
  unfold expansionRequest. destruct (Z.gtb_spec k 0) as [Hk|Hk]; split.
  - intros H. split; [lia|].
    destruct (extendIds id_set k); cbn [bind] in H; congruence.
  - intros [_ ->]. reflexivity.
  - discriminate.
  - intros [? _]. lia.
Qed.

(** C6: when [extK > 0] the ids requested from the keyword store are the
    ids of the windows of the seen ids that are not seen themselves; no
    requested id is in the seen set.  The request is made once every
    window has been returned. *)
Theorem expansion_excludes_seen :
  forall (id_set : StrSet) (extK : Z),
    extK > 0 ->
    ((forall id, In id id_set -> exists w, getIdRange id extK = Returns w) ->
     exists ids : list string,
       expansionRequest id_set extK = Returns (Some ids)) /\
    expansionRequest id_set extK <> Returns None /\
    forall ids : list string,
      expansionRequest id_set extK = Returns (Some ids) ->
      (forall c, In c ids <->
                 (exists id w, In id id_set /\
                               getIdRange id extK = Returns w /\ In c w) /\
                 ~ In c id_set) /\
      (forall c, In c ids -> ~ In c id_set).
Proof.
  intros id_set extK Hk. split; [|split].
  - intros Hret. apply extendIds_returns in Hret. destruct Hret as (ids & E).
    exists ids. apply expansionRequest_Some. split; [lia | exact E].
  - unfold expansionRequest. destruct (Z.gtb_spec extK 0); [|lia].
    destruct (extendIds id_set extK); discriminate.
  - intros ids H. apply expansionRequest_Some in H. destruct H as [_ H].
    pose proof (In_extendIds _ _ _ H) as Hin. split; [exact Hin|].
    intros c Hc. apply Hin in Hc. tauto.
Qed.

Lemma expansion_excludes_seen_witness :
  exists ids : list string,
    expansionRequest ["d1_0"; "d1_1"; "d2_5"] 1 = Returns (Some ids) /\
    (forall c, In c ids -> ~ In c ["d1_0"; "d1_1"; "d2_5"]).
Proof.
  destruct (expansion_excludes_seen ["d1_0"; "d1_1"; "d2_5"] 1 ltac:(lia))
    as (Hreq & _ & Hex).
  destruct Hreq as (ids & Hids).
  - intros id [<-|[<-|[<-|[]]]]; eexists; vm_compute; reflexivity.
  - exists ids. split; [exact Hids | exact (proj2 (Hex ids Hids))].
Defined.

(** *** Union and deduplication *)

Lemma pinecone_fold (ms : list PCMatch) :
  forall (S : StrSet) (H : list Hit),
    fold_left pineconeStepT ms (S, H) =
    (fold_left (fun s x => add x s) (map pc_id ms) S,
     (H ++ flat_map similarityHits ms)%list).
Proof.
  induction ms as [|m ms IH]; intros S H; simpl.
  - now rewrite app_nil_r.
  - rewrite IH. unfold similarityHits at 2.
    destruct (pc_metadata m); simpl; now rewrite <- ?app_assoc.
Qed.

(** The second loop pushes keyword hits only, for ids that were not seen
    and pairwise distinct. *)
Lemma fulltext_fold (hs : list OSHit) :
  forall (S : StrSet) (H : list Hit),
  exists K : list Hit,
    fold_left fulltextStepT hs (S, H) =
    (fold_left (fun s x => add x s) (map os_id hs) S, (H ++ K)%list) /\
    (forall h, In h K ->
               exists o, In o hs /\ h = KeywordHit (os_id o) (os_source o) /\
                         ~ In (os_id o) S) /\
    NoDup (map chunkId K).
Proof.
  induction hs as [|o hs IH]; intros S H.
  - exists []. simpl. rewrite app_nil_r. repeat split.
    + intros h [].
    + constructor.
  - cbn [fold_left map]. unfold fulltextStepT at 2.
    destruct (has (os_id o) S) eqn:Hhas; cbn [negb].
    + destruct (IH S H) as (K & E & HK & Hnd).
      exists K. split; [|split].
      * rewrite E. f_equal. f_equal. unfold add. now rewrite Hhas.
      * intros h Hh. destruct (HK h Hh) as (o' & ? & ? & ?).
        exists o'. simpl. auto.
      * assumption.
    + destruct (IH (add (os_id o) S)
                   (H ++ [KeywordHit (os_id o) (os_source o)])%list)
        as (K & E & HK & Hnd).
      exists (KeywordHit (os_id o) (os_source o) :: K). split; [|split].
      * rewrite E, <- app_assoc. reflexivity.
      * intros h [<-|Hh].
        -- exists o. simpl. split; [auto|split; [reflexivity|]].
           now apply has_false.
        -- destruct (HK h Hh) as (o' & ? & ? & Hn).
           exists o'. simpl. split; [auto|split; [assumption|]].
           intros Hin. apply Hn. apply In_add. auto.
      * simpl. constructor; [|assumption].
        intros Hin. apply in_map_iff in Hin. destruct Hin as (h & Eh & Hh).
        destruct (HK h Hh) as (o' & _ & -> & Hn). simpl in Eh.
        apply Hn. apply In_add. auto.
Qed.

(** Forgetting the trace gives the loops of the source. *)
Lemma pinecone_erase (ms : list PCMatch) :
  forall (S : StrSet) (H : list Hit),
    fold_left pineconeStep ms (S, map documentOf H) =
    (fst (fold_left pineconeStepT ms (S, H)),
     map documentOf (snd (fold_left pineconeStepT ms (S, H)))).
Proof.
  induction ms as [|m ms IH]; intros S H; simpl; [reflexivity|].
  destruct (pc_metadata m) as [md|].
  - rewrite <- IH. now rewrite map_app.
  - apply IH.
Qed.

Lemma fulltext_erase (hs : list OSHit) :
  forall st : StrSet * list Hit,
    fold_left fulltextStep hs (fst st, map documentOf (snd st)) =
    (fst (fold_left fulltextStepT hs st),
     map documentOf (snd (fold_left fulltextStepT hs st))).
Proof.
  induction hs as [|o hs IH]; intros [S H]; simpl; [reflexivity|].
  destruct (has (os_id o) S); simpl.
  - apply (IH (S, H)).
  - rewrite <- (IH (add (os_id o) S, _)). simpl. now rewrite map_app.
Qed.

Lemma unionDedup_trace (ms : list PCMatch) (hs : list OSHit) :
  unionDedup ms hs =
  (fst (unionDedupT ms hs), map documentOf (snd (unionDedupT ms hs))).
Proof.
  unfold unionDedup, unionDedupT.
  change (@nil (DocumentOf number)) with (map documentOf []).
  rewrite pinecone_erase.
  apply (fulltext_erase hs (fold_left pineconeStepT ms ([], []))).
Qed.

(** The trace of the whole reducer: the similarity hits that carry
    metadata, in order, then keyword hits for unseen, distinct ids. *)
Lemma unionDedupT_shape (ms : list PCMatch) (hs : list OSHit) :
  exists K : list Hit,
    unionDedupT ms hs =
    (fold_left (fun s x => add x s) (map os_id hs)
               (fold_left (fun s x => add x s) (map pc_id ms) []),
     (flat_map similarityHits ms ++ K)%list) /\
    (forall h, In h K ->
               exists o, In o hs /\ h = KeywordHit (os_id o) (os_source o) /\
                         ~ In (os_id o) (map pc_id ms)) /\
    NoDup (map chunkId K).
Proof.
  unfold unionDedupT. rewrite pinecone_fold. simpl.
  destruct (fulltext_fold hs (fold_left (fun s x => add x s) (map pc_id ms) [])
                          (flat_map similarityHits ms)) as (K & E & HK & Hnd).
  exists K. split; [exact E | split; [|exact Hnd]].
  intros h Hh. destruct (HK h Hh) as (o & ? & ? & Hn).
  exists o. split; [assumption | split; [assumption|]].
  intros Hin. apply Hn. apply In_fold_add. auto.
Qed.

Lemma In_similarityHits (ms : list PCMatch) (h : Hit) :
  In h (flat_map similarityHits ms) <->
  exists m md, In m ms /\ pc_metadata m = Some md /\ h = SimilarityHit (pc_id m) md.
Proof.
  rewrite in_flat_map. unfold similarityHits. split.
  - intros (m & Hm & Hh). destruct (pc_metadata m) as [md|] eqn:E.
    + destruct Hh as [<-|[]]. eauto.
    + destruct Hh.
  - intros (m & md & Hm & E & ->). exists m. rewrite E. simpl. auto.
Qed.

(** A hit of the output whose chunk id the similarity backend returned is
    a similarity hit. *)
Lemma seen_by_similarity (ms : list PCMatch) (hs : list OSHit) (h : Hit) :
  In h (snd (unionDedupT ms hs)) -> In (chunkId h) (map pc_id ms) ->
  exists md, h = SimilarityHit (chunkId h) md /\
             In {| pc_id := chunkId h; pc_metadata := Some md |} ms.
Proof.
  destruct (unionDedupT_shape ms hs) as (K & E & HK & _).
  rewrite E. simpl. intros Hh Hseen.
  apply in_app_or in Hh. destruct Hh as [Hh|Hh].
  - apply In_similarityHits in Hh. destruct Hh as (m & md & Hm & Emd & ->).
    exists md. split; [reflexivity|]. simpl.
    destruct m as [id o]. simpl in *. now subst o.
  - destruct (HK h Hh) as (o & _ & -> & Hn). simpl in Hseen. contradiction.
Qed.

(** A pushed document, paired with the hit it was built from. *)
Lemma In_combine_documentOf (hits : list Hit) (h : Hit)
      (d : DocumentOf number) :
  In (h, d) (combine hits (map documentOf hits)) <->
  In h hits /\ d = documentOf h.
Proof.
  induction hits as [|x hits IH]; simpl.
  - tauto.
  - rewrite IH. split.
    + intros [[= -> ->]|[? ?]]; auto.
    + intros [[->|?] ->]; auto.
Qed.

(** C2: when the similarity backend returns chunk id [X] with metadata
    [md] and the keyword backend returns [X] too, [unique_docs] holds a
    document for [X] whose fields are those of [md] ([rec_id],
    [page_number], [isbn_number], [text], [title], [company_name] as
    author, [publication_date]); every document pushed for [X] has the
    fields of a metadata that the similarity backend returned for [X],
    never those of the keyword source; when the similarity backend
    returned [X] once, every document for [X] has the fields of [md].
    [hits] names, position by position, the backend hit behind each
    document of [unique_docs]. *)
Theorem similarity_metadata_wins :
  forall (ms : list PCMatch) (hs : list OSHit) (X : string)
         (md : PCMetadata) (src : OSSource),
    In {| pc_id := X; pc_metadata := Some md |} ms ->
    In {| os_id := X; os_source := src |} hs ->
    let hits := snd (unionDedupT ms hs) in
    let unique_docs := snd (unionDedup ms hs) in
    unique_docs = map documentOf hits /\
    In (SimilarityHit X md) hits /\
    (exists d : DocumentOf number,
        In (SimilarityHit X md, d) (combine hits unique_docs) /\
        In d unique_docs /\
        sort_id d = sortIdOf X /\
        doc_id d = md_rec_id md /\
        page_number d = md_page_number md /\
        isbn_number d = md_isbn_number md /\
        text d = md_text md /\
        title d = md_title md /\
        author d = md_company_name md /\
        publication_date d = md_publication_date md) /\
    (forall h, In h hits -> chunkId h = X ->
               exists md', h = SimilarityHit X md' /\
                           In {| pc_id := X; pc_metadata := Some md' |} ms) /\
    (forall h d,
        In (h, d) (combine hits unique_docs) -> chunkId h = X ->
        exists md',
          In {| pc_id := X; pc_metadata := Some md' |} ms /\
          h = SimilarityHit X md' /\
          sort_id d = sortIdOf X /\
          doc_id d = md_rec_id md' /\
          page_number d = md_page_number md' /\
          isbn_number d = md_isbn_number md' /\
          text d = md_text md' /\
          title d = md_title md' /\
          author d = md_company_name md' /\
          publication_date d = md_publication_date md') /\
    ((forall m, In m ms -> pc_id m = X -> pc_metadata m = Some md) ->
     forall h d,
       In (h, d) (combine hits unique_docs) -> chunkId h = X ->
       h = SimilarityHit X md /\
       sort_id d = sortIdOf X /\
       doc_id d = md_rec_id md /\
       page_number d = md_page_number md /\
       isbn_number d = md_isbn_number md /\
       text d = md_text md /\
       title d = md_title md /\
       author d = md_company_name md /\
       publication_date d = md_publication_date md).
Proof.
  intros ms hs X md src Hm Ho hits unique_docs.
  assert (Hseen : In X (map pc_id ms)).
  { apply in_map_iff. exists {| pc_id := X; pc_metadata := Some md |}. auto. }
  assert (Hall : forall h, In h hits -> chunkId h = X ->
                   exists md', h = SimilarityHit X md' /\
                               In {| pc_id := X; pc_metadata := Some md' |} ms).
  { intros h Hh <-. now apply seen_by_similarity with (hs := hs). }
  assert (Hdocs : unique_docs = map documentOf hits).
  { unfold unique_docs, hits. rewrite unionDedup_trace. reflexivity. }
  assert (Hin : In (SimilarityHit X md) hits).
  { unfold hits. destruct (unionDedupT_shape ms hs) as (K & E & _).
    rewrite E. simpl. apply in_or_app. left. apply In_similarityHits.
    exists {| pc_id := X; pc_metadata := Some md |}, md. auto. }
  split; [exact Hdocs | split; [exact Hin | split; [|split; [exact Hall|split]]]].
  - exists (documentOf (SimilarityHit X md)). rewrite Hdocs. split; [|split].
    + apply In_combine_documentOf. auto.
    + apply in_map. exact Hin.
    + simpl. repeat split.
  - intros h d Hhd Hx. rewrite Hdocs in Hhd.
    apply In_combine_documentOf in Hhd. destruct Hhd as [Hh ->].
    destruct (Hall h Hh Hx) as (md' & -> & Hin').
    exists md'. simpl. repeat split. exact Hin'.
  - intros Huniq h d Hhd Hx. rewrite Hdocs in Hhd.
    apply In_combine_documentOf in Hhd. destruct Hhd as [Hh ->].
    destruct (Hall h Hh Hx) as (md' & -> & Hin').
    specialize (Huniq _ Hin' eq_refl). simpl in Huniq.
    injection Huniq as ->. simpl. repeat split.
Qed.

Lemma similarity_metadata_wins_witness :
  let md := {| md_rec_id := "d1"; md_page_number := 3; md_isbn_number := "i";
               md_text := "from the vector store"; md_title := "t";
               md_company_name := "c"; md_publication_date := 1700000000 |} in
  let src := {| src_rec_id := "d1"; src_page_number := 4; src_isbn_number := "i";
                src_text := "from the keyword store"; src_title := "t";
                src_author := "a"; src_publication_date := 1700000000 |} in
  exists d : DocumentOf number,
    In d (snd (unionDedup [{| pc_id := "d1_0"; pc_metadata := Some md |}]
                          [{| os_id := "d1_0"; os_source := src |};
                           {| os_id := "d2_0"; os_source := src |}])) /\
    text d = "from the vector store" /\ page_number d = 3 /\ author d = "c".
Proof.
  intros md src.
  destruct (similarity_metadata_wins
              [{| pc_id := "d1_0"; pc_metadata := Some md |}]
              [{| os_id := "d1_0"; os_source := src |};
               {| os_id := "d2_0"; os_source := src |}]
              "d1_0" md src (or_introl eq_refl) (or_introl eq_refl))
    as (_ & _ & (d & _ & Hd & _ & _ & Hpage & _ & Htext & _ & Hauthor & _) & _).
  exists d. split; [exact Hd | split; [exact Htext | split]].
  - exact Hpage.
  - exact Hauthor.
Defined.

Lemma similarityHits_ids (ms : list PCMatch) (x : string) :
  In x (map chunkId (flat_map similarityHits ms)) -> In x (map pc_id ms).
Proof.
  rewrite !in_map_iff. intros (h & <- & Hh).
  apply In_similarityHits in Hh. destruct Hh as (m & md & Hm & _ & ->).
  exists m. auto.
Qed.

Lemma similarityHits_NoDup (ms : list PCMatch) :
  NoDup (map pc_id ms) -> NoDup (map chunkId (flat_map similarityHits ms)).
Proof.
  induction ms as [|m ms IH]; simpl; intros Hnd; [constructor|].
  inversion Hnd as [|? ? Hx Hl]; subst.
  unfold similarityHits at 1. destruct (pc_metadata m); simpl.
  - constructor; [|auto]. intros Hin. apply Hx. now apply similarityHits_ids.
  - auto.
Qed.

(** C3, as stated, fails: the first loop pushes every similarity hit
    without looking at [id_set], so a similarity list that repeats a chunk
    id yields that id twice. *)
Lemma unionDedup_repeats_similarity_id :
  ~ (forall (ms : list PCMatch) (hs : list OSHit),
        NoDup (map chunkId (snd (unionDedupT ms hs)))).
Proof.
  intros H.
  pose (md := {| md_rec_id := "d1"; md_page_number := 3; md_isbn_number := "i";
                 md_text := "x"; md_title := "t"; md_company_name := "c";
                 md_publication_date := 1700000000 |}).
  specialize (H [{| pc_id := "d1_0"; pc_metadata := Some md |};
                 {| pc_id := "d1_0"; pc_metadata := Some md |}] []).
  simpl in H. inversion H as [|? ? Hx _]; subst.
  apply Hx. left. reflexivity.
Qed.

(** C3 (amended): when the similarity hits have pairwise distinct chunk
    ids, the output contains each chunk id at most once, for every
    keyword hit list (which may repeat ids). *)
Theorem unionDedup_unique_ids :
  forall (ms : list PCMatch) (hs : list OSHit),
    NoDup (map pc_id ms) ->
    snd (unionDedup ms hs) = map documentOf (snd (unionDedupT ms hs)) /\
    NoDup (map chunkId (snd (unionDedupT ms hs))).
Proof.
  intros ms hs Hnd. split; [now rewrite unionDedup_trace|].
  destruct (unionDedupT_shape ms hs) as (K & E & HK & HndK).
  rewrite E. simpl. rewrite map_app. apply NoDup_app.
  - now apply similarityHits_NoDup.
  - assumption.
  - intros x Hx Hin. apply similarityHits_ids in Hx.
    apply in_map_iff in Hin. destruct Hin as (h & <- & Hh).
    destruct (HK h Hh) as (o & _ & -> & Hn). contradiction.
Qed.

Lemma unionDedup_unique_ids_witness :
  let src := {| src_rec_id := "d1"; src_page_number := 4; src_isbn_number := "i";
                src_text := "x"; src_title := "t";
                src_author := "a"; src_publication_date := 1700000000 |} in
  NoDup (map chunkId
             (snd (unionDedupT [{| pc_id := "d1_0"; pc_metadata := None |}]
                               [{| os_id := "d2_0"; os_source := src |};
                                {| os_id := "d2_0"; os_source := src |}]))).
Proof.
  intros src.
  apply (unionDedup_unique_ids
           [{| pc_id := "d1_0"; pc_metadata := None |}]
           [{| os_id := "d2_0"; os_source := src |};
            {| os_id := "d2_0"; os_source := src |}]).
  simpl. constructor; [intros [] | constructor].
Defined.

Lemma In_idset (ms : list PCMatch) (hs : list OSHit) (x : string) :
  In x (fst (unionDedup ms hs)) <-> In x (map pc_id ms) \/ In x (map os_id hs).
Proof.
  rewrite unionDedup_trace. simpl.
  destruct (unionDedupT_shape ms hs) as (K & E & _). rewrite E. simpl.
  rewrite !In_fold_add. simpl. tauto.
Qed.





(** *** Sorting *)

Section SortFacts.
Context {A : Type} (cmp : A -> A -> Z).
Hypothesis cmp_total : forall a b, cmp a b <= 0 \/ cmp b a <= 0.
Hypothesis cmp_trans :
  forall a b c, cmp a b <= 0 -> cmp b c <= 0 -> cmp a c <= 0.

Local Abbreviation le := (fun a b => cmp a b <= 0).

Lemma insertSorted_perm (a : A) (l : list A) :
  Permutation (insertSorted cmp a l) (a :: l).
Proof.
  induction l as [|b l IH]; simpl; [reflexivity|].
  destruct (cmp a b <=? 0); [reflexivity|].
  rewrite IH. apply perm_swap.
Qed.

Lemma sortWith_perm (l : list A) : Permutation (sortWith cmp l) l.
Proof.
  induction l as [|a l IH]; simpl; [reflexivity|].
  rewrite insertSorted_perm. now constructor.
Qed.

Lemma insertSorted_sorted (a : A) (l : list A) :
  StronglySorted le l -> StronglySorted le (insertSorted cmp a l).
Proof.
  induction 1 as [|b l Hl IH Hb]; simpl.
  - repeat constructor.
  - destruct (Z.leb_spec (cmp a b) 0) as [Hab|Hab].
    + constructor; [now constructor|].
      constructor; [assumption|].
      eapply Forall_impl; [|exact Hb].
      intros c Hc. now apply cmp_trans with b.
    + constructor; [assumption|].
      assert (Hba : cmp b a <= 0) by (destruct (cmp_total a b); lia).
      apply Forall_forall. intros c Hc.
      apply (Permutation_in _ (insertSorted_perm a l)) in Hc.
      destruct Hc as [<-|Hc]; [assumption|].
      rewrite Forall_forall in Hb. now apply Hb.
Qed.

Lemma sortWith_sorted (l : list A) : StronglySorted le (sortWith cmp l).
Proof.
  induction l as [|a l IH]; simpl; [constructor|].
  now apply insertSorted_sorted.
Qed.

(** Inserting in front of a sorted list whose elements are all above. *)
Lemma insertSorted_least (a : A) (l : list A) :
  Forall (le a) l -> insertSorted cmp a l = a :: l.
Proof.
  destruct l as [|b l]; simpl; [reflexivity|].
  intros H. inversion H as [|? ? Hab _]; subst.
  destruct (Z.leb_spec (cmp a b) 0); [reflexivity | lia].
Qed.

Lemma filter_insertSorted (f : A -> bool) (a : A) (l : list A) :
  StronglySorted le l ->
  filter f (insertSorted cmp a l) =
  if f a then insertSorted cmp a (filter f l) else filter f l.
Proof.
  induction 1 as [|b l Hl IH Hb]; simpl.
  - destruct (f a); reflexivity.
  - destruct (Z.leb_spec (cmp a b) 0) as [Hab|Hab].
    + cbn [filter]. destruct (f a) eqn:Ea; [|reflexivity].
      symmetry. apply insertSorted_least.
      apply Forall_forall. intros c Hc.
      assert (Hin : In c (b :: l)).
      { change (In c (filter f (b :: l))) in Hc.
        apply filter_In in Hc. tauto. }
      destruct Hin as [<-|Hin]; [assumption|].
      rewrite Forall_forall in Hb. apply cmp_trans with b; auto.
    + cbn [filter]. rewrite IH.
      destruct (f a) eqn:Ea; destruct (f b) eqn:Eb; try reflexivity.
      simpl. destruct (Z.leb_spec (cmp a b) 0); [lia | reflexivity].
Qed.

(** A stable sort commutes with the selection of a sub-family. *)
Lemma filter_sortWith (f : A -> bool) (l : list A) :
  filter f (sortWith cmp l) = sortWith cmp (filter f l).
Proof.
  induction l as [|a l IH]; simpl; [reflexivity|].
  rewrite filter_insertSorted by apply sortWith_sorted.
  rewrite IH. destruct (f a); reflexivity.
Qed.
End SortFacts.

(** *** The comparator of [unique_docs.sort] *)

Lemma ltb_lt (a b : string) : String.ltb a b = true <-> OrderedTypeEx.String_as_OT.lt a b.
Proof.
  unfold String.ltb. rewrite <- OrderedTypeEx.String_as_OT.cmp_lt.
  unfold OrderedTypeEx.String_as_OT.cmp.
  destruct (String.compare a b); split; congruence.
Qed.

Lemma ltb_irrefl (a : string) : String.ltb a a = false.
Proof.
  pose proof (proj2 (OrderedTypeEx.String_as_OT.cmp_eq a a) eq_refl) as E.
  unfold OrderedTypeEx.String_as_OT.cmp in E.
  unfold String.ltb. now rewrite E.
Qed.

Lemma ltb_asym (a b : string) : String.ltb a b = true -> String.ltb b a = false.
Proof.
  unfold String.ltb. rewrite (String.compare_antisym b a).
  destruct (String.compare a b); simpl; congruence.
Qed.

Lemma ltb_trans (a b c : string) :
  String.ltb a b = true -> String.ltb b c = true -> String.ltb a c = true.
Proof.
  rewrite !ltb_lt. apply OrderedTypeEx.String_as_OT.lt_trans.
Qed.

Lemma ltb_connex (a b : string) :
  String.ltb a b = false -> String.ltb b a = false -> a = b.
Proof.
  unfold String.ltb. rewrite (String.compare_antisym b a).
  destruct (String.compare a b) eqn:E; simpl; try congruence.
  intros _ _. now apply String.compare_eq_iff.
Qed.

(** The comparator orders by [id] first and by [sort_id] among equal
    ids. *)
Lemma compareDocs_le (a b : Document) :
  compareDocs a b <= 0 <->
  String.ltb (doc_id a) (doc_id b) = true \/
  (doc_id a = doc_id b /\ sort_id a <= sort_id b).
Proof.
  unfold compareDocs.
  destruct (String.ltb (doc_id a) (doc_id b)) eqn:Eab.
  - split; [auto | lia].
  - destruct (String.ltb (doc_id b) (doc_id a)) eqn:Eba.
    + split; [lia|]. intros [H|[H _]]; [discriminate|].
      rewrite H, ltb_irrefl in Eba. discriminate.
    + pose proof (ltb_connex _ _ Eab Eba) as E. split.
      * intros H. right. split; [assumption | lia].
      * intros [H|[_ H]]; [discriminate | lia].
Qed.

Lemma compareDocs_total (a b : Document) :
  compareDocs a b <= 0 \/ compareDocs b a <= 0.
Proof.
  rewrite !compareDocs_le.
  destruct (String.ltb (doc_id a) (doc_id b)) eqn:Eab; [auto|].
  destruct (String.ltb (doc_id b) (doc_id a)) eqn:Eba; [auto|].
  pose proof (ltb_connex _ _ Eab Eba) as E.
  destruct (Z.le_ge_cases (sort_id a) (sort_id b)); [left | right]; right;
    split; auto; lia.
Qed.

Lemma compareDocs_trans (a b c : Document) :
  compareDocs a b <= 0 -> compareDocs b c <= 0 -> compareDocs a c <= 0.
Proof.
  rewrite !compareDocs_le.
  intros [Hab|[Eab Hab]] [Hbc|[Ebc Hbc]].
  - left. now apply ltb_trans with (doc_id b).
  - left. now rewrite <- Ebc.
  - left. now rewrite Eab.
  - right. split; [congruence | lia].
Qed.

Lemma compareDocs_same_id (a b : Document) :
  doc_id a = doc_id b -> compareDocs a b = sort_id a - sort_id b.
Proof.
  intros E. unfold compareDocs. rewrite E, ltb_irrefl. reflexivity.
Qed.

Lemma filter_none {A} (f : A -> bool) (l : list A) :
  (forall d, In d l -> f d = false) -> filter f l = [].
Proof.
  induction l as [|a l IH]; simpl; intros H; [reflexivity|].
  rewrite (H a) by auto. apply IH. auto.
Qed.

(** In a list sorted by the comparator the documents of one id are
    consecutive: before them the smaller ids, after them the larger. *)
Lemma sorted_three_way (p : string) (s : list Document) :
  StronglySorted (fun a b => compareDocs a b <= 0) s ->
  s = (filter (fun d => String.ltb (doc_id d) p) s ++
       filter (fun d => String.eqb (doc_id d) p) s ++
       filter (fun d => String.ltb p (doc_id d)) s)%list.
Proof.
  induction 1 as [|a s Hs IH Ha]; [reflexivity|].
  assert (Hge : String.ltb (doc_id a) p = false ->
                filter (fun d => String.ltb (doc_id d) p) s = []).
  { intros Hap. apply filter_none. intros d Hd.
    rewrite Forall_forall in Ha. specialize (Ha d Hd).
    apply compareDocs_le in Ha.
    destruct (String.ltb (doc_id d) p) eqn:Edp; [|reflexivity].
    exfalso. destruct Ha as [Ha|[Ha _]].
    - rewrite (ltb_trans _ _ _ Ha Edp) in Hap. discriminate.
    - rewrite Ha, Edp in Hap. discriminate. }
  assert (Hgt : String.ltb p (doc_id a) = true ->
                filter (fun d => String.eqb (doc_id d) p) s = []).
  { intros Hpa. apply filter_none. intros d Hd.
    rewrite Forall_forall in Ha. specialize (Ha d Hd).
    apply compareDocs_le in Ha.
    destruct (String.eqb_spec (doc_id d) p) as [Edp|]; [|reflexivity].
    exfalso. rewrite Edp in Ha. destruct Ha as [Ha|[Ha _]].
    - apply ltb_asym in Ha. congruence.
    - rewrite Ha, ltb_irrefl in Hpa. discriminate. }
  cbn [filter].
  destruct (String.ltb (doc_id a) p) eqn:Eap.
  - rewrite (ltb_asym _ _ Eap).
    destruct (String.eqb_spec (doc_id a) p) as [E|_].
    + rewrite E, ltb_irrefl in Eap. discriminate.
    + simpl. now rewrite <- IH.
  - rewrite (Hge eq_refl) in *. simpl in IH |- *.
    destruct (String.eqb_spec (doc_id a) p) as [E|Hne].
    + rewrite E, ltb_irrefl. simpl. now rewrite <- IH.
    + destruct (String.ltb p (doc_id a)) eqn:Epa.
      * rewrite (Hgt eq_refl) in *. simpl in IH |- *. now rewrite <- IH.
      * exfalso. apply Hne. now apply ltb_connex.
Qed.

(** *** The grouping pass *)

Section Grouping.
Variable p : string.

Local Abbreviation sel := (filter (fun d : Document => String.eqb (doc_id d) p)).

(** The current group is empty before the first document and afterwards
    holds documents of the current id. *)
Local Abbreviation wf st :=
  ((currentGroup st = [] /\ currentId st = None) \/
   (currentGroup st <> [] /\
    forall d, In d (currentGroup st) -> currentId st = Some (doc_id d))).

Lemma differsFrom_false (id : string) (cur : option string) :
  differsFrom id cur = false -> cur = Some id.
Proof.
  destruct cur as [c|]; simpl; [|discriminate].
  destruct (String.eqb_spec id c); [now subst | discriminate].
Qed.

Lemma differsFrom_true (id : string) (cur : option string) :
  cur <> Some id -> differsFrom id cur = true.
Proof.
  destruct cur as [c|]; simpl; [|reflexivity].
  destruct (String.eqb_spec id c); [now subst | reflexivity].
Qed.

Lemma sel_flush_foreign (g : list Document) :
  (forall d, In d g -> doc_id d <> p) -> sel (flushGroup g) = [].
Proof.
  destruct g as [|first g]; simpl; [reflexivity|]. intros H.
  destruct (String.eqb_spec (doc_id first) p) as [E|]; [|reflexivity].
  exfalso. apply (H first); auto.
Qed.

Lemma sel_flush_member (g : list Document) :
  (forall d, In d g -> doc_id d = p) -> sel (flushGroup g) = flushGroup g.
Proof.
  destruct g as [|first g]; simpl; [reflexivity|]. intros H.
  destruct (String.eqb_spec (doc_id first) p) as [|Hne]; [reflexivity|].
  exfalso. apply Hne, H. auto.
Qed.

Lemma groupStep_foreign (st : GroupState) (d : Document) :
  wf st -> doc_id d <> p ->
  wf (groupStep st d) /\
  sel (closeGroups (groupStep st d)) = sel (closeGroups st) /\
  currentId (groupStep st d) <> Some p.
Proof.
  intros Hwf Hd. unfold groupStep.
  destruct (differsFrom (doc_id d) (currentId st)) eqn:E.
  - split; [|split].
    + right. simpl. split; [discriminate|]. intros d' [<-|[]]. reflexivity.
    + unfold closeGroups. cbn [combinedDocs currentGroup].
      rewrite filter_app, (sel_flush_foreign [d]).
      * now rewrite app_nil_r.
      * intros d' [<-|[]]. assumption.
    + simpl. congruence.
  - apply differsFrom_false in E.
    destruct Hwf as [[_ Hnone]|[Hne Hall]]; [congruence|].
    assert (Hids : forall d', In d' (currentGroup st) -> doc_id d' <> p).
    { intros d' Hd'. specialize (Hall d' Hd'). congruence. }
    split; [|split].
    + right. simpl. split.
      * destruct (currentGroup st); discriminate.
      * intros d' Hd'. apply in_app_or in Hd'.
        destruct Hd' as [Hd'|[<-|[]]]; auto.
    + unfold closeGroups. cbn [combinedDocs currentGroup].
      rewrite !filter_app, !sel_flush_foreign; auto.
      intros d' Hd'. apply in_app_or in Hd'.
      destruct Hd' as [Hd'|[<-|[]]]; auto.
    + simpl. congruence.
Qed.

(** Documents of other ids leave the passages of [p] as they are. *)
Lemma run_foreign (l : list Document) :
  forall st : GroupState,
    wf st -> (forall d, In d l -> doc_id d <> p) ->
    wf (fold_left groupStep l st) /\
    sel (closeGroups (fold_left groupStep l st)) = sel (closeGroups st) /\
    (currentId st <> Some p -> currentId (fold_left groupStep l st) <> Some p).
Proof.
  induction l as [|d l IH]; intros st Hwf Hl; simpl; [auto|].
  destruct (groupStep_foreign st d Hwf) as (Hwf' & Hsel & Hcur);
    [apply Hl; simpl; auto|].
  destruct (IH (groupStep st d) Hwf') as (Hwf'' & Hsel' & Hcur');
    [intros d' Hd'; apply Hl; simpl; auto|].
  split; [assumption | split; [congruence | auto]].
Qed.

Lemma run_same (g : list Document) :
  forall st : GroupState,
    currentId st = Some p -> (forall d, In d g -> doc_id d = p) ->
    fold_left groupStep g st =
    {| combinedDocs := combinedDocs st;
       currentGroup := (currentGroup st ++ g)%list;
       currentId := Some p |}.
Proof.
  induction g as [|d g IH]; intros st Hcur Hg; simpl.
  - rewrite app_nil_r, <- Hcur. now destruct st.
  - assert (E : groupStep st d =
                {| combinedDocs := combinedDocs st;
                   currentGroup := (currentGroup st ++ [d])%list;
                   currentId := Some p |}).
    { unfold groupStep. rewrite Hcur, (Hg d) by (simpl; auto).
      simpl. now rewrite String.eqb_refl. }
    rewrite E, IH; simpl.
    + now rewrite <- app_assoc.
    + reflexivity.
    + intros d' Hd'. apply Hg. simpl. auto.
Qed.

(** A run of documents of id [p] after another id opens one group. *)
Lemma run_group (d : Document) (g : list Document) (st : GroupState) :
  currentId st <> Some p -> (forall d', In d' (d :: g) -> doc_id d' = p) ->
  fold_left groupStep (d :: g) st =
  {| combinedDocs := (combinedDocs st ++ flushGroup (currentGroup st))%list;
     currentGroup := d :: g;
     currentId := Some p |}.
Proof.
  intros Hcur Hg. cbn [fold_left].
  assert (Ed : doc_id d = p) by (apply Hg; simpl; auto).
  assert (E : groupStep st d =
              {| combinedDocs := (combinedDocs st ++ flushGroup (currentGroup st))%list;
                 currentGroup := [d];
                 currentId := Some p |}).
  { unfold groupStep. rewrite differsFrom_true by congruence.
    now rewrite Ed. }
  rewrite E, run_same; simpl.
  - reflexivity.
  - reflexivity.
  - intros d' Hd'. apply Hg. simpl. auto.
Qed.

(** When the documents of id [p] are consecutive, they make up one
    passage. *)
Lemma combineDocs_contiguous (l1 g l2 : list Document) :
  (forall d, In d l1 -> doc_id d <> p) ->
  g <> [] -> (forall d, In d g -> doc_id d = p) ->
  (forall d, In d l2 -> doc_id d <> p) ->
  sel (combineDocs (l1 ++ g ++ l2)) = flushGroup g.
Proof.
  intros H1 Hne Hg H2. unfold combineDocs. rewrite !fold_left_app.
  set (st0 := {| combinedDocs := []; currentGroup := []; currentId := None |}).
  destruct (run_foreign l1 st0) as (Hwf1 & Hsel1 & Hcur1);
    [left; auto | assumption |].
  specialize (Hcur1 ltac:(discriminate)).
  set (st1 := fold_left groupStep l1 st0) in *.
  destruct g as [|d g]; [contradiction|].
  rewrite (run_group d g st1 Hcur1 Hg).
  match goal with |- context [fold_left groupStep l2 ?s] => set (st2 := s) end.
  destruct (run_foreign l2 st2) as (_ & Hsel2 & _); [|assumption|].
  - right. simpl. split; [discriminate|].
    intros d' Hd'. now rewrite (Hg d' Hd').
  - rewrite Hsel2. unfold closeGroups, st2. cbn [combinedDocs currentGroup].
    rewrite filter_app. fold (closeGroups st1). rewrite Hsel1.
    change (sel (closeGroups st0)) with (@nil Document).
    rewrite app_nil_l. now apply sel_flush_member.
Qed.
End Grouping.

(** *** The group merger *)

Lemma Permutation_filter {A} (f : A -> bool) (l l' : list A) :
  Permutation l l' -> Permutation (filter f l) (filter f l').
Proof.
  induction 1 as [|x l l' _ IH|x y l|l l' l'' _ IH1 _ IH2]; simpl.
  - constructor.
  - destruct (f x); [now constructor | assumption].
  - destruct (f x), (f y); try reflexivity. apply perm_swap.
  - now transitivity (filter f l').
Qed.

Lemma StronglySorted_impl_In {A} (R R' : A -> A -> Prop) (l : list A) :
  (forall a b, In a l -> In b l -> R a b -> R' a b) ->
  StronglySorted R l -> StronglySorted R' l.
Proof.
  intros Himp Hs. induction Hs as [|a l Hl IH Ha]; constructor.
  - apply IH. intros x y Hx Hy. apply Himp; simpl; auto.
  - apply Forall_forall. intros b Hb. rewrite Forall_forall in Ha.
    apply Himp; simpl; auto.
Qed.

Lemma StronglySorted_strict {A} (f : A -> Z) (l : list A) :
  StronglySorted (fun a b => f a <= f b) l -> NoDup (map f l) ->
  StronglySorted (fun a b => f a < f b) l.
Proof.
  induction 1 as [|a l Hl IH Ha]; simpl; intros Hnd; constructor.
  - apply IH. now inversion Hnd.
  - inversion Hnd as [|? ? Hx _]; subst.
    apply Forall_forall. intros b Hb. rewrite Forall_forall in Ha.
    specialize (Ha b Hb).
    assert (f a <> f b); [|lia].
    intros E. apply Hx. rewrite E. now apply in_map.
Qed.

(** The elements fix their strictly ascending arrangement. *)
Lemma strictly_sorted_unique {A} (f : A -> Z) (l1 : list A) :
  forall l2 : list A,
    StronglySorted (fun a b => f a < f b) l1 ->
    StronglySorted (fun a b => f a < f b) l2 ->
    Permutation l1 l2 -> l1 = l2.
Proof.
  induction l1 as [|a l1 IH]; intros l2 H1 H2 Hp.
  - apply Permutation_nil in Hp. now subst.
  - destruct l2 as [|b l2].
    + apply Permutation_sym, Permutation_nil in Hp. discriminate.
    + inversion H1 as [|? ? H1' Ha]; subst.
      inversion H2 as [|? ? H2' Hb]; subst.
      rewrite Forall_forall in Ha, Hb.
      assert (E : a = b).
      { assert (Hab : In a (b :: l2))
          by (apply (Permutation_in _ Hp); simpl; auto).
        assert (Hba : In b (a :: l1))
          by (apply (Permutation_in _ (Permutation_sym Hp)); simpl; auto).
        destruct Hab as [Hab|Hab]; [now subst|].
        destruct Hba as [Hba|Hba]; [now subst|].
        specialize (Ha _ Hba). specialize (Hb _ Hab). lia. }
      subst b. f_equal. apply IH; auto.
      now apply Permutation_cons_inv with a.
Qed.

Lemma StronglySorted_filter {A} (R : A -> A -> Prop) (f : A -> bool) (l : list A) :
  StronglySorted R l -> StronglySorted R (filter f l).
Proof.
  induction 1 as [|a l Hl IH Ha]; simpl; [constructor|].
  destruct (f a); [|assumption].
  constructor; [assumption|].
  apply Forall_forall. intros b Hb. apply filter_In in Hb.
  rewrite Forall_forall in Ha. now apply Ha.
Qed.

(** In a list sorted by the comparator, the documents of one id are
    strictly ascending in [sort_id] when their indices are distinct. *)
Lemma sorted_members_strict (p : string) (s : list Document) :
  StronglySorted (fun a b => compareDocs a b <= 0) s ->
  NoDup (map sort_id (filter (fun d => String.eqb (doc_id d) p) s)) ->
  StronglySorted (fun a b => sort_id a < sort_id b)
    (filter (fun d => String.eqb (doc_id d) p) s).
Proof.
  intros Hs Hnd. apply StronglySorted_strict; [|assumption].
  apply StronglySorted_impl_In with (R := fun a b => compareDocs a b <= 0).
  - intros a b Ha Hb Hab.
    apply filter_In in Ha, Hb. destruct Ha as [_ Ha], Hb as [_ Hb].
    apply String.eqb_eq in Ha, Hb.
    rewrite compareDocs_same_id in Hab by congruence. lia.
  - now apply StronglySorted_filter.
Qed.

(** The grouping pass on a sorted array: the passages of id [p]. *)
Lemma combineDocs_sorted (p : string) (s : list Document) :
  StronglySorted (fun a b => compareDocs a b <= 0) s ->
  filter (fun d => String.eqb (doc_id d) p) s <> [] ->
  filter (fun d => String.eqb (doc_id d) p) (combineDocs s) =
  flushGroup (filter (fun d => String.eqb (doc_id d) p) s).
Proof.
  intros Hsorted Hne.
  transitivity
    (filter (fun d => String.eqb (doc_id d) p)
       (combineDocs
          (filter (fun d => String.ltb (doc_id d) p) s ++
           filter (fun d => String.eqb (doc_id d) p) s ++
           filter (fun d => String.ltb p (doc_id d)) s)%list)).
  - now rewrite <- (sorted_three_way p s Hsorted).
  - apply combineDocs_contiguous.
    + intros d Hd E. apply filter_In in Hd. destruct Hd as [_ Hd].
      rewrite E, ltb_irrefl in Hd. discriminate.
    + assumption.
    + intros d Hd. apply filter_In in Hd. destruct Hd as [_ Hd].
      now apply String.eqb_eq.
    + intros d Hd E. apply filter_In in Hd. destruct Hd as [_ Hd].
      rewrite E, ltb_irrefl in Hd. discriminate.
Qed.

(** The passage of [p] is the same for every sorted arrangement of the
    working set, whatever the order the sort leaves between documents that
    compare equal. *)
Lemma combineDocs_any_sorted (p : string) (docs s : list Document)
      (first : Document) (rest : list Document) :
  Permutation (first :: rest) (filter (fun d => String.eqb (doc_id d) p) docs) ->
  StronglySorted (fun a b => sort_id a < sort_id b) (first :: rest) ->
  Permutation docs s ->
  StronglySorted (fun a b => compareDocs a b <= 0) s ->
  filter (fun d => String.eqb (doc_id d) p) (combineDocs s) =
  [withText first (join newline (map text (first :: rest)))].
Proof.
  intros Hperm Hstrict Hs Hsorted.
  assert (Hmem : Permutation (first :: rest)
                             (filter (fun d => String.eqb (doc_id d) p) s)).
  { rewrite Hperm. now apply Permutation_filter. }
  assert (E : filter (fun d => String.eqb (doc_id d) p) s = first :: rest).
  { apply strictly_sorted_unique with (f := sort_id).
    - apply sorted_members_strict; [assumption|].
      apply (Permutation_NoDup (Permutation_map sort_id Hmem)).
      clear - Hstrict. induction Hstrict as [|a l Hl IH Ha]; simpl; constructor.
      + rewrite in_map_iff. intros (b & Eb & Hb).
        rewrite Forall_forall in Ha. specialize (Ha b Hb). lia.
      + assumption.
    - assumption.
    - now symmetry. }
  rewrite combineDocs_sorted by (assumption || (rewrite E; discriminate)).
  rewrite E. reflexivity.
Qed.

(** Sorting an array that is in order leaves it as it is. *)
Lemma sortWith_sorted_id {A} (cmp : A -> A -> Z) (l : list A) :
  StronglySorted (fun a b => cmp a b <= 0) l -> sortWith cmp l = l.
Proof.
  induction 1 as [|a l Hl IH Ha]; simpl; [reflexivity|].
  rewrite IH. now apply insertSorted_least.
Qed.

(** In the sorted array the documents of one id are ascending in
    [sort_id]. *)
Lemma sorted_members_ascending (p : string) (s : list Document) :
  StronglySorted (fun a b => compareDocs a b <= 0) s ->
  StronglySorted (fun a b => sort_id a <= sort_id b)
    (filter (fun d => String.eqb (doc_id d) p) s).
Proof.
  intros Hs.
  apply StronglySorted_impl_In with (R := fun a b => compareDocs a b <= 0).
  - intros a b Ha Hb Hab.
    apply filter_In in Ha, Hb. destruct Ha as [_ Ha], Hb as [_ Hb].
    apply String.eqb_eq in Ha, Hb.
    rewrite compareDocs_same_id in Hab by congruence. lia.
  - now apply StronglySorted_filter.
Qed.

(** The sort is stable: the documents of one id and one [sort_id] keep
    their input order. *)
Lemma sortWith_stable (p : string) (i : Z) (docs : list Document) :
  filter (fun d => sort_id d =? i)
         (filter (fun d => String.eqb (doc_id d) p) (sortWith compareDocs docs))
  = filter (fun d => sort_id d =? i)
           (filter (fun d => String.eqb (doc_id d) p) docs).
Proof.
  rewrite !(filter_sortWith compareDocs compareDocs_total compareDocs_trans).
  apply sortWith_sorted_id.
  set (l := filter (fun d => sort_id d =? i)
                   (filter (fun d => String.eqb (doc_id d) p) docs)).
  assert (H : forall d, In d l -> doc_id d = p /\ sort_id d = i).
  { intros d Hd. unfold l in Hd. apply filter_In in Hd. destruct Hd as [Hd Hi].
    apply filter_In in Hd. destruct Hd as [_ Hp].
    apply String.eqb_eq in Hp. apply Z.eqb_eq in Hi. auto. }
  clearbody l. induction l as [|a l IH]; constructor.
  - apply IH. intros d Hd. apply H. now right.
  - apply Forall_forall. intros b Hb.
    destruct (H a (or_introl eq_refl)) as [Ha1 Ha2].
    destruct (H b (or_intror Hb)) as [Hb1 Hb2].
    rewrite compareDocs_same_id by congruence. lia.
Qed.

(** C7, as stated for any group and any input order, fails: two members
    of one group with the same [sort_id] are joined in their input order,
    so the passage changes with it. *)
Lemma group_merge_equal_indices :
  let chunk (t : string) : Document :=
    {| sort_id := 0; doc_id := "p"; page_number := 1; text := t;
       title := "T"; author := "A"; isbn_number := "I";
       publication_date := 1700000000 |} in
  Permutation [chunk "a"; chunk "b"] [chunk "b"; chunk "a"] /\
  map text (groupMerge [chunk "a"; chunk "b"]) = ["a" ++ newline ++ "b"] /\
  map text (groupMerge [chunk "b"; chunk "a"]) = ["b" ++ newline ++ "a"] /\
  groupMerge [chunk "a"; chunk "b"] <> groupMerge [chunk "b"; chunk "a"].
Proof.
  intros chunk. split; [apply perm_swap | split; [reflexivity | split]].
  - reflexivity.
  - discriminate.
Qed.

(** The two loops of [search] produce such groups: the chunk ids [d1_5]
    and [d1_05] of one record both have [sort_id] 5, as have an id without
    an index suffix and the chunk 0 of its record ([sort_id] 0). *)
Lemma reducer_pushes_equal_indices :
  let md (t : string) :=
    {| md_rec_id := "d1"; md_page_number := 1; md_isbn_number := "I";
       md_text := t; md_title := "T"; md_company_name := "A";
       md_publication_date := 1700000000 |} in
  let hit (id t : string) := {| pc_id := id; pc_metadata := Some (md t) |} in
  let texts (ms : list PCMatch) :=
    option_map (fun docs => map text (groupMerge docs))
               (exactDocuments (snd (unionDedup ms []))) in
  map (fun d => (doc_id d, sort_id d))
      (snd (unionDedup [hit "d1_5" "a"; hit "d1_05" "b"] []))
  = [("d1", Some 5); ("d1", Some 5)] /\
  map (fun d => (doc_id d, sort_id d))
      (snd (unionDedup [hit "d1" "a"; hit "d1_0" "b"] []))
  = [("d1", Some 0); ("d1", Some 0)] /\
  texts [hit "d1_5" "a"; hit "d1_05" "b"] = Some ["a" ++ newline ++ "b"] /\
  texts [hit "d1_05" "b"; hit "d1_5" "a"] = Some ["b" ++ newline ++ "a"].
Proof. intros md hit texts. repeat split. Qed.

(** C7 (amended): let the documents of parent id [p] in the working set
    be non-empty.  The output of the group merger has exactly one passage
    of id [p].  With [first :: rest] the members in ascending [sort_id]
    order, members of equal [sort_id] in their input order, the text of the
    passage is the members' texts joined with a newline in that order, and
    its other fields are those of [first], a member of lowest [sort_id].
    When the members have pairwise distinct [sort_id] the order is strictly
    ascending and the passage is the same for every rearrangement of the
    input, and for every sorted arrangement [unique_docs.sort] may
    produce. *)
Theorem group_merge_passage :
  forall (docs : list Document) (p : string),
    filter (fun d => String.eqb (doc_id d) p) docs <> [] ->
    exists (first : Document) (rest : list Document) (passage : Document),
      Permutation (first :: rest)
                  (filter (fun d => String.eqb (doc_id d) p) docs) /\
      StronglySorted (fun a b => sort_id a <= sort_id b) (first :: rest) /\
      (forall i : Z,
          filter (fun d => sort_id d =? i) (first :: rest) =
          filter (fun d => sort_id d =? i)
                 (filter (fun d => String.eqb (doc_id d) p) docs)) /\
      filter (fun d => String.eqb (doc_id d) p) (groupMerge docs) = [passage] /\
      text passage = join newline (map text (first :: rest)) /\
      doc_id passage = p /\
      sort_id passage = sort_id first /\
      page_number passage = page_number first /\
      title passage = title first /\
      author passage = author first /\
      isbn_number passage = isbn_number first /\
      publication_date passage = publication_date first /\
      (forall d, In d (filter (fun d => String.eqb (doc_id d) p) docs) ->
                 sort_id first <= sort_id d) /\
      (NoDup (map sort_id (filter (fun d => String.eqb (doc_id d) p) docs)) ->
       StronglySorted (fun a b => sort_id a < sort_id b) (first :: rest) /\
       (forall docs' : list Document,
           Permutation docs docs' ->
           filter (fun d => String.eqb (doc_id d) p) (groupMerge docs')
           = [passage]) /\
       (forall s : list Document,
           Permutation docs s ->
           StronglySorted (fun a b => compareDocs a b <= 0) s ->
           filter (fun d => String.eqb (doc_id d) p) (combineDocs s)
           = [passage])).
Proof.
  intros docs p Hne.
  pose proof (sortWith_perm compareDocs docs) as Hperm.
  pose proof (sortWith_sorted compareDocs compareDocs_total compareDocs_trans)
    as Hsorted.
  assert (Hmem : Permutation
                   (filter (fun d => String.eqb (doc_id d) p)
                           (sortWith compareDocs docs))
                   (filter (fun d => String.eqb (doc_id d) p) docs))
    by now apply Permutation_filter.
  pose proof (sorted_members_ascending p _ (Hsorted docs)) as Hasc.
  pose proof (fun i => sortWith_stable p i docs) as Hstable.
  assert (Hsel : filter (fun d => String.eqb (doc_id d) p) (groupMerge docs) =
                 flushGroup (filter (fun d => String.eqb (doc_id d) p)
                                    (sortWith compareDocs docs))).
  { unfold groupMerge. apply combineDocs_sorted; [apply Hsorted|].
    intros E. rewrite E in Hmem. apply Hne.
    apply Permutation_nil. exact Hmem. }
  destruct (filter (fun d => String.eqb (doc_id d) p) (sortWith compareDocs docs))
    as [|first rest] eqn:Es.
  { exfalso. apply Hne. apply Permutation_nil. exact Hmem. }
  assert (Hp : doc_id first = p).
  { assert (Hin : In first (filter (fun d => String.eqb (doc_id d) p)
                                   (sortWith compareDocs docs)))
      by (rewrite Es; simpl; auto).
    apply filter_In in Hin. destruct Hin as [_ Hin].
    now apply String.eqb_eq. }
  exists first, rest, (withText first (join newline (map text (first :: rest)))).
  split; [exact Hmem | split; [exact Hasc | split; [exact Hstable|]]].
  split; [exact Hsel|]. cbn [withText text doc_id sort_id page_number title
                             author isbn_number publication_date].
  do 8 (split; [reflexivity || exact Hp|]). split.
  - intros d Hd. apply (Permutation_in _ (Permutation_sym Hmem)) in Hd.
    destruct Hd as [<-|Hd]; [lia|].
    inversion Hasc as [|? ? _ Hall]; subst.
    rewrite Forall_forall in Hall. now apply Hall.
  - intros Hnd.
    assert (Hstrict : StronglySorted (fun a b => sort_id a < sort_id b)
                        (first :: rest)).
    { apply StronglySorted_strict; [exact Hasc|].
      apply (Permutation_NoDup (l := map sort_id
               (filter (fun d => String.eqb (doc_id d) p) docs)));
        [|assumption].
      apply Permutation_map. now symmetry. }
    assert (Hany : forall s : list Document,
               Permutation docs s ->
               StronglySorted (fun a b => compareDocs a b <= 0) s ->
               filter (fun d => String.eqb (doc_id d) p) (combineDocs s) =
               [withText first (join newline (map text (first :: rest)))]).
    { intros s Hs Hss. now apply combineDocs_any_sorted with (docs := docs). }
    split; [exact Hstrict | split; [|exact Hany]].
    intros docs' Hdocs. apply Hany; [|apply Hsorted].
    rewrite Hdocs. symmetry. apply sortWith_perm.
Qed.

Lemma group_merge_passage_witness :
  let chunk (i : Z) (t : string) : Document :=
    {| sort_id := i; doc_id := "p"; page_number := 1 + i; text := t;
       title := "T"; author := "A"; isbn_number := "I";
       publication_date := 1700000000 |} in
  let other : Document :=
    {| sort_id := 7; doc_id := "q"; page_number := 9; text := "z";
       title := "U"; author := "B"; isbn_number := "J";
       publication_date := 1600000000 |} in
  exists (first : Document) (rest : list Document) (passage : Document),
    Permutation (first :: rest) [chunk 2 "c"; chunk 0 "a"; chunk 1 "b"] /\
    StronglySorted (fun a b => sort_id a <= sort_id b) (first :: rest) /\
    filter (fun d => String.eqb (doc_id d) "p")
           (groupMerge [chunk 2 "c"; other; chunk 0 "a"; chunk 1 "b"])
    = [passage] /\
    text passage = join newline (map text (first :: rest)) /\
    page_number passage = page_number first.
Proof.
  intros chunk other.
  destruct (group_merge_passage
              [chunk 2 "c"; other; chunk 0 "a"; chunk 1 "b"] "p")
    as (first & rest & passage & Hperm & Hasc & _ & Hsel & Htext & _ & _
        & Hpage & _).
  - discriminate.
  - exists first, rest, passage. auto.
Defined.

(** The example of the spec: the chunks [p_2], [p_0], [p_1] of one parent,
    in each of the six input orders. *)
Lemma group_merge_three_chunks (t0 t1 t2 : string) :
  let chunk (i : Z) (t : string) : Document :=
    {| sort_id := i; doc_id := "p"; page_number := 1 + i; text := t;
       title := "T"; author := "A"; isbn_number := "I";
       publication_date := 1700000000 |} in
  let p0 := chunk 0 t0 in
  let p1 := chunk 1 t1 in
  let p2 := chunk 2 t2 in
  Forall (fun docs =>
            map (fun d => (text d, page_number d, sort_id d)) (groupMerge docs)
            = [(t0 ++ newline ++ t1 ++ newline ++ t2, 1, 0)])
         [[p0; p1; p2]; [p0; p2; p1]; [p1; p0; p2];
          [p1; p2; p0]; [p2; p0; p1]; [p2; p1; p0]].
Proof.
  intros chunk p0 p1 p2. repeat constructor.
Qed.

End TextbookFacts.

(* ===================================================================== *)
(** ** Properties of sci_search *)
(* ===================================================================== *)

Module SciFacts.
Import JS JSFacts SciSearch.

Section Search.
Variable Embedding : Type.
Variable embedQuery : string -> Embedding.
Variable pineconeQuery : QueryOptions Embedding -> list PCMatch.
Variable journalsIn : list string -> option (list JournalData).
Variable formatTimestampToYearMonth : Z -> string.

Lemma getMetaLoop_done (doi : list string) (i : nat) (allData : list JournalData) :
  (List.length doi <= i)%nat -> getMetaLoop journalsIn doi i allData = Some allData.
Proof.
  intros H. rewrite getMetaLoop_equation_1.
  destruct (lt_dec i (List.length doi)); [lia | reflexivity].
Qed.

Lemma getMetaLoop_batch (doi : list string) (i : nat) (allData : list JournalData) :
  (i < List.length doi)%nat ->
  getMetaLoop journalsIn doi i allData =
  match journalsIn (slice i (i + batchSize) doi) with
  | Some data => getMetaLoop journalsIn doi (i + batchSize) (allData ++ data)%list
  | None => None
  end.
Proof.
  intros H. rewrite getMetaLoop_equation_1.
  destruct (lt_dec i (List.length doi)); [|lia]. simpl.
  destruct (journalsIn (slice i (i + batchSize) doi)); reflexivity.
Qed.

(** An erroring batch call makes the whole lookup return [null]. *)
Lemma getMetaLoop_error (doi : list string) (j : nat) :
  forall (i : nat) (allData : list JournalData),
    (i + j * batchSize < List.length doi)%nat ->
    journalsIn (slice (i + j * batchSize) (i + j * batchSize + batchSize) doi)
    = None ->
    getMetaLoop journalsIn doi i allData = None.
Proof.
  induction j as [|j IH]; intros i allData Hlt Herr.
  - simpl in Hlt, Herr. rewrite Nat.add_0_r in Hlt, Herr.
    rewrite getMetaLoop_batch by assumption. now rewrite Herr.
  - rewrite Nat.mul_succ_l in Hlt, Herr.
    rewrite getMetaLoop_batch by lia.
    destruct (journalsIn (slice i (i + batchSize) doi)); [|reflexivity].
    apply IH.
    + lia.
    + replace (i + batchSize + j * batchSize)%nat
        with (i + (j * batchSize + batchSize))%nat by lia.
      exact Herr.
Qed.

(** The lookup can return [null] only when it was given an id. *)
Lemma getMeta_None_nonempty (doi : list string) :
  getMeta journalsIn doi = None -> doi <> [].
Proof.
  intros H ->. unfold getMeta in H.
  rewrite getMetaLoop_done in H by (simpl; lia). discriminate H.
Qed.

Lemma uniqueIds_nil (docs : list Doc) : uniqueIds docs <> [] -> docs <> [].
Proof. intros H ->. apply H. reflexivity. Qed.

(** One document without a record makes the whole [map] throw. *)
Lemma docList_missing (pg : option (list JournalData)) (docs : list Doc)
      (doc : Doc) :
  In doc docs -> findRecord pg (doc_id doc) = None ->
  docList pg docs = Throw "Record not found".
Proof.
  induction docs as [|d docs IH]; intros Hin Hnone; [destruct Hin|].
  simpl. destruct Hin as [->|Hin].
  - now rewrite Hnone.
  - destruct (findRecord pg (doc_id d)); [|reflexivity].
    now rewrite (IH Hin Hnone).
Qed.

(** A returned list has one entry per document, each built from that
    document's record. *)
Lemma docList_Ok (pg : option (list JournalData)) (docs : list Doc) :
  forall entries,
    docList pg docs = Ok entries ->
    Forall2 (fun doc e => exists record,
                 findRecord pg (doc_id doc) = Some record /\
                 e = entryOf doc record) docs entries.
Proof.
  induction docs as [|d docs IH]; intros entries H; simpl in H.
  - injection H as <-. constructor.
  - destruct (findRecord pg (doc_id d)) as [r|] eqn:Er; [|discriminate H].
    destruct (docList pg docs) as [es|] eqn:Ed; [|discriminate H].
    injection H as <-. constructor; eauto.
Qed.

(** C8: in [search], with [unique_docs] the documents kept from the
    vector store and [pgResponse] the result of [getMeta]:
    - a document whose DOI has no record in [pgResponse] makes [search]
      throw;
    - an erroring batch call of the relational lookup makes [getMeta]
      return [null], and [search] throws;
    - a list returned by [search] has an entry for every document, each
      with its record: there is no partial list. *)
Theorem missing_record_fails_search :
  forall (semantic_query : string) (k : Z) (filter : option FilterType),
    let unique_docs :=
      uniqueDocs formatTimestampToYearMonth
        (pineconeQuery
           (buildQueryOptions Embedding (embedQuery semantic_query) k filter)) in
    let pgResponse := getMeta journalsIn (uniqueIds unique_docs) in
    let result :=
      search Embedding embedQuery pineconeQuery journalsIn
             formatTimestampToYearMonth semantic_query k filter in
    (forall doc, In doc unique_docs ->
                 findRecord pgResponse (doc_id doc) = None ->
                 result = Throw "Record not found") /\
    (forall j : nat,
        (j * batchSize < List.length (uniqueIds unique_docs))%nat ->
        journalsIn (slice (j * batchSize) (j * batchSize + batchSize)
                          (uniqueIds unique_docs)) = None ->
        pgResponse = None /\ result = Throw "Record not found") /\
    (forall entries,
        result = Ok entries ->
        Forall2 (fun doc e => exists record,
                     findRecord pgResponse (doc_id doc) = Some record /\
                     e = entryOf doc record) unique_docs entries).
Proof.
  intros semantic_query k filter unique_docs pgResponse result.
  assert (Hthrow : forall doc, In doc unique_docs ->
                     findRecord pgResponse (doc_id doc) = None ->
                     result = Throw "Record not found").
  { intros doc Hin Hnone. unfold result, search.
    now apply docList_missing with (doc := doc). }
  split; [exact Hthrow | split].
  - intros j Hlt Herr.
    assert (Hnull : pgResponse = None).
    { unfold pgResponse, getMeta. now apply getMetaLoop_error with (j := j). }
    split; [exact Hnull|].
    assert (Hne : unique_docs <> []).
    { apply uniqueIds_nil. now apply getMeta_None_nonempty. }
    destruct unique_docs as [|doc rest] eqn:E; [contradiction|].
    apply (Hthrow doc); [now left|]. rewrite Hnull. reflexivity.
  - intros entries H. now apply docList_Ok.
Qed.

End Search.

Lemma missing_record_fails_search_witness :
  let matches :=
    [{| pc_metadata :=
          Some {| md_doi := Some "10.1/xyz"; md_date := 1700000000;
                  md_text := "t"; md_journal := "J" |} |}] in
  search unit (fun _ => tt) (fun _ => matches) (fun _ => Some [])
         (fun _ => "2023-11") "q" 5 None = Throw "Record not found" /\
  search unit (fun _ => tt) (fun _ => matches) (fun _ => None)
         (fun _ => "2023-11") "q" 5 None = Throw "Record not found".
Proof.
  intros matches. split.
  - apply (proj1 (missing_record_fails_search unit (fun _ => tt)
                    (fun _ => matches) (fun _ => Some [])
                    (fun _ => "2023-11") "q" 5 None)
                 {| doc_id := "10.1/xyz"; doc_text := "t";
                    doc_journal := "J"; doc_date := "2023-11" |}).
    + left. reflexivity.
    + reflexivity.
  - apply (proj1 (proj2 (missing_record_fails_search unit (fun _ => tt)
                           (fun _ => matches) (fun _ => None)
                           (fun _ => "2023-11") "q" 5 None)) 0%nat).
    + simpl. lia.
    + reflexivity.
Defined.

(** The sibling of [TextbookSearch.buildQueryOptions]: without a filter,
    or with an empty one, the query options have no [filter] property. *)
Lemma sci_query_omits_absent_filter (Embedding : Type) (v : Embedding) (k : Z) :
  qo_filter (buildQueryOptions Embedding v k None) = None /\
  qo_filter (buildQueryOptions Embedding v k
               (Some {| journal := None; date := None |})) = None.
Proof. split; reflexivity. Qed.

End SciFacts.

(* ===================================================================== *)
(** ** Further properties of textbook_search *)
(* ===================================================================== *)

Module TextbookMore.
Import JS JSFacts TextbookSearch TextbookFacts.

(** *** Windows *)

Lemma length_windowIds (p : string) (N k : Z) :
  List.length (windowIds p N k) = Z.to_nat (N + k + 1 - Z.max 0 (N - k)).
Proof. unfold windowIds. now rewrite length_map, length_seq. Qed.

Lemma getIdRange_length_le (id : string) (k : Z) (w : StrSet) :
  getIdRange id k = Returns w ->
  Z.of_nat (List.length w) <= Z.max 0 (2 * k + 1).
Proof.
  intros H. apply getIdRange_Returns in H.
  destruct H as [[_ ->]|(p & ds & N & _ & _ & _ & HN & _ & _ & ->)].
  - simpl. lia.
  - rewrite length_windowIds. pose proof (parseInt_nonneg _ _ HN). lia.
Qed.

(** X1: a window that [getIdRange] returns holds at most [2k+1] ids, and
    none when [k] is negative; on a chunk id [p_ds] of index [N] and
    [k >= 0] with [N + k] below 2^53 the call returns and the window holds
    exactly [min(2k+1, N+k+1)] ids, the lower end being cut at index 0. *)
Theorem getIdRange_size :
  (forall (id : string) (k : Z) (w : StrSet),
      getIdRange id k = Returns w ->
      Z.of_nat (List.length w) <= Z.max 0 (2 * k + 1)) /\
  (forall (id : string) (k : Z) (w : StrSet),
      k < 0 -> getIdRange id k = Returns w -> w = []) /\
  (forall (p ds : string) (N k : Z),
      ds <> "" -> allDigits ds = true -> parseInt ds = Some N ->
      0 <= k -> N + k < maxExact ->
      exists w : StrSet,
        getIdRange (p ++ "_" ++ ds) k = Returns w /\
        Z.of_nat (List.length w) = Z.min (2 * k + 1) (N + k + 1)).
Proof.
  split; [exact getIdRange_length_le | split].
  - intros id k w Hk Hw. pose proof (getIdRange_length_le id k w Hw) as H.
    destruct w; [reflexivity | cbn [List.length] in H; lia].
  - intros p ds N k Hne Hd HN Hk Hb. exists (windowIds p N k).
    split; [now apply getIdRange_app|].
    rewrite length_windowIds. pose proof (parseInt_nonneg _ _ HN). lia.
Qed.

Lemma getIdRange_size_witness :
  (exists w : StrSet, getIdRange "doc123_5" (-1) = Returns w /\ w = []) /\
  exists w : StrSet,
    getIdRange "doc123_1" 3 = Returns w /\
    Z.of_nat (List.length w) = Z.min (2 * 3 + 1) (1 + 3 + 1).
Proof.
  split.
  - exists []. split; [reflexivity|].
    apply (proj1 (proj2 getIdRange_size) "doc123_5" (-1) []);
      [lia | reflexivity].
  - apply (proj2 (proj2 getIdRange_size) "doc123" "1" 1 3);
      [discriminate | reflexivity | reflexivity | lia | reflexivity].
Defined.

Lemma sortIdOf_app (p ds : string) :
  ds <> "" -> allDigits ds = true -> sortIdOf (p ++ "_" ++ ds) = parseInt ds.
Proof.
  intros Hne Hd. unfold sortIdOf.
  change (p ++ "_" ++ ds) with (p ++ String "_" ds).
  now rewrite (matchIndexSuffix_app _ _ Hne Hd).
Qed.

(** X2: every id of a window that [getIdRange] returns is a chunk id of
    the same prefix as the base id: it ends in the decimal form of an
    index [j], [0 <= j < 2^53], that [sortIdOf] reads back, and [j] is
    within [k] of the base index. *)
Theorem getIdRange_ids_parse_back :
  forall (id : string) (k : Z) (w : StrSet) (c : string),
    getIdRange id k = Returns w -> In c w ->
    exists (p ds : string) (N j : Z),
      id = p ++ "_" ++ ds /\
      c = p ++ "_" ++ toString j /\
      0 <= j < maxExact /\
      matchIndexSuffix c = Some (toString j) /\
      sortIdOf id = Some N /\
      sortIdOf c = Some j /\
      N - k <= j <= N + k.
Proof.
  intros id k w c Hw Hc. apply getIdRange_Returns in Hw.
  destruct Hw as [[_ ->]|(p & ds & N & -> & Hne & Hd & HN & _ & Hb & ->)];
    [destruct Hc|].
  apply In_windowIds in Hc. destruct Hc as (j & Hj & ->).
  assert (Hj0 : 0 <= j) by lia.
  destruct (toString_digits j Hj0) as (Hjne & Hjd & _).
  exists p, ds, N, j. repeat split; try lia.
  - change (p ++ "_" ++ toString j) with (p ++ String "_" (toString j)).
    now apply matchIndexSuffix_app.
  - now rewrite sortIdOf_app.
  - rewrite sortIdOf_app by assumption. apply parseInt_toString. lia.
Qed.

Lemma getIdRange_ids_parse_back_witness :
  exists (p ds : string) (N j : Z),
    "doc123_5" = p ++ "_" ++ ds /\
    "doc123_6" = p ++ "_" ++ toString j /\
    0 <= j < maxExact /\
    matchIndexSuffix "doc123_6" = Some (toString j) /\
    sortIdOf "doc123_5" = Some N /\
    sortIdOf "doc123_6" = Some j /\
    N - 1 <= j <= N + 1.
Proof.
  apply (getIdRange_ids_parse_back "doc123_5" 1
           ["doc123_4"; "doc123_5"; "doc123_6"] "doc123_6").
  - reflexivity.
  - simpl. auto.
Defined.

(** X3: for [k >= 0] and a chunk id [p_ds] of index [N] with [N + k] below
    2^53, the chunk id belongs to its own window exactly when [ds] is the
    decimal form of [N], that is without leading zeros; the window is made
    of canonical ids only. *)
Theorem getIdRange_contains_base :
  forall (p ds : string) (N k : Z),
    ds <> "" -> allDigits ds = true -> parseInt ds = Some N ->
    0 <= k -> N + k < maxExact ->
    exists w : StrSet,
      getIdRange (p ++ "_" ++ ds) k = Returns w /\
      (In (p ++ "_" ++ ds) w <-> ds = toString N).
Proof.
  intros p ds N k Hne Hd HN Hk Hb. exists (windowIds p N k).
  split; [now apply getIdRange_app|].
  pose proof (parseInt_nonneg _ _ HN) as H0.
  rewrite In_windowIds. split.
  - intros (j & Hj & E). apply append_inv_head in E. injection E as E.
    assert (Ej : parseInt (toString j) = Some j)
      by (apply parseInt_toString; unfold maxExact in *; lia).
    rewrite <- E in Ej. congruence.
  - intros E. exists N. split; [lia | now rewrite <- E].
Qed.

Lemma getIdRange_contains_base_witness :
  (exists w, getIdRange "doc123_5" 1 = Returns w /\
             (In "doc123_5" w <-> "5" = toString 5)) /\
  (exists w, getIdRange "doc123_005" 1 = Returns w /\
             (In "doc123_005" w <-> "005" = toString 5)).
Proof.
  split.
  - apply (getIdRange_contains_base "doc123" "5" 5 1);
      [discriminate | reflexivity | reflexivity | lia | reflexivity].
  - apply (getIdRange_contains_base "doc123" "005" 5 1);
      [discriminate | reflexivity | reflexivity | lia | reflexivity].
Defined.

(** *** Filters *)

Lemma map_fst_termsConditions (t : FilterType) :
  map fst (termsConditions t) = map fst t.
Proof.
  unfold termsConditions. rewrite map_map. apply map_ext. now intros [f v].
Qed.

Lemma map_fst_rangeConditions (r : DateFilterType) :
  map fst (rangeConditions r) = map fst r.
Proof.
  unfold rangeConditions. rewrite map_map. apply map_ext. now intros [f b].
Qed.

(** X4: the vector-store filter built by [search] has one condition per
    field of the caller's filters, the term fields first and the range
    fields after them, each group in the caller's order; a term field
    becomes an [$in] condition on the caller's values. *)
Theorem vector_filter_fields :
  forall (filter : option FilterType) (datefilter : option DateFilterType),
    map fst (pc_and (filterToPCQuery (buildFilters filter datefilter)))
    = (map fst (orElse filter []) ++ map fst (orElse datefilter []))%list /\
    forall (field : string) (values : list string),
      In (field, values) (orElse filter []) ->
      In (field, {| pc_in := Some values; pc_gte := None; pc_lte := None |})
         (pc_and (filterToPCQuery (buildFilters filter datefilter))).
Proof.
  intros filter datefilter. split.
  - destruct filter as [t|], datefilter as [r|]; simpl;
      unfold itemConditions; simpl;
      rewrite ?app_nil_r, ?map_app,
        ?map_fst_termsConditions, ?map_fst_rangeConditions;
      reflexivity.
  - intros field values Hin.
    destruct filter as [t|]; [|destruct Hin].
    assert (H : In (field, {| pc_in := Some values; pc_gte := None;
                              pc_lte := None |}) (termsConditions t)).
    { unfold termsConditions. apply in_map_iff. exists (field, values). auto. }
    destruct datefilter as [r|]; simpl; unfold itemConditions; simpl;
      rewrite ?app_nil_r; repeat (apply in_or_app; left); exact H.
Qed.

Lemma vector_filter_fields_witness :
  In ("isbn_number", {| pc_in := Some ["1"; "2"]; pc_gte := None; pc_lte := None |})
     (pc_and (filterToPCQuery
                (buildFilters (Some [("isbn_number", ["1"; "2"])])
                              (Some [("publication_date",
                                      {| gte := Some 5; lte := None |})])))).
Proof.
  apply (proj2 (vector_filter_fields
                  (Some [("isbn_number", ["1"; "2"])])
                  (Some [("publication_date", {| gte := Some 5; lte := None |})]))).
  left. reflexivity.
Defined.

(** X5: a range field none of whose bounds is truthy (each absent or zero)
    is still translated: the vector-store filter gets a condition on that
    field with no operator at all. *)
Theorem range_without_bounds_gives_empty_condition :
  forall (filters : FiltersType) (item : FiltersItem) (r : DateFilterType)
         (field : string) (b : RangeBound),
    In item filters -> range item = Some r -> In (field, b) r ->
    (gte b = None \/ gte b = Some 0) ->
    (lte b = None \/ lte b = Some 0) ->
    In (field, {| pc_in := None; pc_gte := None; pc_lte := None |})
       (pc_and (filterToPCQuery filters)).
Proof.
  intros filters item r field b Hitem Hr Hin Hg Hl.
  unfold filterToPCQuery. simpl. apply in_flat_map.
  exists item. split; [assumption|].
  pose proof (In_itemConditions_range item r field b Hr Hin) as H.
  assert (Eg : truthyBound (gte b) = None) by (destruct Hg as [->| ->]; reflexivity).
  assert (El : truthyBound (lte b) = None) by (destruct Hl as [->| ->]; reflexivity).
  now rewrite Eg, El in H.
Qed.

Lemma range_without_bounds_gives_empty_condition_witness :
  In ("publication_date", {| pc_in := None; pc_gte := None; pc_lte := None |})
     (pc_and (filterToPCQuery
                [{| terms := None;
                    range := Some [("publication_date",
                                    {| gte := Some 0; lte := None |})] |}])).
Proof.
  apply (range_without_bounds_gives_empty_condition
           [{| terms := None;
               range := Some [("publication_date",
                               {| gte := Some 0; lte := None |})] |}]
           {| terms := None;
              range := Some [("publication_date",
                              {| gte := Some 0; lte := None |})] |}
           [("publication_date", {| gte := Some 0; lte := None |})]
           "publication_date" {| gte := Some 0; lte := None |}).
  - left. reflexivity.
  - reflexivity.
  - left. reflexivity.
  - right. reflexivity.
  - left. reflexivity.
Defined.

(** X6: the keyword query carries the caller's filters as they are, the
    terms object first and the range object second; so a range bound of
    zero reaches the keyword store while the vector-store condition of the
    same field has lost it. *)
Theorem keyword_filter_is_verbatim :
  forall (Embedding : Type) (searchVector : Embedding)
         (full_text_query : list string) (k : Z)
         (filter : option FilterType) (datefilter : option DateFilterType),
    os_filter (query (buildBody full_text_query k (buildFilters filter datefilter)))
    = Some ((match filter with
             | Some t => [{| terms := Some t; range := None |}]
             | None => []
             end) ++
            (match datefilter with
             | Some r => [{| terms := None; range := Some r |}]
             | None => []
             end))%list /\
    forall (r : DateFilterType) (field : string) (b : RangeBound),
      datefilter = Some r -> In (field, b) r -> gte b = Some 0 ->
      (exists item r',
          os_filter (query (buildBody full_text_query k
                                      (buildFilters filter datefilter)))
          = Some (buildFilters filter datefilter) /\
          In item (buildFilters filter datefilter) /\
          range item = Some r' /\ In (field, b) r') /\
      (exists c,
          qo_filter (buildQueryOptions searchVector k
                                       (buildFilters filter datefilter))
          = Some (filterToPCQuery (buildFilters filter datefilter)) /\
          In (field, c) (pc_and (filterToPCQuery (buildFilters filter datefilter))) /\
          pc_in c = None /\ pc_gte c = None).
Proof.
  intros Embedding searchVector full_text_query k filter datefilter. split.
  - destruct filter, datefilter; reflexivity.
  - intros r field b -> Hin Hg.
    assert (Hitem : In {| terms := None; range := Some r |}
                       (buildFilters filter (Some r))).
    { destruct filter; simpl; auto. }
    split.
    + exists {| terms := None; range := Some r |}, r. auto.
    + exists {| pc_in := None; pc_gte := truthyBound (gte b);
                pc_lte := truthyBound (lte b) |}.
      split; [reflexivity | split; [|split; [reflexivity|]]].
      * unfold filterToPCQuery. cbn [pc_and]. apply in_flat_map.
        exists {| terms := None; range := Some r |}. split; [assumption|].
        now apply In_itemConditions_range with (r := r).
      * simpl. now rewrite Hg.
Qed.

Lemma keyword_filter_is_verbatim_witness :
  (exists item r',
      In item (buildFilters None
                 (Some [("publication_date", {| gte := Some 0; lte := None |})])) /\
      range item = Some r' /\
      In ("publication_date", {| gte := Some 0; lte := None |}) r') /\
  (exists c,
      In ("publication_date", c)
         (pc_and (filterToPCQuery
                    (buildFilters None
                       (Some [("publication_date",
                               {| gte := Some 0; lte := None |})])))) /\
      pc_gte c = None).
Proof.
  destruct (proj2 (keyword_filter_is_verbatim unit tt ["q"] 5 None
                     (Some [("publication_date", {| gte := Some 0; lte := None |})]))
                  [("publication_date", {| gte := Some 0; lte := None |})]
                  "publication_date" {| gte := Some 0; lte := None |}
                  eq_refl (or_introl eq_refl) eq_refl)
    as [(item & r' & _ & Hi & Hr & Hb) (c & _ & Hc & _ & Hg)].
  split.
  - exists item, r'. auto.
  - exists c. auto.
Defined.

(** *** Union and deduplication *)




Lemma NoDup_fold_add (l : list string) (s : StrSet) :
  NoDup s -> NoDup (fold_left (fun s x => add x s) l s).
Proof.
  revert s. induction l as [|x l IH]; intros s Hs; simpl; [assumption|].
  apply IH. now apply NoDup_add.
Qed.

(** X8: the seen set after the two loops is a set (no id twice) that holds
    exactly the chunk ids returned by either backend, with or without
    metadata. *)
Theorem id_set_is_union :
  forall (ms : list PCMatch) (hs : list OSHit),
    NoDup (fst (unionDedup ms hs)) /\
    forall x : string,
      In x (fst (unionDedup ms hs)) <->
      In x (map pc_id ms) \/ In x (map os_id hs).
Proof.
  intros ms hs. split; [|intros x; apply In_idset].
  rewrite unionDedup_trace. cbn [fst].
  destruct (unionDedupT_shape ms hs) as (K & E & _). rewrite E. cbn [fst].
  apply NoDup_fold_add, NoDup_fold_add. constructor.
Qed.

(** X9: the reducer pushes at most one document per backend hit: the
    documents number at most the similarity hits plus the keyword hits, and
    exactly the similarity hits that carry metadata when the keyword
    backend returns nothing. *)
Theorem unionDedup_size :
  forall (ms : list PCMatch) (hs : list OSHit),
    (List.length (snd (unionDedup ms hs)) <= List.length ms + List.length hs)%nat /\
    snd (unionDedup ms []) = map documentOf (flat_map similarityHits ms).
Proof.
  intros ms hs. split.
  - rewrite unionDedup_trace. cbn [snd]. rewrite length_map.
    destruct (unionDedupT_shape ms hs) as (K & E & HK & Hnd). rewrite E.
    cbn [snd]. rewrite length_app.
    assert (H1 : (List.length (flat_map similarityHits ms) <= List.length ms)%nat).
    { clear. induction ms as [|m ms IH]; simpl; [lia|].
      rewrite length_app. unfold similarityHits at 1.
      destruct (pc_metadata m); simpl; lia. }
    assert (H2 : (List.length K <= List.length hs)%nat).
    { rewrite <- (length_map chunkId K), <- (length_map os_id hs).
      apply NoDup_incl_length; [assumption|].
      intros x Hx. apply in_map_iff in Hx. destruct Hx as (h & <- & Hh).
      destruct (HK h Hh) as (o & Ho & -> & _). simpl. now apply in_map. }
    lia.
  - rewrite unionDedup_trace. cbn [snd]. f_equal.
    unfold unionDedupT. rewrite pinecone_fold. reflexivity.
Qed.

(** *** Context expansion *)

Lemma length_add (x : string) (s : StrSet) :
  (List.length (add x s) <= S (List.length s))%nat.
Proof.
  unfold add. destruct (has x s); [lia|]. rewrite length_app. simpl. lia.
Qed.

Lemma length_fold_add (l : list string) (s : StrSet) :
  (List.length (fold_left (fun ext' id' => add id' ext') l s)
   <= List.length s + List.length l)%nat.
Proof.
  revert s. induction l as [|x l IH]; intros s; simpl; [lia|].
  specialize (IH (add x s)). pose proof (length_add x s). lia.
Qed.

Local Abbreviation addWindow k :=
  (fun (ext : StrSet) (id : string) =>
     bind (getIdRange id k)
          (fun idRange =>
             Returns (fold_left (fun ext' id' => add id' ext') idRange ext))).

Lemma length_fold_windows (k : Z) (ids : list string) :
  forall s r : StrSet,
    0 <= k ->
    foldOutcome (addWindow k) ids s = Returns r ->
    Z.of_nat (List.length r)
    <= Z.of_nat (List.length s) + (2 * k + 1) * Z.of_nat (List.length ids).
Proof.
  induction ids as [|x ids IH]; intros s r Hk H; cbn [foldOutcome] in H.
  - injection H as <-. simpl. lia.
  - destruct (getIdRange x k) as [w| |] eqn:Ew; cbn [bind] in H;
      try discriminate.
    specialize (IH _ _ Hk H).
    pose proof (length_fold_add w s).
    pose proof (getIdRange_length_le x k w Ew).
    cbn [List.length]. nia.
Qed.

Lemma length_fold_delete (ids : list string) (s : StrSet) :
  (List.length (fold_left (fun ext id => delete id ext) ids s)
   <= List.length s)%nat.
Proof.
  revert s. induction ids as [|x ids IH]; intros s; simpl; [lia|].
  specialize (IH (delete x s)).
  pose proof (filter_length_le (fun y => negb (String.eqb x y)) s).
  unfold delete in *. lia.
Qed.

Lemma NoDup_fold_windows (k : Z) (ids : list string) :
  forall s r : StrSet,
    NoDup s -> foldOutcome (addWindow k) ids s = Returns r -> NoDup r.
Proof.
  induction ids as [|x ids IH]; intros s r Hs H; cbn [foldOutcome] in H.
  - now injection H as <-.
  - destruct (getIdRange x k) as [w| |] eqn:Ew; cbn [bind] in H;
      try discriminate.
    apply (IH _ _ (NoDup_fold_add w s Hs) H).
Qed.

Lemma NoDup_fold_delete (ids : list string) (s : StrSet) :
  NoDup s -> NoDup (fold_left (fun ext id => delete id ext) ids s).
Proof.
  revert s. induction ids as [|x ids IH]; intros s Hs; simpl; [assumption|].
  apply IH. unfold delete. now apply NoDup_filter.
Qed.

(** X10: the ids sent to [mget] are pairwise distinct and number at most
    [2 extK + 1] per seen id. *)
Theorem expansion_request_size :
  forall (id_set : StrSet) (extK : Z) (ids : StrSet),
    0 <= extK ->
    extendIds id_set extK = Returns ids ->
    NoDup ids /\
    Z.of_nat (List.length ids)
    <= (2 * extK + 1) * Z.of_nat (List.length id_set).
Proof.
  intros id_set extK ids Hk H. apply extendIds_Returns in H.
  destruct H as (r & Hr & ->). split.
  - apply NoDup_fold_delete. apply (NoDup_fold_windows _ _ _ _ (NoDup_nil _) Hr).
  - pose proof (length_fold_delete id_set r) as H1.
    pose proof (length_fold_windows extK id_set [] r Hk Hr) as H2.
    simpl List.length in H2. lia.
Qed.

Lemma expansion_request_size_witness :
  exists ids : StrSet,
    extendIds ["d1_0"; "d1_1"; "d2_5"] 2 = Returns ids /\
    NoDup ids /\
    Z.of_nat (List.length ids)
    <= (2 * 2 + 1) * Z.of_nat (List.length ["d1_0"; "d1_1"; "d2_5"]).
Proof.
  eexists. split; [vm_compute; reflexivity|].
  apply (expansion_request_size ["d1_0"; "d1_1"; "d2_5"] 2);
    [lia | vm_compute; reflexivity].
Defined.

(** X11: seen ids without an index suffix ask for nothing: when no seen id
    ends in [_] and digits, the expansion requests no id. *)
Theorem expansion_needs_index_suffix :
  forall (id_set : StrSet) (extK : Z),
    (forall id, In id id_set -> matchIndexSuffix id = None) ->
    extendIds id_set extK = Returns [].
Proof.
  intros id_set extK H.
  assert (Hret : exists ids, extendIds id_set extK = Returns ids).
  { apply extendIds_returns. intros id Hid. exists [].
    apply getIdRange_no_suffix. now apply H. }
  destruct Hret as (ids & E). rewrite E. f_equal.
  destruct ids as [|c l]; [reflexivity|].
  assert (Hc : In c (c :: l)) by (simpl; auto).
  apply (In_extendIds _ _ _ E) in Hc.
  destruct Hc as [(id & w & Hid & Hw & Hc) _].
  rewrite (getIdRange_no_suffix _ _ (H id Hid)) in Hw.
  injection Hw as <-. destruct Hc.
Qed.

Lemma expansion_needs_index_suffix_witness :
  extendIds ["intro"; "chapter_one"; "x_"] 3 = Returns [].
Proof.
  apply (expansion_needs_index_suffix ["intro"; "chapter_one"; "x_"] 3).
  intros id [<-|[<-|[<-|[]]]]; reflexivity.
Defined.

(** *** The whole of [search] *)

Section SearchFacts.
Variable Embedding : Type.
Variable embedQuery : string -> Embedding.
Variable pineconeQuery : QueryOptions Embedding -> list PCMatch.
Variable opensearchSearch : OSBody -> list OSHit.
Variable formatTimestampToDate : Z -> string.

(** X12: when [extK] is not positive [search] does not depend on what
    [mget] would answer; and when [mget] reports none of the ids that the
    expansion requests as found, the answer is the one of the search
    without expansion: missing neighbours are not an error and add
    nothing.  The store may hold documents for other ids. *)
Theorem search_without_found_neighbours :
  forall (opensearchMget opensearchMget' : list string -> list MgetDoc)
         (semantic_query : string) (full_text_query : list string)
         (k extK : Z) (filter : option FilterType)
         (datefilter : option DateFilterType),
    (extK <= 0 \/
     exists ids : list string,
       expansionRequest
         (fst (unionDedup
                 (pineconeQuery
                    (buildQueryOptions (embedQuery semantic_query) k
                                       (buildFilters filter datefilter)))
                 (opensearchSearch
                    (buildBody full_text_query k
                               (buildFilters filter datefilter)))))
         extK = Returns (Some ids) /\
       forall d, In d (opensearchMget ids) -> mg_found d = false) ->
    search Embedding embedQuery pineconeQuery opensearchSearch opensearchMget
           formatTimestampToDate semantic_query full_text_query k extK
           filter datefilter
    = search Embedding embedQuery pineconeQuery opensearchSearch opensearchMget'
             formatTimestampToDate semantic_query full_text_query k 0
             filter datefilter.
Proof.
  intros mget mget' q kws k extK f d H. unfold search.
  destruct (unionDedup _ _) as [id_set docs]. cbn [fst] in H.
  f_equal. unfold expandDocs.
  change (expansionRequest id_set 0) with (@Returns (option (list string)) None).
  cbn [bind].
  destruct H as [H|(ids & E & H)].
  - unfold expansionRequest. destruct (Z.gtb_spec extK 0); [lia | reflexivity].
  - rewrite E. cbn [bind]. unfold filter_found.
    rewrite (filter_none mg_found (mget ids)) by exact H.
    simpl. now rewrite app_nil_r.
Qed.
End SearchFacts.

Lemma search_without_found_neighbours_witness :
  let md := {| md_rec_id := "d1"; md_page_number := 3; md_isbn_number := "i";
               md_text := "a"; md_title := "t"; md_company_name := "c";
               md_publication_date := 1700000000 |} in
  let src := {| src_rec_id := "d9"; src_page_number := 4; src_isbn_number := "i";
                src_text := "b"; src_title := "t"; src_author := "a";
                src_publication_date := 1700000000 |} in
  let mget (ids : list string) :=
    map (fun id => {| mg_id := id; mg_found := String.eqb id "d9_9";
                      mg_source := src |}) ids in
  map mg_found (mget ["d9_9"]) = [true] /\
  search unit (fun _ => tt)
         (fun _ => [{| pc_id := "d1_0"; pc_metadata := Some md |}])
         (fun _ => []) mget (fun _ => "2023-11-14") "q" ["q"] 5 2 None None
  = search unit (fun _ => tt)
           (fun _ => [{| pc_id := "d1_0"; pc_metadata := Some md |}])
           (fun _ => []) (fun _ => []) (fun _ => "2023-11-14") "q" ["q"] 5 0
           None None.
Proof.
  intros md src mget. split; [reflexivity|].
  apply (search_without_found_neighbours unit (fun _ => tt)
           (fun _ => [{| pc_id := "d1_0"; pc_metadata := Some md |}])
           (fun _ => []) (fun _ => "2023-11-14") mget (fun _ => [])).
  right. exists ["d1_1"; "d1_2"]. split; [reflexivity|].
  intros d [<-|[<-|[]]]; reflexivity.
Defined.

(** *** The group merger *)

Lemma closeGroups_prefix (l : list Document) :
  forall (pre cd cg : list Document) (cur : option string),
    closeGroups (fold_left groupStep l
                   {| combinedDocs := (pre ++ cd)%list;
                      currentGroup := cg; currentId := cur |})
    = (pre ++ closeGroups (fold_left groupStep l
                             {| combinedDocs := cd;
                                currentGroup := cg; currentId := cur |}))%list.
Proof.
  induction l as [|d l IH]; intros pre cd cg cur.
  - unfold closeGroups. simpl. now rewrite app_assoc.
  - cbn [fold_left]. unfold groupStep. cbn [currentId combinedDocs currentGroup].
    destruct (differsFrom (doc_id d) cur).
    + rewrite <- app_assoc. apply IH.
    + apply IH.
Qed.

(** A leading run of one id is flushed as one passage, before the rest. *)
Lemma combineDocs_split (p : string) (d : Document) (g l2 : list Document) :
  (forall d', In d' (d :: g) -> doc_id d' = p) ->
  (forall d2 l2', l2 = d2 :: l2' -> doc_id d2 <> p) ->
  combineDocs ((d :: g) ++ l2) = (flushGroup (d :: g) ++ combineDocs l2)%list.
Proof.
  intros Hg H2. unfold combineDocs. rewrite fold_left_app.
  rewrite (run_group p d g); [|simpl; discriminate | assumption].
  cbn [combinedDocs currentGroup].
  change (flushGroup []) with (@nil Document). cbn [app].
  destruct l2 as [|d2 l2'].
  - unfold closeGroups. cbn [fold_left combinedDocs currentGroup app].
    now rewrite app_nil_r.
  - cbn [fold_left].
    assert (E1 : groupStep {| combinedDocs := []; currentGroup := d :: g;
                              currentId := Some p |} d2
                 = {| combinedDocs := (flushGroup (d :: g) ++ [])%list;
                      currentGroup := [d2];
                      currentId := Some (doc_id d2) |}).
    { unfold groupStep. cbn [currentId combinedDocs currentGroup].
      rewrite differsFrom_true
        by (intros [= E]; apply (H2 d2 l2' eq_refl); now rewrite E).
      cbn [app]. now rewrite app_nil_r. }
    rewrite E1. rewrite closeGroups_prefix. reflexivity.
Qed.

Lemma combineDocs_nonempty (d : Document) (l : list Document) :
  combineDocs (d :: l) <> [].
Proof.
  unfold combineDocs. cbn [fold_left].
  assert (H : forall l st, currentGroup st <> [] ->
                           currentGroup (fold_left groupStep l st) <> []).
  { clear. induction l as [|x l IH]; intros st Hst; simpl; [assumption|].
    apply IH. unfold groupStep.
    destruct (differsFrom (doc_id x) (currentId st)); simpl; [discriminate|].
    destruct (currentGroup st); [contradiction | discriminate]. }
  specialize (H l (groupStep {| combinedDocs := []; currentGroup := [];
                                currentId := None |} d)).
  unfold closeGroups.
  destruct (currentGroup (fold_left groupStep l _)) as [|x g] eqn:E.
  - exfalso. apply H; [cbn; discriminate | reflexivity].
  - intros Habs. apply app_eq_nil in Habs. destruct Habs as [_ Habs].
    discriminate Habs.
Qed.

(** The head of a sorted array: its group is flushed first, the documents
    of larger ids follow. *)
Lemma sorted_head_split (a : Document) (s : list Document) :
  StronglySorted (fun x y => compareDocs x y <= 0) (a :: s) ->
  a :: s = (filter (fun d => String.eqb (doc_id d) (doc_id a)) (a :: s) ++
            filter (fun d => String.ltb (doc_id a) (doc_id d)) (a :: s))%list /\
  combineDocs (a :: s)
  = (flushGroup (filter (fun d => String.eqb (doc_id d) (doc_id a)) (a :: s)) ++
     combineDocs (filter (fun d => String.ltb (doc_id a) (doc_id d)) (a :: s)))%list.
Proof.
  intros Hs.
  pose proof (sorted_three_way (doc_id a) (a :: s) Hs) as E3.
  assert (Hlt : filter (fun d => String.ltb (doc_id d) (doc_id a)) (a :: s) = []).
  { apply filter_none. intros d [<-|Hd]; [apply ltb_irrefl|].
    inversion Hs as [|? ? _ Ha]; subst. rewrite Forall_forall in Ha.
    specialize (Ha d Hd). apply compareDocs_le in Ha.
    destruct Ha as [Ha|[Ha _]]; [now apply ltb_asym|].
    rewrite Ha. apply ltb_irrefl. }
  rewrite Hlt in E3. cbn [app] in E3. split; [exact E3|].
  set (g := filter (fun d => String.eqb (doc_id d) (doc_id a)) (a :: s)) in *.
  set (l2 := filter (fun d => String.ltb (doc_id a) (doc_id d)) (a :: s)) in *.
  rewrite E3 at 1.
  assert (Eg : g = a :: filter (fun d => String.eqb (doc_id d) (doc_id a)) s)
    by (unfold g; cbn [filter]; now rewrite String.eqb_refl).
  rewrite Eg. apply combineDocs_split with (p := doc_id a).
  - intros d' [<-|Hd']; [reflexivity|].
    apply filter_In in Hd'. destruct Hd' as [_ Hd']. now apply String.eqb_eq.
  - intros d2 l2' E Habs.
    assert (Hin : In d2 l2) by (rewrite E; simpl; auto).
    apply filter_In in Hin. destruct Hin as [_ Hin].
    rewrite Habs, ltb_irrefl in Hin. discriminate.
Qed.

Lemma filter_gt_shorter (a : Document) (s : list Document) :
  (List.length (filter (fun d => String.ltb (doc_id a) (doc_id d)) (a :: s))
   <= List.length s)%nat.
Proof.
  cbn [filter]. rewrite ltb_irrefl. apply filter_length_le.
Qed.

(** On a sorted array the passages come out with strictly ascending ids,
    all of them ids of the array. *)
Lemma combineDocs_ids_sorted (n : nat) :
  forall s : list Document,
    (List.length s <= n)%nat ->
    StronglySorted (fun x y => compareDocs x y <= 0) s ->
    StronglySorted (fun x y => String.ltb (doc_id x) (doc_id y) = true)
                   (combineDocs s) /\
    (forall x, In x (combineDocs s) -> In (doc_id x) (map doc_id s)).
Proof.
  induction n as [|n IH]; intros s Hlen Hs.
  - destruct s; [|simpl in Hlen; lia]. split; [constructor | intros x []].
  - destruct s as [|a s]; [split; [constructor | intros x []]|].
    destruct (sorted_head_split a s Hs) as [_ E].
    set (l2 := filter (fun d => String.ltb (doc_id a) (doc_id d)) (a :: s)) in *.
    destruct (IH l2) as [IHs IHin].
    { pose proof (filter_gt_shorter a s). simpl in Hlen. unfold l2. lia. }
    { now apply StronglySorted_filter. }
    assert (Hl2 : forall x, In x (combineDocs l2) ->
                            String.ltb (doc_id a) (doc_id x) = true).
    { intros x Hx. apply IHin in Hx. apply in_map_iff in Hx.
      destruct Hx as (d & Ed & Hd). apply filter_In in Hd.
      rewrite <- Ed. tauto. }
    rewrite E. cbn [filter]. rewrite String.eqb_refl. cbn [flushGroup app].
    split.
    + constructor; [assumption|]. apply Forall_forall. exact Hl2.
    + intros x [<-|Hx]; [simpl; auto|].
      apply IHin in Hx. apply in_map_iff in Hx. destruct Hx as (d & Ed & Hd).
      apply filter_In in Hd. rewrite <- Ed. apply in_map. tauto.
Qed.

Lemma combineDocs_no_members (p : string) (s : list Document) :
  (forall d, In d s -> doc_id d <> p) ->
  filter (fun d => String.eqb (doc_id d) p) (combineDocs s) = [].
Proof.
  intros H. unfold combineDocs.
  destruct (run_foreign p s {| combinedDocs := []; currentGroup := [];
                               currentId := None |}) as (_ & E & _).
  - left. auto.
  - assumption.
  - rewrite E. reflexivity.
Qed.

(** X13: the group merger returns one passage per parent id: the ids of
    its output are strictly ascending (hence pairwise distinct) and are
    exactly the ids of its input. *)
Theorem groupMerge_one_passage_per_id :
  forall docs : list Document,
    StronglySorted (fun x y => String.ltb (doc_id x) (doc_id y) = true)
                   (groupMerge docs) /\
    NoDup (map doc_id (groupMerge docs)) /\
    forall p : string,
      In p (map doc_id (groupMerge docs)) <-> In p (map doc_id docs).
Proof.
  intros docs.
  pose proof (sortWith_perm compareDocs docs) as Hperm.
  pose proof (sortWith_sorted compareDocs compareDocs_total compareDocs_trans docs)
    as Hsorted.
  destruct (combineDocs_ids_sorted _ _ (le_n _) Hsorted) as [Hs Hin].
  fold (groupMerge docs) in Hs, Hin.
  split; [exact Hs | split].
  - clear - Hs. induction Hs as [|x l Hl IH Hx]; simpl; constructor; [|assumption].
    rewrite in_map_iff. intros (y & E & Hy).
    rewrite Forall_forall in Hx. specialize (Hx y Hy).
    rewrite E, ltb_irrefl in Hx. discriminate.
  - intros p. split.
    + intros Hp. apply in_map_iff in Hp. destruct Hp as (x & <- & Hx).
      apply Hin in Hx. apply in_map_iff in Hx. destruct Hx as (d & <- & Hd).
      apply in_map. now apply (Permutation_in _ Hperm).
    + intros Hp. apply in_map_iff in Hp. destruct Hp as (d & <- & Hd).
      assert (Hne : filter (fun x => String.eqb (doc_id x) (doc_id d))
                           (sortWith compareDocs docs) <> []).
      { intros E.
        assert (H : In d (filter (fun x => String.eqb (doc_id x) (doc_id d))
                                 (sortWith compareDocs docs))).
        { apply filter_In. split.
          - now apply (Permutation_in _ (Permutation_sym Hperm)).
          - apply String.eqb_refl. }
        rewrite E in H. destruct H. }
      pose proof (combineDocs_sorted (doc_id d) _ Hsorted Hne) as E.
      fold (groupMerge docs) in E.
      destruct (filter (fun x => String.eqb (doc_id x) (doc_id d))
                       (sortWith compareDocs docs)) as [|f g] eqn:Ef;
        [contradiction|].
      cbn [flushGroup] in E.
      assert (H : In (withText f (join newline (map text (f :: g))))
                     (filter (fun x => String.eqb (doc_id x) (doc_id d))
                             (groupMerge docs))) by (rewrite E; simpl; auto).
      apply filter_In in H. destruct H as [H1 H2].
      apply String.eqb_eq in H2. rewrite <- H2. now apply in_map.
Qed.


Lemma withText_same (d : Document) : withText d (text d) = d.
Proof. now destruct d. Qed.

(** Documents of pairwise different, ascending ids are passages already. *)
Lemma combineDocs_distinct_ids (l : list Document) :
  StronglySorted (fun x y => String.ltb (doc_id x) (doc_id y) = true) l ->
  combineDocs l = l.
Proof.
  induction 1 as [|a l Hl IH Ha]; [reflexivity|].
  change (a :: l) with ([a] ++ l)%list.
  rewrite (combineDocs_split (doc_id a) a [] l).
  - rewrite IH. cbn. now rewrite withText_same.
  - intros d' [<-|[]]. reflexivity.
  - intros d2 l2' -> E. inversion Ha as [|? ? H _]; subst.
    rewrite E, ltb_irrefl in H. discriminate.
Qed.

(** X14: merging is idempotent: the group merger run on its own output
    returns that output. *)
Theorem groupMerge_idempotent :
  forall docs : list Document, groupMerge (groupMerge docs) = groupMerge docs.
Proof.
  intros docs.
  pose proof (sortWith_sorted compareDocs compareDocs_total compareDocs_trans docs)
    as Hsorted.
  destruct (combineDocs_ids_sorted _ _ (le_n _) Hsorted) as [Hs _].
  fold (groupMerge docs) in Hs.
  unfold groupMerge at 1. rewrite sortWith_sorted_id.
  - now apply combineDocs_distinct_ids.
  - eapply StronglySorted_impl_In; [|exact Hs].
    intros a b _ _ Hab. apply compareDocs_le. now left.
Qed.

Lemma join_app (sep : string) (l1 l2 : list string) :
  l1 <> [] -> l2 <> [] ->
  join sep (l1 ++ l2) = join sep l1 ++ sep ++ join sep l2.
Proof.
  unfold join. induction l1 as [|x l1 IH]; intros H1 H2; [contradiction|].
  destruct l1 as [|y l1].
  - destruct l2; [contradiction | reflexivity].
  - change (String.concat sep ((x :: y :: l1) ++ l2))
      with (x ++ sep ++ String.concat sep ((y :: l1) ++ l2)).
    rewrite IH by (assumption || discriminate).
    change (String.concat sep (x :: y :: l1))
      with (x ++ sep ++ String.concat sep (y :: l1)).
    now rewrite !append_assoc.
Qed.

Lemma combineDocs_text (n : nat) :
  forall s : list Document,
    (List.length s <= n)%nat ->
    StronglySorted (fun x y => compareDocs x y <= 0) s ->
    join newline (map text (combineDocs s)) = join newline (map text s).
Proof.
  induction n as [|n IH]; intros s Hlen Hs.
  - destruct s; [reflexivity | simpl in Hlen; lia].
  - destruct s as [|a s]; [reflexivity|].
    destruct (sorted_head_split a s Hs) as [Esplit E].
    set (g := filter (fun d => String.eqb (doc_id d) (doc_id a)) (a :: s)) in *.
    set (l2 := filter (fun d => String.ltb (doc_id a) (doc_id d)) (a :: s)) in *.
    assert (Eg : g = a :: filter (fun d => String.eqb (doc_id d) (doc_id a)) s)
      by (unfold g; cbn [filter]; now rewrite String.eqb_refl).
    assert (IH2 : join newline (map text (combineDocs l2))
                  = join newline (map text l2)).
    { apply IH.
      - pose proof (filter_gt_shorter a s). simpl in Hlen. unfold l2. lia.
      - now apply StronglySorted_filter. }
    rewrite E, Esplit, !map_app.
    destruct l2 as [|d2 l2'] eqn:El2.
    + change (combineDocs []) with (@nil Document).
      cbn [map]. rewrite !app_nil_r. rewrite Eg. reflexivity.
    + rewrite (join_app _ (map text g)) by (rewrite ?Eg; discriminate).
      rewrite <- IH2. rewrite Eg. cbn [flushGroup map app].
      pose proof (combineDocs_nonempty d2 l2') as Hne.
      destruct (combineDocs (d2 :: l2')) as [|c cs]; [contradiction|].
      reflexivity.
Qed.

(** X15: merging neither loses nor repeats text: the passages' texts,
    joined with a newline, are the texts of all the documents of the sorted
    array joined with a newline. *)
Theorem groupMerge_keeps_all_text :
  forall docs : list Document,
    join newline (map text (groupMerge docs))
    = join newline (map text (sortWith compareDocs docs)) /\
    Permutation (sortWith compareDocs docs) docs.
Proof.
  intros docs. split.
  - apply (combineDocs_text _ _ (le_n _)).
    apply sortWith_sorted; [apply compareDocs_total | apply compareDocs_trans].
  - apply sortWith_perm.
Qed.

(** X16: a document that is alone with its id comes out unchanged, as the
    one passage of that id. *)
Theorem groupMerge_single_member :
  forall (docs : list Document) (d : Document),
    filter (fun x => String.eqb (doc_id x) (doc_id d)) docs = [d] ->
    filter (fun x => String.eqb (doc_id x) (doc_id d)) (groupMerge docs) = [d].
Proof.
  intros docs d H.
  pose proof (filter_sortWith compareDocs compareDocs_total compareDocs_trans
                (fun x => String.eqb (doc_id x) (doc_id d)) docs) as E.
  rewrite H in E. simpl in E.
  unfold groupMerge. rewrite combineDocs_sorted.
  - rewrite E. cbn. now rewrite withText_same.
  - apply sortWith_sorted; [apply compareDocs_total | apply compareDocs_trans].
  - rewrite E. discriminate.
Qed.

Lemma groupMerge_single_member_witness :
  let chunk (id : string) (i : Z) (t : string) :=
    {| sort_id := i; doc_id := id; page_number := 1 + i; text := t;
       title := "T"; author := "A"; isbn_number := "I";
       publication_date := 1700000000 |} in
  filter (fun x => String.eqb (doc_id x) "q")
         (groupMerge [chunk "p" 1 "b"; chunk "q" 4 "z"; chunk "p" 0 "a"])
  = [chunk "q" 4 "z"].
Proof.
  intros chunk.
  apply (groupMerge_single_member
           [chunk "p" 1 "b"; chunk "q" 4 "z"; chunk "p" 0 "a"]
           (chunk "q" 4 "z")).
  reflexivity.
Defined.

(** *** Dates *)

Lemma pad2_table :
  forallb (fun n =>
             let s := sliceLast 2 ("0" ++ toString (Z.of_nat n)) in
             Nat.eqb (String.length s) 2 && allDigits s
               && (match parseInt s with
                   | Some m => m =? Z.of_nat n
                   | None => false
                   end))%bool
          (seq 0 100) = true.
Proof. vm_compute. reflexivity. Qed.

(** [('0' + n).slice(-2)] on [0 <= n <= 99]: two digits that read [n]. *)
Lemma pad2_spec (n : Z) :
  0 <= n <= 99 ->
  String.length (sliceLast 2 ("0" ++ toString n)) = 2%nat /\
  allDigits (sliceLast 2 ("0" ++ toString n)) = true /\
  parseInt (sliceLast 2 ("0" ++ toString n)) = Some n.
Proof.
  intros Hn.
  pose proof (proj1 (forallb_forall _ _) pad2_table (Z.to_nat n)) as H.
  assert (Hin : In (Z.to_nat n) (seq 0 100)) by (apply in_seq; lia).
  specialize (H Hin). cbv beta zeta in H.
  rewrite Z2Nat.id in H by lia.
  apply andb_prop in H. destruct H as [H H3].
  apply andb_prop in H. destruct H as [H1 H2].
  apply Nat.eqb_eq in H1.
  destruct (parseInt (sliceLast 2 ("0" ++ toString n))) as [m|];
    [|discriminate].
  apply Z.eqb_eq in H3. subst m. auto.
Qed.

(** X17: for a month number in [0..11] and a day in [1..31],
    [formatTimestampToDate] returns [year-MM-DD] where [MM] and [DD] have
    exactly two digits and read the month number plus one and the day. *)
Theorem formatTimestampToDate_shape :
  forall (getFullYear getMonth getDate : Z -> Z) (timestamp : Z),
    0 <= getMonth (timestamp * 1000) <= 11 ->
    1 <= getDate (timestamp * 1000) <= 31 ->
    exists mm dd : string,
      formatTimestampToDate getFullYear getMonth getDate timestamp
      = toString (getFullYear (timestamp * 1000)) ++ "-" ++ mm ++ "-" ++ dd /\
      String.length mm = 2%nat /\ String.length dd = 2%nat /\
      allDigits mm = true /\ allDigits dd = true /\
      parseInt mm = Some (getMonth (timestamp * 1000) + 1) /\
      parseInt dd = Some (getDate (timestamp * 1000)).
Proof.
  intros getFullYear getMonth getDate timestamp Hm Hd.
  destruct (pad2_spec (getMonth (timestamp * 1000) + 1)) as (M1 & M2 & M3); [lia|].
  destruct (pad2_spec (getDate (timestamp * 1000))) as (D1 & D2 & D3); [lia|].
  exists (sliceLast 2 ("0" ++ toString (getMonth (timestamp * 1000) + 1))),
         (sliceLast 2 ("0" ++ toString (getDate (timestamp * 1000)))).
  repeat split; assumption || reflexivity.
Qed.

Lemma formatTimestampToDate_shape_witness :
  exists mm dd : string,
    formatTimestampToDate (fun _ => 2023) (fun _ => 10) (fun _ => 4) 1700000000
    = toString 2023 ++ "-" ++ mm ++ "-" ++ dd /\
    String.length mm = 2%nat /\ String.length dd = 2%nat /\
    allDigits mm = true /\ allDigits dd = true /\
    parseInt mm = Some (10 + 1) /\ parseInt dd = Some 4.
Proof.
  apply (formatTimestampToDate_shape
           (fun _ => 2023) (fun _ => 10) (fun _ => 4) 1700000000); lia.
Defined.

(** *** The request handler *)

Lemma redisExists_setex (key : string) (seconds : Z) (value : string)
      (redis : Redis) :
  redisExists key (redisSetex key seconds value redis) = true.
Proof. unfold redisExists, redisSetex. simpl. now rewrite String.eqb_refl. Qed.

Section HandlerFacts.
Variable Embedding : Type.
Variable embedQuery : string -> Embedding.
Variable pineconeQuery : QueryOptions Embedding -> list PCMatch.
Variable opensearchSearch : OSBody -> list OSHit.
Variable opensearchMget : list string -> list MgetDoc.
Variables getFullYear getMonth getDate : Z -> Z.
Variable AuthResponse : Type.
Variable status : AuthResponse -> Z.
Variable generateQuery : string -> QueryResult.
Variable now : Z.

(** The handler with its collaborators, but for the authentication service
    and the multi-get. *)
Local Abbreviation serve auth mget :=
  (handler Embedding embedQuery pineconeQuery opensearchSearch mget
           getFullYear getMonth getDate AuthResponse status auth
           generateQuery now).

(** X18: while the caller's email is in the session cache the password is
    not checked: whatever the password sent and whatever the authentication
    service would answer, the response, the cache and the log are the
    same. *)
Theorem cached_email_skips_authentication :
  forall (auth auth' : string -> string -> AuthResponse)
         (redis : Redis) (req : Request) (password' : option string),
    redisExists (orElse (h_email req) "") redis = true ->
    serve auth opensearchMget redis req
    = serve auth' opensearchMget redis
            {| method := method req; h_email := h_email req;
               h_password := password'; json := json req |}.
Proof.
  intros auth auth' redis req password' H. unfold handler.
  cbn [method h_email h_password json]. rewrite H. reflexivity.
Qed.

(** X19: what each response tells.  ['ok'] answers an [OPTIONS] request
    only.  An authentication response is returned only for an email that
    is not cached and whose authentication status is not 200; then the
    cache is unchanged and nothing is logged.  A search result is served
    only to a cached email or after an authentication of status 200; then
    the email is cached and the request is logged once, with [topK] or its
    default 5. *)
Theorem handler_gate :
  forall (auth : string -> string -> AuthResponse)
         (redis : Redis) (req : Request),
    let email := orElse (h_email req) "" in
    let password := orElse (h_password req) "" in
    match serve auth opensearchMget redis req with
    | (OkResponse _, redis', logged) =>
        method req = "OPTIONS" /\ redis' = redis /\ logged = []
    | (AuthFailure _ r, redis', logged) =>
        method req <> "OPTIONS" /\
        r = auth email password /\ status r <> 200 /\
        redisExists email redis = false /\ redis' = redis /\ logged = []
    | (JsonResponse _ _, redis', logged) =>
        method req <> "OPTIONS" /\
        (redisExists email redis = true \/ status (auth email password) = 200) /\
        redisExists email redis' = true /\
        logged = [{| log_email := email; log_time := now;
                     log_function := "textbook_search";
                     log_topK := orElse (rb_topK (json req)) 5 |}]
    end.
Proof.
  intros auth redis req email password. unfold handler.
  destruct (String.eqb_spec (method req) "OPTIONS") as [E|E]; [auto|].
  fold email password.
  destruct (redisExists email redis) eqn:Hc; cbn [negb].
  - auto.
  - destruct (Z.eqb_spec (status (auth email password)) 200) as [Hs|Hs];
      cbn [negb].
    + repeat split; auto. apply redisExists_setex.
    + auto 7.
Qed.


Lemma search_mget_irrelevant
      (mget mget' : list string -> list MgetDoc)
      (fmt : Z -> string) (q : string) (kws : list string) (k extK : Z)
      (f : option FilterType) (d : option DateFilterType) :
  extK <= 0 ->
  search Embedding embedQuery pineconeQuery opensearchSearch mget fmt
         q kws k extK f d
  = search Embedding embedQuery pineconeQuery opensearchSearch mget' fmt
           q kws k extK f d.
Proof.
  intros H. unfold search. destruct (unionDedup _ _) as [id_set docs].
  unfold expandDocs, expansionRequest.
  destruct (Z.gtb_spec extK 0); [lia | reflexivity].
Qed.

(** X21: a request body without [extK], or with one that is not positive,
    is served without the multi-get of the expansion: the handler's outcome
    does not depend on what the multi-get would answer. *)
Theorem handler_default_extK_skips_expansion :
  forall (auth : string -> string -> AuthResponse)
         (mget mget' : list string -> list MgetDoc)
         (redis : Redis) (req : Request),
    orElse (rb_extK (json req)) 0 <= 0 ->
    serve auth mget redis req = serve auth mget' redis req.
Proof.
  intros auth mget mget' redis req H. unfold handler.
  destruct (String.eqb (method req) "OPTIONS"); [reflexivity|].
  rewrite (search_mget_irrelevant mget mget' _ _ _ _ _ _ _ H). reflexivity.
Qed.
End HandlerFacts.

Lemma cached_email_skips_authentication_witness :
  let redis := [{| re_key := "a@b.c"; re_seconds := 3600; re_value := "" |}] in
  let req (pw : option string) :=
    {| method := "POST"; h_email := Some "a@b.c"; h_password := pw;
       json := {| rb_query := "q"; rb_filter := None; rb_datefilter := None;
                  rb_topK := None; rb_extK := None |} |} in
  let gen (q : string) :=
    {| semantic_query := q; fulltext_query_chi_tra := [];
       fulltext_query_chi_sim := []; fulltext_query_eng := [q] |} in
  handler unit (fun _ => tt) (fun _ => []) (fun _ => []) (fun _ => [])
          (fun _ => 2023) (fun _ => 10) (fun _ => 14)
          Z (fun s => s) (fun _ _ => 200) gen 0 redis (req (Some "right"))
  = handler unit (fun _ => tt) (fun _ => []) (fun _ => []) (fun _ => [])
            (fun _ => 2023) (fun _ => 10) (fun _ => 14)
            Z (fun s => s) (fun _ _ => 401) gen 0 redis (req (Some "wrong")).
Proof.
  intros redis req gen.
  exact (cached_email_skips_authentication unit (fun _ => tt) (fun _ => [])
           (fun _ => []) (fun _ => []) (fun _ => 2023) (fun _ => 10)
           (fun _ => 14) Z (fun s => s) gen 0
           (fun _ _ => 200) (fun _ _ => 401) redis (req (Some "right"))
           (Some "wrong") eq_refl).
Defined.


Lemma handler_default_extK_skips_expansion_witness :
  let req :=
    {| method := "POST"; h_email := Some "a@b.c"; h_password := Some "pw";
       json := {| rb_query := "q"; rb_filter := None; rb_datefilter := None;
                  rb_topK := None; rb_extK := None |} |} in
  let gen (q : string) :=
    {| semantic_query := q; fulltext_query_chi_tra := [];
       fulltext_query_chi_sim := []; fulltext_query_eng := [q] |} in
  let src := {| src_rec_id := "d1"; src_page_number := 4; src_isbn_number := "i";
                src_text := "b"; src_title := "t"; src_author := "a";
                src_publication_date := 1700000000 |} in
  handler unit (fun _ => tt) (fun _ => []) (fun _ => [])
          (fun ids => map (fun id => {| mg_id := id; mg_found := true;
                                        mg_source := src |}) ids)
          (fun _ => 2023) (fun _ => 10) (fun _ => 14)
          Z (fun s => s) (fun _ _ => 200) gen 0 [] req
  = handler unit (fun _ => tt) (fun _ => []) (fun _ => []) (fun _ => [])
            (fun _ => 2023) (fun _ => 10) (fun _ => 14)
            Z (fun s => s) (fun _ _ => 200) gen 0 [] req.
Proof.
  intros req gen src.
  apply (handler_default_extK_skips_expansion unit (fun _ => tt) (fun _ => [])
           (fun _ => []) (fun _ => 2023) (fun _ => 10) (fun _ => 14)
           Z (fun s => s) gen 0 (fun _ _ => 200)).
  simpl. lia.
Defined.

End TextbookMore.

(* ===================================================================== *)
(** ** Further properties of sci_search *)
(* ===================================================================== *)

Module SciMore.
Import JS JSFacts SciSearch SciFacts.

(** *** Dates *)

(** X22: for a month number in [0..11], [formatTimestampToYearMonth]
    returns [year-MM] where [MM] has exactly two digits and reads the month
    number plus one. *)
Theorem formatTimestampToYearMonth_shape :
  forall (getFullYear getMonth : Z -> Z) (timestamp : Z),
    0 <= getMonth (timestamp * 1000) <= 11 ->
    exists mm : string,
      formatTimestampToYearMonth getFullYear getMonth timestamp
      = toString (getFullYear (timestamp * 1000)) ++ "-" ++ mm /\
      String.length mm = 2%nat /\ allDigits mm = true /\
      parseInt mm = Some (getMonth (timestamp * 1000) + 1).
Proof.
  intros getFullYear getMonth timestamp Hm.
  destruct (TextbookMore.pad2_spec (getMonth (timestamp * 1000) + 1))
    as (M1 & M2 & M3); [lia|].
  exists (sliceLast 2 ("0" ++ toString (getMonth (timestamp * 1000) + 1))).
  repeat split; assumption || reflexivity.
Qed.

Lemma formatTimestampToYearMonth_shape_witness :
  exists mm : string,
    formatTimestampToYearMonth (fun _ => 2023) (fun _ => 0) 1672531200
    = toString 2023 ++ "-" ++ mm /\
    String.length mm = 2%nat /\ allDigits mm = true /\
    parseInt mm = Some (0 + 1).
Proof.
  apply (formatTimestampToYearMonth_shape (fun _ => 2023) (fun _ => 0) 1672531200).
  lia.
Defined.

(** *** The filter *)

Lemma filterToPCQuery_conditions (f : FilterType) :
  filterToPCQuery (Some f)
  = match ((match journal f with
            | Some js => [JournalCondition js]
            | None => []
            end) ++
           (match date f with
            | Some d => if String.eqb d "" then [] else [DateCondition d]
            | None => []
            end))%list with
    | [] => None
    | c :: cs => Some {| pc_and := c :: cs |}
    end.
Proof.
  destruct f as [[js|] [d|]]; unfold filterToPCQuery, keysLength, truthyStr;
    cbn [journal date truthyOpt];
    try (destruct (String.eqb d ""); reflexivity); reflexivity.
Qed.

Lemma buildQueryOptions_filter (Embedding : Type) (v : Embedding) (k : Z)
      (filter : option FilterType) :
  qo_filter (buildQueryOptions Embedding v k filter) = filterToPCQuery filter.
Proof.
  destruct filter as [[[js|] [d|]]|]; reflexivity.
Qed.

(** X23: the vector-store query of sci_search carries what
    [filterToPCQuery] returns, which is never a filter with an empty
    [$and]: it is absent exactly when the caller gave no filter, or one
    with no journal list and no non-empty date; otherwise [$and] holds the
    journal condition, if any, then the date condition, if any. *)
Theorem sci_filter_never_empty :
  forall (Embedding : Type) (searchVector : Embedding) (k : Z)
         (filter : option FilterType),
    qo_filter (buildQueryOptions Embedding searchVector k filter)
    = filterToPCQuery filter /\
    (filterToPCQuery filter = None <->
     filter = None \/
     exists f, filter = Some f /\ journal f = None /\
               (date f = None \/ date f = Some "")) /\
    (forall pf,
        filterToPCQuery filter = Some pf ->
        pc_and pf <> [] /\
        exists f,
          filter = Some f /\
          pc_and pf
          = ((match journal f with
              | Some js => [JournalCondition js]
              | None => []
              end) ++
             (match date f with
              | Some d => if String.eqb d "" then [] else [DateCondition d]
              | None => []
              end))%list).
Proof.
  intros Embedding v k filter.
  split; [apply buildQueryOptions_filter | split].
  - destruct filter as [f|]; [|split; auto].
    rewrite filterToPCQuery_conditions. split.
    + intros H. right. exists f. split; [reflexivity|].
      destruct (journal f) as [js|]; [discriminate H|]. split; [reflexivity|].
      destruct (date f) as [d|]; [|auto].
      destruct (String.eqb d "") eqn:Ed; [|discriminate H].
      apply String.eqb_eq in Ed. subst d. auto.
    + intros [H|(f' & [= <-] & Hj & Hd)]; [discriminate H|].
      rewrite Hj. destruct Hd as [->| ->]; reflexivity.
  - intros pf H. destruct filter as [f|]; [|discriminate H].
    rewrite filterToPCQuery_conditions in H.
    destruct ((match journal f with
               | Some js => [JournalCondition js]
               | None => []
               end) ++
              (match date f with
               | Some d => if String.eqb d "" then [] else [DateCondition d]
               | None => []
               end))%list as [|c cs] eqn:E; [discriminate H|].
    injection H as <-. split; [discriminate|].
    exists f. split; [reflexivity|]. cbn [pc_and]. now rewrite E.
Qed.

(** *** [getMeta] *)

Lemma slice_batch (doi : list string) (i : nat) :
  slice i (i + batchSize) doi = firstn batchSize (skipn i doi).
Proof. unfold slice. f_equal. lia. Qed.

Lemma skipn_batch (doi : list string) (i : nat) :
  skipn i doi
  = (slice i (i + batchSize) doi ++ skipn (i + batchSize) doi)%list.
Proof.
  rewrite slice_batch, <- (firstn_skipn batchSize (skipn i doi)) at 1.
  f_equal. rewrite skipn_skipn. f_equal. lia.
Qed.

(** The batches sent to the store hold between 1 and [batchSize] ids. *)
Lemma slice_batch_length (doi : list string) (i : nat) :
  (i < List.length doi)%nat ->
  (1 <= List.length (slice i (i + batchSize) doi) <= batchSize)%nat.
Proof.
  intros H. rewrite slice_batch, length_firstn, length_skipn.
  unfold batchSize. lia.
Qed.

Section Batching.
Variable g : list string -> list JournalData.
Hypothesis g_app :
  forall (a b : list string) (r : JournalData),
    In r (g (a ++ b)) <-> In r (g a) \/ In r (g b).
Hypothesis g_nil : forall r, ~ In r (g []).

Lemma getMetaLoop_members (n : nat) :
  forall (doi : list string) (i : nat) (allData : list JournalData),
    (List.length doi - i <= n)%nat ->
    exists res,
      getMetaLoop (fun b => Some (g b)) doi i allData = Some res /\
      forall r, In r res <-> In r allData \/ In r (g (skipn i doi)).
Proof.
  induction n as [|n IH]; intros doi i allData Hn.
  - exists allData. split.
    + apply getMetaLoop_done. lia.
    + intros r. rewrite skipn_all2 by lia. pose proof (g_nil r). tauto.
  - destruct (lt_dec i (List.length doi)) as [Hlt|Hge].
    + rewrite getMetaLoop_batch by assumption.
      destruct (IH doi (i + batchSize)%nat
                   (allData ++ g (slice i (i + batchSize) doi))%list)
        as (res & E & Hres).
      { unfold batchSize. lia. }
      exists res. split; [exact E|].
      intros r. rewrite Hres, in_app_iff.
      rewrite (skipn_batch doi i), g_app. tauto.
    + exists allData. split.
      * apply getMetaLoop_done. lia.
      * intros r. rewrite skipn_all2 by lia. pose proof (g_nil r). tauto.
Qed.
End Batching.

(** X24: batching does not change the answer.  For a store that answers
    every batch, with an answer made of the records of the ids asked (the
    records for [a ++ b] are those for [a] and those for [b]), [getMeta]
    succeeds and returns exactly the records the store has for the whole
    list. *)
Theorem getMeta_batching_is_transparent :
  forall (g : list string -> list JournalData),
    (forall (a b : list string) (r : JournalData),
        In r (g (a ++ b)%list) <-> In r (g a) \/ In r (g b)) ->
    (forall r, ~ In r (g [])) ->
    forall doi : list string,
    exists res,
      getMeta (fun b => Some (g b)) doi = Some res /\
      forall r, In r res <-> In r (g doi).
Proof.
  intros g Happ Hnil doi.
  destruct (getMetaLoop_members g Happ Hnil _ doi 0 [] (le_n _))
    as (res & E & Hres).
  exists res. split; [exact E|].
  intros r. rewrite Hres. simpl. tauto.
Qed.

(** The store that answers a batch with the rows of a table whose DOI is
    in the batch. *)
Lemma table_store_app (table : list JournalData) (a b : list string)
      (r : JournalData) :
  In r (filter (fun r => has (doi r) (a ++ b)%list) table) <->
  In r (filter (fun r => has (doi r) a) table) \/
  In r (filter (fun r => has (doi r) b) table).
Proof.
  rewrite !filter_In, !has_In, in_app_iff. tauto.
Qed.

Lemma table_store_nil (table : list JournalData) (r : JournalData) :
  ~ In r (filter (fun r => has (doi r) []) table).
Proof. rewrite filter_In. simpl. intros [_ H]. discriminate H. Qed.

Lemma getMeta_batching_is_transparent_witness :
  let table := [{| doi := "10.1/a"; title := "A"; authors := ["x"] |};
                {| doi := "10.1/b"; title := "B"; authors := ["y"; "z"] |}] in
  exists res,
    getMeta (fun b => Some (filter (fun r => has (doi r) b) table))
            ["10.1/b"; "10.1/c"] = Some res /\
    forall r, In r res <->
              In r (filter (fun r => has (doi r) ["10.1/b"; "10.1/c"]) table).
Proof.
  intros table.
  apply (getMeta_batching_is_transparent
           (fun b => filter (fun r => has (doi r) b) table)
           (table_store_app table) (table_store_nil table)).
Defined.

(** X25: the store is only ever asked for batches of 1 to 400 ids: two
    stores that agree on every such batch give the same [getMeta]. *)
Theorem getMeta_asks_bounded_batches :
  forall (journalsIn journalsIn' : list string -> option (list JournalData)),
    (forall b : list string,
        (1 <= List.length b <= 400)%nat -> journalsIn b = journalsIn' b) ->
    forall doi : list string, getMeta journalsIn doi = getMeta journalsIn' doi.
Proof.
  intros j j' Hagree doi. unfold getMeta.
  assert (H : forall n i acc,
             (List.length doi - i <= n)%nat ->
             getMetaLoop j doi i acc = getMetaLoop j' doi i acc).
  { induction n as [|n IH]; intros i acc Hn.
    - rewrite !getMetaLoop_done by lia. reflexivity.
    - destruct (lt_dec i (List.length doi)) as [Hlt|Hge].
      + rewrite !getMetaLoop_batch by assumption.
        rewrite <- Hagree by (apply slice_batch_length; assumption).
        destruct (j (slice i (i + batchSize) doi)); [|reflexivity].
        apply IH. unfold batchSize. lia.
      + rewrite !getMetaLoop_done by lia. reflexivity. }
  apply (H _ 0%nat [] (le_n _)).
Qed.

Lemma getMeta_asks_bounded_batches_witness :
  getMeta (fun b => if (List.length b <=? 400)%nat then Some [] else None)
          (repeat "10.1/a" 1000)
  = getMeta (fun _ => Some []) (repeat "10.1/a" 1000).
Proof.
  apply (getMeta_asks_bounded_batches
           (fun b => if (List.length b <=? 400)%nat then Some [] else None)
           (fun _ => Some [])).
  intros b [_ Hb]. apply Nat.leb_le in Hb. now rewrite Hb.
Defined.

(** *** [search] *)

Section SearchFacts.
Variable Embedding : Type.
Variable embedQuery : string -> Embedding.
Variable pineconeQuery : QueryOptions Embedding -> list PCMatch.
Variable formatTimestampToYearMonth : Z -> string.

Lemma uniqueDocs_ids_nonempty (matches : list PCMatch) (doc : Doc) :
  In doc (uniqueDocs formatTimestampToYearMonth matches) -> doc_id doc <> "".
Proof.
  unfold uniqueDocs. rewrite in_flat_map. intros (m & _ & H).
  destruct (pc_metadata m) as [md|]; [|destruct H].
  destruct (md_doi md) as [id|]; [|destruct H].
  unfold truthyStr in H. destruct (String.eqb_spec id "") as [|Hne];
    simpl in H; [destruct H|].
  destruct H as [<-|[]]. exact Hne.
Qed.

(** X26: the DOIs handed to [getMeta] are pairwise distinct, non-empty,
    and are exactly the DOIs of the documents kept from the vector store:
    chunks that share a DOI cause one lookup of it. *)
Theorem uniqueIds_are_distinct_dois :
  forall matches : list PCMatch,
    let unique_docs := uniqueDocs formatTimestampToYearMonth matches in
    NoDup (uniqueIds unique_docs) /\
    (forall id, In id (uniqueIds unique_docs) <-> In id (map doc_id unique_docs)) /\
    (forall id, In id (uniqueIds unique_docs) -> id <> "").
Proof.
  intros matches unique_docs.
  assert (Hin : forall id, In id (uniqueIds unique_docs)
                           <-> In id (map doc_id unique_docs)).
  { intros id. unfold uniqueIds. rewrite TextbookFacts.In_fold_add.
    simpl. tauto. }
  split; [|split; [exact Hin|]].
  - unfold uniqueIds. apply TextbookMore.NoDup_fold_add. constructor.
  - intros id Hid. apply Hin in Hid. apply in_map_iff in Hid.
    destruct Hid as (doc & <- & Hdoc).
    now apply uniqueDocs_ids_nonempty with (matches := matches).
Qed.

Lemma docList_all_found (pg : option (list JournalData)) (docs : list Doc) :
  (forall doc, In doc docs -> findRecord pg (doc_id doc) <> None) ->
  exists entries, docList pg docs = Ok entries.
Proof.
  induction docs as [|d docs IH]; intros H; simpl; [eauto|].
  destruct (findRecord pg (doc_id d)) as [r|] eqn:E.
  - destruct IH as (es & ->); [intros doc Hdoc; apply H; simpl; auto|]. eauto.
  - exfalso. apply (H d); simpl; auto.
Qed.

(** X27: against a table of journal records, queried by DOI, [search]
    succeeds when the table has a row for the DOI of every document kept,
    and then returns one entry per document, in order, built from a row of
    the table with that DOI and carrying the document's text; it throws
    when the table lacks the DOI of some document. *)
Theorem search_against_table :
  forall (table : list JournalData) (semantic_query : string) (k : Z)
         (filter : option FilterType),
    let journalsIn (batch : list string) :=
      Some (List.filter (fun r => has (doi r) batch) table) in
    let unique_docs :=
      uniqueDocs formatTimestampToYearMonth
        (pineconeQuery
           (buildQueryOptions Embedding (embedQuery semantic_query) k filter)) in
    let result :=
      search Embedding embedQuery pineconeQuery journalsIn
             formatTimestampToYearMonth semantic_query k filter in
    ((forall doc, In doc unique_docs ->
                  exists r, In r table /\ doi r = doc_id doc) ->
     exists entries,
       result = Ok entries /\
       Forall2 (fun doc e =>
                  content e = doc_text doc /\
                  exists r, In r table /\ doi r = doc_id doc /\
                            e = entryOf doc r) unique_docs entries) /\
    ((exists doc, In doc unique_docs /\
                  forall r, In r table -> doi r <> doc_id doc) ->
     result = Throw "Record not found").
Proof.
  intros table semantic_query k filter journalsIn unique_docs result.
  destruct (getMetaLoop_members
              (fun b => List.filter (fun r => has (doi r) b) table)
              (table_store_app table) (table_store_nil table)
              _ (uniqueIds unique_docs) 0 [] (le_n _)) as (res & Eres & Hres).
  fold journalsIn in Eres. fold (getMeta journalsIn (uniqueIds unique_docs)) in Eres.
  assert (Hmem : forall r, In r res <->
                           In r table /\ In (doi r) (uniqueIds unique_docs)).
  { intros r. rewrite Hres, filter_In, has_In. simpl. tauto. }
  assert (Hids : forall doc, In doc unique_docs ->
                             In (doc_id doc) (uniqueIds unique_docs)).
  { intros doc Hdoc. unfold uniqueIds. rewrite TextbookFacts.In_fold_add.
    left. now apply in_map. }
  split.
  - intros Hall.
    destruct (docList_all_found (Some res) unique_docs) as (entries & E).
    { intros doc Hdoc Hnone. destruct (Hall doc Hdoc) as (r & Hr & Er).
      simpl in Hnone.
      assert (Hf : String.eqb (doi r) (doc_id doc) = false).
      { apply (find_none _ _ Hnone r).
        apply Hmem. split; [assumption|]. rewrite Er. now apply Hids. }
      apply String.eqb_neq in Hf. contradiction. }
    exists entries. split.
    + unfold result, search. fold unique_docs. rewrite Eres. exact E.
    + apply docList_Ok in E.
      eapply Forall2_impl; [|exact E].
      intros doc e (r & Hfind & ->). split; [reflexivity|].
      simpl in Hfind. apply find_some in Hfind. destruct Hfind as [Hr Er].
      apply String.eqb_eq in Er. apply Hmem in Hr.
      exists r. tauto.
  - intros (doc & Hdoc & Hno).
    unfold result, search. fold unique_docs. rewrite Eres.
    apply docList_missing with (doc := doc); [assumption|].
    simpl. destruct (find (fun r => String.eqb (doi r) (doc_id doc)) res)
      as [r|] eqn:E; [|reflexivity].
    apply find_some in E. destruct E as [Hr Er].
    apply String.eqb_eq in Er. apply Hmem in Hr.
    exfalso. apply (Hno r); tauto.
Qed.
End SearchFacts.

Lemma search_against_table_witness :
  let table := [{| doi := "10.1/a"; title := "A"; authors := ["x"] |};
                {| doi := "10.1/b"; title := "B"; authors := ["y"; "z"] |}] in
  let chunk (id t : string) :=
    {| pc_metadata := Some {| md_doi := Some id; md_date := 1700000000;
                              md_text := t; md_journal := "J" |} |} in
  (exists entries,
      search unit (fun _ => tt)
             (fun _ => [chunk "10.1/b" "one"; chunk "10.1/b" "two"])
             (fun b => Some (filter (fun r => has (doi r) b) table))
             (fun _ => "2023-11") "q" 5 None = Ok entries) /\
  search unit (fun _ => tt)
         (fun _ => [chunk "10.1/b" "one"; chunk "10.1/xyz" "two"])
         (fun b => Some (filter (fun r => has (doi r) b) table))
         (fun _ => "2023-11") "q" 5 None = Throw "Record not found".
Proof.
  intros table chunk. split.
  - destruct (proj1 (search_against_table unit (fun _ => tt)
                       (fun _ => [chunk "10.1/b" "one"; chunk "10.1/b" "two"])
                       (fun _ => "2023-11") table "q" 5 None))
      as (entries & E & _).
    + intros doc [<-|[<-|[]]];
        exists {| doi := "10.1/b"; title := "B"; authors := ["y"; "z"] |};
        simpl; auto.
    + exists entries. exact E.
  - apply (proj2 (search_against_table unit (fun _ => tt)
                    (fun _ => [chunk "10.1/b" "one"; chunk "10.1/xyz" "two"])
                    (fun _ => "2023-11") table "q" 5 None)).
    exists {| doc_id := "10.1/xyz"; doc_text := "two"; doc_journal := "J";
              doc_date := "2023-11" |}.
    split; [right; left; reflexivity|].
    intros r [<-|[<-|[]]]; discriminate.
Defined.

(** *** The request handler *)

(** X28: sci_search has no session cache: every request other than
    [OPTIONS] is authenticated first.  An authentication response is
    returned exactly for a status other than 200.  The body is parsed, the
    query generated and the search run only after a status of 200, in that
    order; the search result is served when all of them return, and the
    handler throws exactly the error that the first failing one of the
    authentication, the body parse, [generateQuery] and [search] throws. *)
Theorem sci_handler_gate :
  forall (AuthResponse : Type) (status : AuthResponse -> Z)
         (supabaseAuth : string -> string -> result AuthResponse)
         (generateQuery : string -> result string)
         (runSearch : string -> Z -> option FilterType
                      -> result (list DocListEntry))
         (req : Request),
    let auth :=
      supabaseAuth (orElse (h_email req) "") (orElse (h_password req) "") in
    match handler AuthResponse status supabaseAuth generateQuery runSearch
                  req with
    | Ok (OkResponse _) => method req = "OPTIONS"
    | Ok (AuthFailure _ r) =>
        method req <> "OPTIONS" /\ auth = Ok r /\ status r <> 200
    | Ok (JsonResponse _ entries) =>
        method req <> "OPTIONS" /\
        exists r body q,
          auth = Ok r /\ status r = 200 /\ json req = Ok body /\
          generateQuery (rb_query body) = Ok q /\
          runSearch q (orElse (rb_topK body) 5) (rb_filter body) = Ok entries
    | Throw e =>
        method req <> "OPTIONS" /\
        (auth = Throw e \/
         exists r,
           auth = Ok r /\ status r = 200 /\
           (json req = Throw e \/
            exists body,
              json req = Ok body /\
              (generateQuery (rb_query body) = Throw e \/
               exists q,
                 generateQuery (rb_query body) = Ok q /\
                 runSearch q (orElse (rb_topK body) 5) (rb_filter body)
                 = Throw e)))
    end.
Proof.
  intros. unfold handler. fold auth.
  destruct (String.eqb_spec (method req) "OPTIONS") as [E|E]; [exact E|].
  destruct auth as [r|e]; [|split; [exact E | left; reflexivity]].
  destruct (Z.eqb_spec (status r) 200) as [Hs|Hs]; cbn [negb];
    [|repeat split; assumption].
  destruct (json req) as [body|e].
  - destruct (generateQuery (rb_query body)) as [q|e] eqn:Eq.
    + destruct (runSearch q (orElse (rb_topK body) 5) (rb_filter body))
        as [entries|e] eqn:Es.
      * split; [exact E|]. exists r, body, q.
        repeat split; assumption || reflexivity.
      * split; [exact E|]. right. exists r. split; [reflexivity|].
        split; [exact Hs|]. right. exists body. split; [reflexivity|].
        right. exists q. split; assumption.
    + split; [exact E|]. right. exists r. split; [reflexivity|].
      split; [exact Hs|]. right. exists body. split; [reflexivity|].
      left. exact Eq.
  - split; [exact E|]. right. exists r. split; [reflexivity|].
    split; [exact Hs|]. left. reflexivity.
Qed.

(** The handler in front of the [search] of this file, whose stores
    answer: a request with a status of 200 is served one entry per kept
    match. *)
Lemma sci_handler_serves_search :
  let md := {| md_doi := Some "10.1/a"; md_date := 1700000000;
               md_text := "x"; md_journal := "J" |} in
  let row := {| doi := "10.1/a"; title := "T"; authors := ["A"; "B"] |} in
  let run q k f :=
    search unit (fun _ => tt) (fun _ => [{| pc_metadata := Some md |}])
           (fun ids => Some (filter (fun r => has (doi r) ids) [row]))
           (fun _ => "2023-11") q k f in
  let req :=
    {| method := "POST"; h_email := Some "a@b.c"; h_password := Some "pw";
       json := Ok {| rb_query := "q"; rb_filter := None; rb_topK := None |} |} in
  handler Z (fun s => s) (fun _ _ => Ok 200) (fun q => Ok q) run req
  = Ok (JsonResponse Z
          [{| content := "x";
              source := "[T, J. A, B. 2023-11.](https://doi.org/10.1/a)" |}]) /\
  handler Z (fun s => s) (fun _ _ => Ok 401) (fun q => Ok q) run req
  = Ok (AuthFailure Z 401) /\
  handler Z (fun s => s) (fun _ _ => Ok 200) (fun q => Throw "rate limit")
          run req
  = Throw "rate limit".
Proof. intros md row run req. repeat split. Qed.

End SciMore.
